(** * swayimg viewer: viewport state, position fix-up, scale policies, zoom,
      navigation retries and frame stepping (src/viewer.c)

    The viewer context [struct viewer] becomes the record [viewer]; the
    collaborators the viewer calls (window size, current image, overlay text,
    redraw requests, the two timers, the diagnostic stream) are fields of the
    record [world], threaded explicitly through every operation.

    Machine integers are [Z] with the wrap-around written out.  C [float]
    and [double] are IEEE 754 binary32 and binary64, modelled with the
    [SpecFloat] operations of the standard library. *)

From Stdlib Require Import ZArith Bool List String Ascii Lia SpecFloat.
From Stdlib Require Import QArith Qabs Qpower Lqa.
Import ListNotations.
Local Open Scope Z_scope.

(* ================================================================== *)
(** ** Machine integers *)

Module Int.

Definition SIZE_MOD : Z := 2 ^ 64.
Definition SSIZE_MAX : Z := 2 ^ 63 - 1.
Definition SSIZE_MIN : Z := - 2 ^ 63.

(** [size_t]: reduction modulo 2^64. *)
Definition size_wrap (z : Z) : Z := z mod SIZE_MOD.

(** [ssize_t]: two's complement reduction into [-2^63, 2^63). *)
Definition ssize_wrap (z : Z) : Z := (z + 2 ^ 63) mod SIZE_MOD - 2 ^ 63.

Definition sadd (a b : Z) : Z := ssize_wrap (a + b).
Definition ssub (a b : Z) : Z := ssize_wrap (a - b).
Definition smul (a b : Z) : Z := ssize_wrap (a * b).
Definition sneg (a : Z) : Z := ssize_wrap (- a).
(** C division truncates toward zero. *)
Definition sdiv (a b : Z) : Z := ssize_wrap (Z.quot a b).

End Int.
Export Int.

(* ================================================================== *)
(** ** IEEE 754 binary32 ([float]) and binary64 ([double]) *)

Module Fp.

Definition float32 := spec_float.
Definition float64 := spec_float.

(** binary32 *)
Definition fprec : Z := 24.
Definition femax : Z := 128.
(** binary64 *)
Definition dprec : Z := 53.
Definition demax : Z := 1024.

Definition fdiv : float32 -> float32 -> float32 := SFdiv fprec femax.
Definition dadd : float64 -> float64 -> float64 := SFadd dprec demax.
Definition dsub : float64 -> float64 -> float64 := SFsub dprec demax.
Definition dmul : float64 -> float64 -> float64 := SFmul dprec demax.
Definition ddiv : float64 -> float64 -> float64 := SFdiv dprec demax.

(** Integer to floating point (round to nearest even). *)
Definition Z_to_float (z : Z) : float32 := binary_normalize fprec femax z 0 false.
Definition Z_to_double (z : Z) : float64 := binary_normalize dprec demax z 0 false.

(** [float] to [double]: exact, the value is re-normalised to 53 bits. *)
Definition f2d (x : float32) : float64 :=
  match x with
  | S754_finite s m e => binary_round dprec demax s m e
  | _ => x
  end.

(** [double] to [float]: rounding to nearest even. *)
Definition d2f (x : float64) : float32 :=
  match x with
  | S754_finite s m e => binary_round fprec femax s m e
  | _ => x
  end.

(** [double] to [ssize_t]: truncation toward zero.  A NaN, an infinity
    or a value out of range is undefined in C; the x86-64 conversion
    instruction yields the most negative integer, which is what is
    modelled. *)
Definition double_to_ssize (x : float64) : Z :=
  match x with
  | S754_zero _ => 0
  | S754_finite s m e =>
      let a := Z.shiftl (Zpos m) e in
      let z := if s then - a else a in
      if (SSIZE_MIN <=? z) && (z <=? SSIZE_MAX) then z else SSIZE_MIN
  | _ => SSIZE_MIN
  end.

(** [floor] of math.h on doubles. *)
Definition dfloor (x : float64) : float64 :=
  match x with
  | S754_finite s m e =>
      if 0 <=? e then x
      else binary_normalize dprec demax
             (Z.shiftl (if s then Zneg m else Zpos m) e) 0 s
  | _ => x
  end.

(** C comparison operators: false whenever an operand is NaN. *)
Definition flt (x y : spec_float) : bool := SFltb x y.
Definition fgt (x y : spec_float) : bool := SFltb y x.
Definition fle (x y : spec_float) : bool := SFleb x y.
Definition feq (x y : spec_float) : bool := SFeqb x y.

(** Modelled from the spec: the [min] and [max] macros come from a header
    that is not part of viewer.c; the scale policies take "min(sw, sh)"
    and "max(sw, sh)", read as the usual comparison macros
    [(x) < (y) ? (x) : (y)] and [(x) > (y) ? (x) : (y)]. *)
Definition fmin (x y : spec_float) : spec_float := if flt x y then x else y.
Definition fmax (x y : spec_float) : spec_float := if fgt x y then x else y.

(** Literals. *)
Definition d_1 : float64 := Z_to_double 1.
Definition d_2 : float64 := Z_to_double 2.
Definition d_0 : float64 := S754_zero false.

End Fp.
Export Fp.

(* ================================================================== *)
(** ** Constants and enumerations of viewer.c *)

(** [MIN_SCALE], in pixels. *)
Definition MIN_SCALE : Z := 10.
(** [MAX_SCALE], a factor. *)
Definition MAX_SCALE : float64 := Z_to_double 100.

(** [enum fixed_scale]. *)
Inductive fixed_scale : Set :=
| scale_fit_optimal
| scale_fit_window
| scale_fit_width
| scale_fit_height
| scale_fill_window
| scale_real_size.

Definition scale_names : list string :=
  [ "optimal"; "fit"; "width"; "height"; "fill"; "real" ]%string.

Definition fixed_scale_index (sc : fixed_scale) : Z :=
  match sc with
  | scale_fit_optimal => 0
  | scale_fit_window => 1
  | scale_fit_width => 2
  | scale_fit_height => 3
  | scale_fill_window => 4
  | scale_real_size => 5
  end.

Definition fixed_scale_of_index (i : Z) : fixed_scale :=
  match i with
  | 0 => scale_fit_optimal
  | 1 => scale_fit_window
  | 2 => scale_fit_width
  | 3 => scale_fit_height
  | 4 => scale_fill_window
  | _ => scale_real_size
  end.

(** [enum position]. *)
Inductive enum_position : Set :=
| position_top
| position_center
| position_bottom
| position_left
| position_right
| position_top_left
| position_top_right
| position_bottom_left
| position_bottom_right.

(** Modelled from the spec: [IMGLIST_INVALID], the exhaustion sentinel of
    the image list, is declared outside viewer.c; it is taken to be the
    largest [size_t]. *)
Definition IMGLIST_INVALID : Z := SIZE_MOD - 1.

(* ================================================================== *)
(** ** Images (owned by the fetcher, read-only here) *)

Record pixmap := { width : Z; height : Z }.

Record image_frame := { pm : pixmap; duration : Z }.

Record image := {
  frames : list image_frame;
  index : Z;
  name : string;
  alpha : bool
}.

Definition num_frames (img : image) : Z := Z.of_nat (List.length (frames img)).

(** [img->frames[i]]; reading past the array is undefined in C, the model
    reads an empty frame there. *)
Definition frame_at (img : image) (i : Z) : image_frame :=
  nth (Z.to_nat i) (frames img) {| pm := {| width := 0; height := 0 |}; duration := 0 |}.

(* ================================================================== *)
(** ** Viewer context and its surroundings *)

(** [struct viewer]. *)
Record viewer := {
  img_x : Z; img_y : Z;
  img_w : Z; img_h : Z;
  frame : Z;
  fixed : bool;
  scale_init : fixed_scale;
  keep_zoom : bool;
  position : enum_position;
  scale : float64;
  animation_enable : bool;
  slideshow_enable : bool;
  slideshow_time : Z
}.

(** Overlay fields written with [info_update]. *)
Inductive info_field : Set :=
| info_scale | info_status | info_frame | info_image_size | info_index.

(** The arguments of the format strings of [info_update]. *)
Inductive info_value : Set :=
| fmt_percent (v : float64)          (* "%.0f%%" *)
| fmt_status (s : string)            (* literal status text *)
| fmt_scale_name (sc : fixed_scale)  (* "Scale %s" *)
| fmt_of (n total : Z)               (* "%zu of %zu" *)
| fmt_size (w h : Z).                (* "%zux%zu" *)

(** The [it_value] of a [struct itimerspec]; the interval is always zero. *)
Record itimerspec := { tv_sec : Z; tv_nsec : Z }.

Definition timer_disarmed : itimerspec := {| tv_sec := 0; tv_nsec := 0 |}.

(** Diagnostics printed to stderr. *)
Inductive diagnostic : Set :=
| invalid_move_step (params : string)
| invalid_scale_operation (params : string)
| invalid_zoom_operation (params : string).

Record world := {
  ctx : viewer;
  ui_width : Z;                              (* ui_get_width() *)
  ui_height : Z;                             (* ui_get_height() *)
  current : image;                           (* fetcher_current() *)
  info : list (info_field * info_value);     (* info_update calls, latest first *)
  redraws : nat;                             (* app_redraw calls *)
  stderr : list diagnostic;                  (* fprintf(stderr, ...), latest first *)
  animation_timer : itimerspec;              (* timerfd_settime on animation_fd *)
  slideshow_timer : itimerspec;              (* timerfd_settime on slideshow_fd *)
  title : string;                            (* ui_set_title *)
  content_animated : bool                    (* ui_set_content_type_animated *)
}.

Definition set_ctx (c : viewer) (w : world) : world :=
  {| ctx := c; ui_width := ui_width w; ui_height := ui_height w;
     current := current w; info := info w; redraws := redraws w;
     stderr := stderr w; animation_timer := animation_timer w;
     slideshow_timer := slideshow_timer w; title := title w;
     content_animated := content_animated w |}.

Definition set_current (img : image) (w : world) : world :=
  {| ctx := ctx w; ui_width := ui_width w; ui_height := ui_height w;
     current := img; info := info w; redraws := redraws w;
     stderr := stderr w; animation_timer := animation_timer w;
     slideshow_timer := slideshow_timer w; title := title w;
     content_animated := content_animated w |}.

Definition info_update (f : info_field) (v : info_value) (w : world) : world :=
  {| ctx := ctx w; ui_width := ui_width w; ui_height := ui_height w;
     current := current w; info := (f, v) :: info w; redraws := redraws w;
     stderr := stderr w; animation_timer := animation_timer w;
     slideshow_timer := slideshow_timer w; title := title w;
     content_animated := content_animated w |}.

Definition app_redraw (w : world) : world :=
  {| ctx := ctx w; ui_width := ui_width w; ui_height := ui_height w;
     current := current w; info := info w; redraws := S (redraws w);
     stderr := stderr w; animation_timer := animation_timer w;
     slideshow_timer := slideshow_timer w; title := title w;
     content_animated := content_animated w |}.

Definition report (d : diagnostic) (w : world) : world :=
  {| ctx := ctx w; ui_width := ui_width w; ui_height := ui_height w;
     current := current w; info := info w; redraws := redraws w;
     stderr := d :: stderr w; animation_timer := animation_timer w;
     slideshow_timer := slideshow_timer w; title := title w;
     content_animated := content_animated w |}.

Definition set_animation_timer (ts : itimerspec) (w : world) : world :=
  {| ctx := ctx w; ui_width := ui_width w; ui_height := ui_height w;
     current := current w; info := info w; redraws := redraws w;
     stderr := stderr w; animation_timer := ts;
     slideshow_timer := slideshow_timer w; title := title w;
     content_animated := content_animated w |}.

Definition set_slideshow_timer (ts : itimerspec) (w : world) : world :=
  {| ctx := ctx w; ui_width := ui_width w; ui_height := ui_height w;
     current := current w; info := info w; redraws := redraws w;
     stderr := stderr w; animation_timer := animation_timer w;
     slideshow_timer := ts; title := title w;
     content_animated := content_animated w |}.

Definition ui_set_title (t : string) (w : world) : world :=
  {| ctx := ctx w; ui_width := ui_width w; ui_height := ui_height w;
     current := current w; info := info w; redraws := redraws w;
     stderr := stderr w; animation_timer := animation_timer w;
     slideshow_timer := slideshow_timer w; title := t;
     content_animated := content_animated w |}.

Definition ui_set_content_type_animated (b : bool) (w : world) : world :=
  {| ctx := ctx w; ui_width := ui_width w; ui_height := ui_height w;
     current := current w; info := info w; redraws := redraws w;
     stderr := stderr w; animation_timer := animation_timer w;
     slideshow_timer := slideshow_timer w; title := title w;
     content_animated := b |}.

(** Field updates of the viewer context. *)
Definition set_pos (x y : Z) (c : viewer) : viewer :=
  {| img_x := x; img_y := y; img_w := img_w c; img_h := img_h c;
     frame := frame c; fixed := fixed c; scale_init := scale_init c;
     keep_zoom := keep_zoom c; position := position c; scale := scale c;
     animation_enable := animation_enable c;
     slideshow_enable := slideshow_enable c;
     slideshow_time := slideshow_time c |}.

Definition set_size (iw ih : Z) (c : viewer) : viewer :=
  {| img_x := img_x c; img_y := img_y c; img_w := iw; img_h := ih;
     frame := frame c; fixed := fixed c; scale_init := scale_init c;
     keep_zoom := keep_zoom c; position := position c; scale := scale c;
     animation_enable := animation_enable c;
     slideshow_enable := slideshow_enable c;
     slideshow_time := slideshow_time c |}.

Definition set_frame (i : Z) (c : viewer) : viewer :=
  {| img_x := img_x c; img_y := img_y c; img_w := img_w c; img_h := img_h c;
     frame := i; fixed := fixed c; scale_init := scale_init c;
     keep_zoom := keep_zoom c; position := position c; scale := scale c;
     animation_enable := animation_enable c;
     slideshow_enable := slideshow_enable c;
     slideshow_time := slideshow_time c |}.

Definition set_scale_init (sc : fixed_scale) (c : viewer) : viewer :=
  {| img_x := img_x c; img_y := img_y c; img_w := img_w c; img_h := img_h c;
     frame := frame c; fixed := fixed c; scale_init := sc;
     keep_zoom := keep_zoom c; position := position c; scale := scale c;
     animation_enable := animation_enable c;
     slideshow_enable := slideshow_enable c;
     slideshow_time := slideshow_time c |}.

Definition set_scale_factor (s : float64) (c : viewer) : viewer :=
  {| img_x := img_x c; img_y := img_y c; img_w := img_w c; img_h := img_h c;
     frame := frame c; fixed := fixed c; scale_init := scale_init c;
     keep_zoom := keep_zoom c; position := position c; scale := s;
     animation_enable := animation_enable c;
     slideshow_enable := slideshow_enable c;
     slideshow_time := slideshow_time c |}.

Definition set_keep_zoom (b : bool) (c : viewer) : viewer :=
  {| img_x := img_x c; img_y := img_y c; img_w := img_w c; img_h := img_h c;
     frame := frame c; fixed := fixed c; scale_init := scale_init c;
     keep_zoom := b; position := position c; scale := scale c;
     animation_enable := animation_enable c;
     slideshow_enable := slideshow_enable c;
     slideshow_time := slideshow_time c |}.

Definition set_animation_enable (b : bool) (c : viewer) : viewer :=
  {| img_x := img_x c; img_y := img_y c; img_w := img_w c; img_h := img_h c;
     frame := frame c; fixed := fixed c; scale_init := scale_init c;
     keep_zoom := keep_zoom c; position := position c; scale := scale c;
     animation_enable := b;
     slideshow_enable := slideshow_enable c;
     slideshow_time := slideshow_time c |}.

Definition set_slideshow_enable (b : bool) (c : viewer) : viewer :=
  {| img_x := img_x c; img_y := img_y c; img_w := img_w c; img_h := img_h c;
     frame := frame c; fixed := fixed c; scale_init := scale_init c;
     keep_zoom := keep_zoom c; position := position c; scale := scale c;
     animation_enable := animation_enable c;
     slideshow_enable := b;
     slideshow_time := slideshow_time c |}.

(** The pixmap of the current frame: [&fetcher_current()->frames[ctx.frame].pm]. *)
Definition current_pm (w : world) : pixmap :=
  pm (frame_at (current w) (frame (ctx w))).

(* ================================================================== *)
(** ** Position fix-up *)

(** The scaled size of the current frame, [ctx.scale * pm->width] stored
    in a [ssize_t]. *)
Definition scaled_dim (s : float64) (d : Z) : Z :=
  double_to_ssize (dmul s (Z_to_double d)).

(** [fixup_position]. *)
Definition fixup_position (force : bool) (w : world) : world :=
  let c := ctx w in
  let wnd_width := ssize_wrap (ui_width w) in
  let wnd_height := ssize_wrap (ui_height w) in
  let img_width := scaled_dim (scale c) (width (current_pm w)) in
  let img_height := scaled_dim (scale c) (height (current_pm w)) in
  let x :=
    if force || (fixed c && (img_width <=? wnd_width)) then
      match position c with
      | position_top => ssub (sdiv wnd_width 2) (sdiv img_width 2)
      | position_center => ssub (sdiv wnd_width 2) (sdiv img_width 2)
      | position_bottom => ssub (sdiv wnd_width 2) (sdiv img_width 2)
      | position_left => 0
      | position_right => ssub wnd_width img_width
      | position_top_left => 0
      | position_top_right => ssub wnd_width img_width
      | position_bottom_left => 0
      | position_bottom_right => ssub wnd_width img_width
      end
    else img_x c in
  let y :=
    if force || (fixed c && (img_height <=? wnd_height)) then
      match position c with
      | position_top => 0
      | position_center => ssub (sdiv wnd_height 2) (sdiv img_height 2)
      | position_bottom => ssub wnd_height img_height
      | position_left => ssub (sdiv wnd_height 2) (sdiv img_height 2)
      | position_right => ssub (sdiv wnd_height 2) (sdiv img_height 2)
      | position_top_left => 0
      | position_top_right => 0
      | position_bottom_left => ssub wnd_height img_height
      | position_bottom_right => ssub wnd_height img_height
      end
    else img_y c in
  (* bind to window border *)
  let x := if fixed c && ((0 <? x) && (wnd_width <? sadd x img_width)) then 0 else x in
  let y := if fixed c && ((0 <? y) && (wnd_height <? sadd y img_height)) then 0 else y in
  let x := if fixed c && ((x <? 0) && (sadd x img_width <? wnd_width))
           then ssub wnd_width img_width else x in
  let y := if fixed c && ((y <? 0) && (sadd y img_height <? wnd_height))
           then ssub wnd_height img_height else y in
  (* don't let canvas to be far out of window *)
  let x := if sadd x img_width <? 0 then sneg img_width else x in
  let x := if wnd_width <? x then wnd_width else x in
  let y := if sadd y img_height <? 0 then sneg img_height else y in
  let y := if wnd_height <? y then wnd_height else y in
  set_ctx (set_pos x y c) w.

(** [on_drag]. *)
Definition on_drag (dx dy : Z) (w : world) : world :=
  let c := ctx w in
  let old_x := img_x c in
  let old_y := img_y c in
  let x := sadd old_x dx in
  let y := sadd old_y dy in
  let w := set_ctx (set_pos x y c) w in
  if negb (x =? old_x) || negb (y =? old_y)
  then app_redraw (fixup_position false w)
  else w.

(* ================================================================== *)
(** ** Scale policies *)

(** Modelled from the spec: [str_index] is declared outside viewer.c; it
    returns the position of a name in a table of names, or -1 when the
    name is not in the table (the action grammar accepts "a scale-policy
    name"). *)
Fixpoint str_index_from (i : Z) (names : list string) (value : string) : Z :=
  match names with
  | [] => -1
  | n :: rest => if String.eqb n value then i else str_index_from (i + 1) rest value
  end.

Definition str_index (names : list string) (value : string) : Z :=
  str_index_from 0 names value.

(** [params && *params]. *)
Definition has_text (params : option string) : option string :=
  match params with
  | Some EmptyString => None
  | Some p => Some p
  | None => None
  end.

(** [set_scale]. *)
Definition set_scale (sc : fixed_scale) (w : world) : world :=
  let p := current_pm w in
  let wnd_width := size_wrap (ui_width w) in
  let wnd_height := size_wrap (ui_height w) in
  let scale_w : float32 :=
    d2f (ddiv d_1 (f2d (fdiv (Z_to_float (width p)) (Z_to_float wnd_width)))) in
  let scale_h : float32 :=
    d2f (ddiv d_1 (f2d (fdiv (Z_to_float (height p)) (Z_to_float wnd_height)))) in
  let s : float64 :=
    match sc with
    | scale_fit_optimal =>
        let s := f2d (fmin scale_w scale_h) in
        if fgt s d_1 then d_1 else s
    | scale_fit_window => f2d (fmin scale_w scale_h)
    | scale_fit_width => f2d scale_w
    | scale_fit_height => f2d scale_h
    | scale_fill_window => f2d (fmax scale_w scale_h)
    | scale_real_size => d_1
    end in
  let w := set_ctx (set_scale_factor s (ctx w)) w in
  let w := fixup_position true w in
  info_update info_scale (fmt_percent (dmul (scale (ctx w)) (Z_to_double 100))) w.

(** [scale_image]. *)
Definition scale_image (params : option string) (w : world) : world :=
  let next : option fixed_scale :=
    match has_text params with
    | Some p =>
        let fs := str_index scale_names p in
        if 0 <=? fs then Some (fixed_scale_of_index fs) else None
    | None =>
        (* toggle to the next scale *)
        let i := fixed_scale_index (scale_init (ctx w)) + 1 in
        Some (fixed_scale_of_index (if 6 <=? i then 0 else i))
    end in
  match next with
  | None =>
      match params with
      | Some p => report (invalid_scale_operation p) w
      | None => w
      end
  | Some sc =>
      let w := set_ctx (set_scale_init sc (ctx w)) w in
      let w := info_update info_status (fmt_scale_name (scale_init (ctx w))) w in
      let w := set_scale (scale_init (ctx w)) w in
      app_redraw w
  end.

(** [toggle_keep_zoom]. *)
Definition toggle_keep_zoom (w : world) : world :=
  let w := set_ctx (set_keep_zoom (negb (keep_zoom (ctx w))) (ctx w)) w in
  let w := info_update info_status
             (fmt_status (if keep_zoom (ctx w) then "Keep zoom ON" else "Keep zoom OFF")) w in
  app_redraw w.

(* ================================================================== *)
(** ** Zoom *)

(** [(double)ui_get_width() / 2]. *)
Definition wnd_half (extent : Z) : float64 :=
  ddiv (Z_to_double (size_wrap extent)) d_2.

(** [center_x], [center_y] of [zoom_image]: the image-space point under
    the window center, [wnd_half / ctx.scale - ctx.img / ctx.scale]. *)
Definition center_x (w : world) : float64 :=
  dsub (ddiv (wnd_half (ui_width w)) (scale (ctx w)))
       (ddiv (Z_to_double (img_x (ctx w))) (scale (ctx w))).

Definition center_y (w : world) : float64 :=
  dsub (ddiv (wnd_half (ui_height w)) (scale (ctx w)))
       (ddiv (Z_to_double (img_y (ctx w))) (scale (ctx w))).

(** [step] of [zoom_image]: [(ctx.scale / 100) * percent], stored in a [float]. *)
Definition zoom_step (percent : Z) (s : float64) : float32 :=
  d2f (dmul (ddiv s (Z_to_double 100)) (Z_to_double percent)).

(** [scale_min] of [zoom_image]: the larger of [MIN_SCALE / width] and
    [MIN_SCALE / height], the scale at which the smaller side is
    [MIN_SCALE] pixels. *)
Definition scale_min (p : pixmap) : float32 :=
  let scale_w : float32 := fdiv (Z_to_float MIN_SCALE) (Z_to_float (width p)) in
  let scale_h : float32 := fdiv (Z_to_float MIN_SCALE) (Z_to_float (height p)) in
  fmax scale_w scale_h.

(** The scale update of [zoom_image] for a percentage. *)
Definition zoom_scale (percent : Z) (p : pixmap) (s : float64) : float64 :=
  let step := zoom_step percent s in
  if 0 <? percent then
    let s := dadd s (f2d step) in
    if fgt s MAX_SCALE then MAX_SCALE else s
  else
    let s := dadd s (f2d step) in
    if flt s (f2d (scale_min p)) then f2d (scale_min p) else s.

Section WithParser.

(** [str_to_num(text, 0, &value, 0)] is declared outside viewer.c: it
    either fails or yields the number the text denotes. *)
Variable str_to_num : string -> option Z.

(** [move_image]. *)
Definition move_image (horizontal positive : bool) (params : option string)
    (w : world) : world :=
  let old_x := img_x (ctx w) in
  let old_y := img_y (ctx w) in
  let '(step, w) :=
    match params with
    | Some p =>
        match str_to_num p with
        | Some val =>
            if (0 <? val) && (val <=? 1000) then (val, w)
            else (10, report (invalid_move_step p) w)
        | None => (10, report (invalid_move_step p) w)
        end
    | None => (10, w)
    end in
  let step := if positive then step else sneg step in
  let c := ctx w in
  let c :=
    if horizontal
    then set_pos (sadd (img_x c) (smul (size_wrap (ui_width w) / 100) step)) (img_y c) c
    else set_pos (img_x c) (sadd (img_y c) (smul (size_wrap (ui_height w) / 100) step)) c in
  let w := fixup_position false (set_ctx c w) in
  if negb (img_x (ctx w) =? old_x) || negb (img_y (ctx w) =? old_y)
  then app_redraw w
  else w.

(** The percentage branch of [zoom_image]: the new scale and position,
    before the closing [fixup_position(false)]. *)
Definition zoom_percent (percent : Z) (w : world) : world :=
  let c := ctx w in
  let wnd_half_w := wnd_half (ui_width w) in
  let wnd_half_h := wnd_half (ui_height w) in
  let cx := center_x w in
  let cy := center_y w in
  let s := zoom_scale percent (current_pm w) (scale c) in
  (* restore center *)
  let x := double_to_ssize (dsub wnd_half_w (dmul cx s)) in
  let y := double_to_ssize (dsub wnd_half_h (dmul cy s)) in
  set_ctx (set_pos x y (set_scale_factor s c)) w.

(** [zoom_image]. *)
Definition zoom_image (params : option string) (w : world) : world :=
  match has_text params with
  | None => w
  | Some p =>
      let fs := str_index scale_names p in
      let w :=
        if 0 <=? fs then set_scale (fixed_scale_of_index fs) w
        else
          match str_to_num p with
          | Some percent =>
              if negb (percent =? 0) && (-1000 <? percent) && (percent <? 1000)
              then fixup_position false (zoom_percent percent w)
              else report (invalid_zoom_operation p) w
          | None => report (invalid_zoom_operation p) w
          end in
      let w := info_update info_scale
                 (fmt_percent (dmul (scale (ctx w)) (Z_to_double 100))) w in
      app_redraw w
  end.

End WithParser.

(* ================================================================== *)
(** ** Timers and frames *)

(** [animation_ctl]. *)
Definition animation_ctl (enable : bool) (w : world) : world :=
  let img := current w in
  let d := duration (frame_at img (frame (ctx w))) in
  let enable := if enable then (1 <? num_frames img) && negb (d =? 0) else false in
  let ts :=
    if enable
    then {| tv_sec := d / 1000; tv_nsec := (d mod 1000) * 1000000 |}
    else timer_disarmed in
  let w := set_ctx (set_animation_enable enable (ctx w)) w in
  set_animation_timer ts w.

(** [slideshow_ctl]. *)
Definition slideshow_ctl (enable : bool) (w : world) : world :=
  let w := set_ctx (set_slideshow_enable enable (ctx w)) w in
  let ts :=
    if enable
    then {| tv_sec := slideshow_time (ctx w); tv_nsec := 0 |}
    else timer_disarmed in
  set_slideshow_timer ts w.

(** [next_frame]. *)
Definition next_frame (forward : bool) (w : world) : world :=
  let img := current w in
  let index :=
    if forward then
      let i := size_wrap (frame (ctx w) + 1) in
      if num_frames img <=? i then 0 else i
    else
      if frame (ctx w) =? 0 then size_wrap (num_frames img - 1)
      else size_wrap (frame (ctx w) - 1) in
  if negb (index =? frame (ctx w)) then
    let w := set_ctx (set_frame index (ctx w)) w in
    let w := info_update info_frame (fmt_of (size_wrap (frame (ctx w) + 1)) (num_frames img)) w in
    let w := info_update info_image_size
               (fmt_size (width (current_pm w)) (height (current_pm w))) w in
    app_redraw w
  else w.

(** [on_animation_timer]. *)
Definition on_animation_timer (w : world) : world :=
  animation_ctl true (next_frame true w).

(** [reset_state]; [total_img] is the value of [image_list_size()]. *)
Definition reset_state (total_img : Z) (w : world) : world :=
  let img := current w in
  let w := set_ctx (set_frame 0 (ctx w)) w in
  let w :=
    if negb (keep_zoom (ctx w)) || feq (scale (ctx w)) d_0 then
      set_scale (scale_init (ctx w)) w
    else
      let c := ctx w in
      let pm0 := pm (frame_at img 0) in
      let diff_w := ssub (img_w c) (width pm0) in
      let diff_h := ssub (img_h c) (height pm0) in
      let x := double_to_ssize
                 (dadd (Z_to_double (img_x c))
                       (ddiv (dfloor (dmul (scale c) (Z_to_double diff_w))) d_2)) in
      let y := double_to_ssize
                 (dadd (Z_to_double (img_y c))
                       (ddiv (dfloor (dmul (scale c) (Z_to_double diff_h))) d_2)) in
      fixup_position true (set_ctx (set_pos x y c) w) in
  let pm0 := pm (frame_at img 0) in
  let w := set_ctx (set_size (width pm0) (height pm0) (ctx w)) w in
  let w := ui_set_title (name img) w in
  let w := animation_ctl true w in
  let w := slideshow_ctl (slideshow_enable (ctx w)) w in
  (* info_reset(img) rewrites the per-image overlay fields *)
  let w := info_update info_scale
             (fmt_percent (dmul (scale (ctx w)) (Z_to_double 100))) w in
  let w :=
    if negb (total_img =? 0)
    then info_update info_index (fmt_of (size_wrap (index img + 1)) total_img) w
    else w in
  let w := ui_set_content_type_animated (animation_enable (ctx w)) w in
  app_redraw w.

(* ================================================================== *)
(** ** Navigation *)

(** The navigation members of [enum action_type]. *)
Inductive action_type : Set :=
| action_first_file
| action_last_file
| action_prev_dir
| action_next_dir
| action_prev_file
| action_next_file
| action_rand_file
| action_skip_file.

Section Navigation.

(** The fetcher and the image list are collaborators: [E] is their
    state, the queries below are their interface as viewer.c uses it. *)
Variable E : Type.
Variable image_list_size : E -> Z.
Variable image_list_first : E -> Z.
Variable image_list_last : E -> Z.
Variable image_list_prev_dir : Z -> E -> Z.
Variable image_list_next_dir : Z -> E -> Z.
Variable image_list_prev_file : Z -> E -> Z.
Variable image_list_next_file : Z -> E -> Z.
Variable image_list_rand_file : Z -> E -> Z.
(** [image_list_skip] also drops the skipped entry from the list. *)
Variable image_list_skip : Z -> E -> Z * E.
(** [fetcher_open]: on success the opened image becomes the current one. *)
Variable fetcher_open : Z -> E -> option image * E.

(** One pass through the [switch] of [next_image]: the candidate index
    and the direction of the next pass. *)
Definition next_candidate (direction : action_type) (index : Z) (e : E)
    : Z * action_type :=
  match direction with
  | action_first_file => (image_list_first e, action_next_file)
  | action_last_file => (image_list_last e, action_prev_file)
  | action_prev_dir => (image_list_prev_dir index e, direction)
  | action_next_dir => (image_list_next_dir index e, direction)
  | action_prev_file => (image_list_prev_file index e, direction)
  | action_next_file => (image_list_next_file index e, direction)
  | action_rand_file => (image_list_rand_file index e, direction)
  | action_skip_file => (index, direction)
  end.

(** The [do ... while] loop of [next_image]; [None] when the passes
    allowed by [fuel] are used up.  The result is the final index, the
    current image and the collaborators' state. *)
Fixpoint next_image_loop (fuel : nat) (direction : action_type) (index : Z)
    (cur : image) (e : E) : option (Z * image * E) :=
  match fuel with
  | O => None
  | S fuel =>
      let '(index, direction) := next_candidate direction index e in
      if index =? IMGLIST_INVALID then Some (index, cur, e)
      else
        match fetcher_open index e with
        | (Some img, e) => Some (index, img, e)
        | (None, e) => next_image_loop fuel direction index cur e
        end
  end.

(** [next_image]: the loop, then [reset_state] on success. *)
Definition next_image (fuel : nat) (direction : action_type) (w : world) (e : E)
    : option (bool * world * E) :=
  match next_image_loop fuel direction (index (current w)) (current w) e with
  | None => None
  | Some (i, img, e) =>
      if i =? IMGLIST_INVALID then Some (false, set_current img w, e)
      else Some (true, reset_state (image_list_size e) (set_current img w), e)
  end.

(** The [while] loop of [skip_image]: entered with the first candidate
    already taken from [image_list_skip]. *)
Fixpoint skip_image_loop (fuel : nat) (index : Z) (cur : image) (e : E)
    : option (Z * image * E) :=
  match fuel with
  | O => None
  | S fuel =>
      if index =? IMGLIST_INVALID then Some (index, cur, e)
      else
        match fetcher_open index e with
        | (Some img, e) => Some (index, img, e)
        | (None, e) =>
            let '(index, e) := image_list_skip index e in
            skip_image_loop fuel index cur e
        end
  end.

(** [skip_image]. *)
Definition skip_image (fuel : nat) (w : world) (e : E) : option (bool * world * E) :=
  let '(i, e) := image_list_skip (index (current w)) e in
  match skip_image_loop fuel i (current w) e with
  | None => None
  | Some (i, img, e) => Some (negb (i =? IMGLIST_INVALID), set_current img w, e)
  end.

(** [on_slideshow_timer]. *)
Definition on_slideshow_timer (fuel : nat) (w : world) (e : E) : option (world * E) :=
  match next_image fuel action_next_file w e with
  | None => None
  | Some (ok, w, e) => Some (slideshow_ctl ok w, e)
  end.

(** The retry policy in the spec's words: try the candidate; when it
    fails to open, take the next candidate from the continuation [cont]
    of the direction's family; stop on the first success or on the
    exhaustion sentinel. *)
Fixpoint retry_loop (cont : Z -> E -> Z * E) (fuel : nat) (index : Z)
    (cur : image) (e : E) : option (Z * image * E) :=
  match fuel with
  | O => None
  | S fuel =>
      if index =? IMGLIST_INVALID then Some (index, cur, e)
      else
        match fetcher_open index e with
        | (Some img, e) => Some (index, img, e)
        | (None, e) =>
            let '(index, e) := cont index e in
            retry_loop cont fuel index cur e
        end
  end.

(** The first [n] candidates along [cont] are all list entries that
    fail to open. *)
Fixpoint all_fail (cont : Z -> E -> Z * E) (n : nat) (index : Z) (e : E) : bool :=
  match n with
  | O => true
  | S n =>
      if index =? IMGLIST_INVALID then false
      else
        match fetcher_open index e with
        | (Some _, _) => false
        | (None, e) =>
            let '(index, e) := cont index e in
            all_fail cont n index e
        end
  end.

(** Forward and backward continuations. *)
Definition forward (index : Z) (e : E) : Z * E := (image_list_next_file index e, e).
Definition backward (index : Z) (e : E) : Z * E := (image_list_prev_file index e, e).

End Navigation.

(* ================================================================== *)
(** ** Vocabulary of the specification *)

(** The three per-axis placement rules of an anchor. *)
Inductive axis_rule : Set := axis_start | axis_end | axis_center.

Definition horizontal_rule (p : enum_position) : axis_rule :=
  match p with
  | position_left | position_top_left | position_bottom_left => axis_start
  | position_right | position_top_right | position_bottom_right => axis_end
  | position_top | position_center | position_bottom => axis_center
  end.

Definition vertical_rule (p : enum_position) : axis_rule :=
  match p with
  | position_top | position_top_left | position_top_right => axis_start
  | position_bottom | position_bottom_left | position_bottom_right => axis_end
  | position_left | position_center | position_right => axis_center
  end.

(** Coordinate [x] obeys rule [r] for a window extent [W] and a scaled
    image extent [I].  Centered: the two margins [x] and [W - I - x]
    differ by at most one pixel. *)
Definition axis_placed (r : axis_rule) (W I x : Z) : Prop :=
  match r with
  | axis_start => x = 0
  | axis_end => x = W - I
  | axis_center => x = W / 2 - I / 2 /\ Z.abs ((W - I - x) - x) <= 1
  end.

(** Sign of a floating-point number. *)
Definition sign_of (x : spec_float) : bool :=
  match x with
  | S754_zero s | S754_infinity s | S754_finite s _ _ => s
  | S754_nan => false
  end.

(** [x] is a normal number (a full mantissa of [prec] digits) of sign [s]
    whose magnitude, the [k] with [2^(k-1) <= |x| < 2^k], lies in
    [lo, hi]. *)
Definition nrm (prec : Z) (s : bool) (lo hi : Z) (x : spec_float) : Prop :=
  exists m e,
    x = S754_finite s m e /\ Zpos (digits2_pos m) = prec /\ lo <= prec + e <= hi.

(** 2^-66 as a double: with a non-empty window and 64-bit sizes, no
    scale policy and no zoom goes below it. *)
Definition SCALE_FLOOR : float64 := S754_finite false 4503599627370496 (-118).

(** 0.5 as a double. *)
Definition d_half : float64 := S754_finite false 4503599627370496 (-53).

(** A scale a session can be in: a double between 2^-66 and [MAX_SCALE]. *)
Definition scale_in_range (s : float64) : Prop :=
  valid_binary dprec demax s = true /\
  fle SCALE_FLOOR s = true /\ fle s MAX_SCALE = true.

(** 2^68 as a double: with 64-bit sizes no scale policy reaches it. *)
Definition SCALE_TOP : float64 := S754_finite false 4503599627370496 16.

(** A scale the viewer can hold: a double from 2^-66 up to, but not
    including, 2^68.  The uncapped policies leave [scale_in_range]
    without leaving this. *)
Definition scale_reachable (s : float64) : Prop :=
  valid_binary dprec demax s = true /\
  fle SCALE_FLOOR s = true /\ flt s SCALE_TOP = true.

(** [scale_w] and [scale_h] of [set_scale]: the window extent over the
    frame extent, [1.0 / ((float)frame / window)] stored in a [float]. *)
Definition fit_ratio (frame_extent wnd_extent : Z) : float32 :=
  d2f (ddiv d_1 (f2d (fdiv (Z_to_float frame_extent) (Z_to_float wnd_extent)))).

(** The [switch] of [set_scale] on the two ratios. *)
Definition policy_scale (sc : fixed_scale) (scale_w scale_h : float32) : float64 :=
  match sc with
  | scale_fit_optimal =>
      let s := f2d (fmin scale_w scale_h) in
      if fgt s d_1 then d_1 else s
  | scale_fit_window => f2d (fmin scale_w scale_h)
  | scale_fit_width => f2d scale_w
  | scale_fit_height => f2d scale_h
  | scale_fill_window => f2d (fmax scale_w scale_h)
  | scale_real_size => d_1
  end.

(** The values a ratio of two sizes can take: zero (empty window) or a
    positive normal [float]. *)
Definition ratio32 (x : float32) : Prop :=
  x = S754_zero false \/ nrm fprec false (-65) 68 x.

(** The parameter text [p] asks [zoom_image] for a zoom by [percent]: it
    is not empty, it is not the name of a scale policy, and [str_to_num]
    reads it as [percent]. *)
Definition denotes_percent (str_to_num : string -> option Z) (p : string)
    (percent : Z) : Prop :=
  has_text (Some p) = Some p /\
  str_index scale_names p < 0 /\
  str_to_num p = Some percent.

(** A frame as decoders deliver it: both sides positive [size_t] values. *)
Definition frame_size_ok (p : pixmap) : Prop :=
  0 < width p < SIZE_MOD /\ 0 < height p < SIZE_MOD.

(** The anchor switch of [fixup_position] on one axis. *)
Definition axis_coordinate (r : axis_rule) (W I : Z) : Z :=
  match r with
  | axis_start => 0
  | axis_end => ssub W I
  | axis_center => ssub (sdiv W 2) (sdiv I 2)
  end.

(** The border binding and the off-window clamp of [fixup_position] on
    one axis. *)
Definition bind_and_clamp (fx : bool) (W I x : Z) : Z :=
  let x := if fx && ((0 <? x) && (W <? sadd x I)) then 0 else x in
  let x := if fx && ((x <? 0) && (sadd x I <? W)) then ssub W I else x in
  let x := if sadd x I <? 0 then sneg I else x in
  if W <? x then W else x.

(** The successor in the ordered enumeration of scale policies. *)
Definition next_policy (sc : fixed_scale) : fixed_scale :=
  match sc with
  | scale_fit_optimal => scale_fit_window
  | scale_fit_window => scale_fit_width
  | scale_fit_width => scale_fit_height
  | scale_fit_height => scale_fill_window
  | scale_fill_window => scale_real_size
  | scale_real_size => scale_fit_optimal
  end.

(** Validity of the numeric action parameters (action parameter grammar). *)
Definition valid_move_step (v : option Z) : bool :=
  match v with
  | Some n => (1 <=? n) && (n <=? 1000)
  | None => false
  end.

Definition valid_zoom_percent (v : option Z) : bool :=
  match v with
  | Some n => negb (n =? 0) && (-1000 <? n) && (n <? 1000)
  | None => false
  end.

(** Modelled from the spec: a reading of [str_to_num] for decimal text
    (an optional sign, then digits, nothing else), used to run the
    operations on concrete parameter strings. *)
Fixpoint digits_value (acc : Z) (s : string) : option Z :=
  match s with
  | EmptyString => Some acc
  | String c rest =>
      let n := Z.of_nat (nat_of_ascii c) - 48 in
      if (0 <=? n) && (n <=? 9) then digits_value (10 * acc + n) rest else None
  end.

Definition decimal_str_to_num (s : string) : option Z :=
  match s with
  | EmptyString => None
  | String "-"%char EmptyString => None
  | String "+"%char EmptyString => None
  | String "-"%char rest => option_map Z.opp (digits_value 0 rest)
  | String "+"%char rest => digits_value 0 rest
  | _ => digits_value 0 s
  end.

(** Concrete states for running the operations. *)
Definition still_image (w h : Z) : image :=
  {| frames := [ {| pm := {| width := w; height := h |}; duration := 0 |} ];
     index := 0; name := "a"; alpha := false |}.

Definition viewer_at (x y : Z) (fx : bool) (p : enum_position) (s : float64) : viewer :=
  {| img_x := x; img_y := y; img_w := 0; img_h := 0; frame := 0; fixed := fx;
     scale_init := scale_fit_optimal; keep_zoom := false; position := p;
     scale := s; animation_enable := false; slideshow_enable := false;
     slideshow_time := 1 |}.

Definition world_of (c : viewer) (ww wh : Z) (img : image) : world :=
  {| ctx := c; ui_width := ww; ui_height := wh; current := img; info := [];
     redraws := 0; stderr := []; animation_timer := timer_disarmed;
     slideshow_timer := timer_disarmed; title := ""; content_animated := false |}.

Section SkipContract.

Variable E : Type.
Variable image_list_next_file : Z -> E -> Z.
Variable image_list_skip : Z -> E -> Z * E.

(** Modelled from the spec: [image_list_skip] is declared outside
    viewer.c.  The spec has "skip current" query the image list for a
    candidate and go forward: the candidate it returns is the one
    next-file returns. *)
Definition skip_goes_forward : Prop :=
  forall (i : Z) (e : E), fst (image_list_skip i e) = image_list_next_file i e.

(** The forward continuation of skipping: the next file, in the list
    from which [image_list_skip] has dropped the entry. *)
Definition forward_dropping (index : Z) (e : E) : Z * E :=
  (image_list_next_file index e, snd (image_list_skip index e)).

End SkipContract.

(* ================================================================== *)
(** ** Vocabulary of the further properties *)

(** The step, in percent, [move_image] works with: the number
    [str_to_num] reads when it is between 1 and 1000, else the default 10. *)
Definition move_step (str_to_num : string -> option Z) (params : option string) : Z :=
  match params with
  | Some p =>
      match str_to_num p with
      | Some n => if valid_move_step (Some n) then n else 10
      | None => 10
      end
  | None => 10
  end.

(** The displacement of [move_image] along an axis of window extent
    [extent]: whole hundredths of the extent times the signed step. *)
Definition move_shift (extent step : Z) (positive : bool) : Z :=
  (extent / 100) * (if positive then step else - step).

(** The frame index [next_frame] moves to: one step forward or backward,
    around the end of the frame array. *)
Definition frame_step (forward : bool) (n f : Z) : Z :=
  (if forward then f + 1 else f - 1) mod n.

(** The value [animation_ctl] arms the timer with, in nanoseconds. *)
Definition timer_ns (ts : itimerspec) : Z := tv_sec ts * 1000000000 + tv_nsec ts.

(** A concrete animation: 8x8 frames with the given durations. *)
Definition animation_of (durations : list Z) : image :=
  {| frames := map (fun d => {| pm := {| width := 8; height := 8 |}; duration := d |})
                   durations;
     index := 0; name := "a"; alpha := false |}.

(** [scale_names[sc]]: the name of a scale policy. *)
Definition scale_name (sc : fixed_scale) : string :=
  nth (Z.to_nat (fixed_scale_index sc)) scale_names EmptyString.

(* ================================================================== *)
(** ** Event handlers and actions built from the operations *)

(** [on_resize]; [total_img] is the value of [image_list_size()]. *)
Definition on_resize (total_img : Z) (w : world) : world :=
  reset_state total_img (fixup_position false w).

(** [apply_action], cases [action_prev_frame] and [action_next_frame]. *)
Definition apply_frame_action (forward : bool) (w : world) : world :=
  next_frame forward (animation_ctl false w).

Section NavigationActions.

Variable E : Type.
Variable image_list_size : E -> Z.
Variable image_list_first : E -> Z.
Variable image_list_last : E -> Z.
Variable image_list_prev_dir : Z -> E -> Z.
Variable image_list_next_dir : Z -> E -> Z.
Variable image_list_prev_file : Z -> E -> Z.
Variable image_list_next_file : Z -> E -> Z.
Variable image_list_rand_file : Z -> E -> Z.
Variable fetcher_open : Z -> E -> option image * E.

(** [apply_action], case [action_slideshow]:
    [slideshow_ctl(!ctx.slideshow_enable && next_image(action_next_file))];
    the conjunction calls [next_image] only when the slide show is off. *)
Definition apply_slideshow_action (fuel : nat) (w : world) (e : E)
    : option (world * E) :=
  if negb (slideshow_enable (ctx w)) then
    match next_image E image_list_size image_list_first image_list_last
            image_list_prev_dir image_list_next_dir image_list_prev_file
            image_list_next_file image_list_rand_file fetcher_open
            fuel action_next_file w e with
    | None => None
    | Some (ok, w, e) => Some (slideshow_ctl ok w, e)
    end
  else Some (slideshow_ctl false w, e).

End NavigationActions.

(** A concrete image list for running navigation: the entries 0, 1 and 2
    of one directory, of which entry 1 does not open; the list keeps no
    state. *)
Definition toy_entry (i : Z) : image :=
  {| frames := [ {| pm := {| width := 8; height := 8 |}; duration := 0 |} ];
     index := i; name := "a"; alpha := false |}.

Definition toy_size (_ : unit) : Z := 3.
Definition toy_first (_ : unit) : Z := 0.
Definition toy_last (_ : unit) : Z := 2.
Definition toy_next (i : Z) (_ : unit) : Z := if i <? 2 then i + 1 else IMGLIST_INVALID.
Definition toy_prev (i : Z) (_ : unit) : Z := if 0 <? i then i - 1 else IMGLIST_INVALID.
Definition toy_skip (i : Z) (e : unit) : Z * unit := (toy_next i e, e).
Definition toy_open (i : Z) (e : unit) : option image * unit :=
  (if i =? 1 then None else Some (toy_entry i), e).

Definition toy_next_image (fuel : nat) (direction : action_type) (w : world)
    : option (bool * world * unit) :=
  next_image unit toy_size toy_first toy_last toy_prev toy_next toy_prev toy_next
    toy_next toy_open fuel direction w tt.

Definition toy_skip_image (fuel : nat) (w : world) : option (bool * world * unit) :=
  skip_image unit toy_skip toy_open fuel w tt.

Definition toy_on_slideshow_timer (fuel : nat) (w : world) : option (world * unit) :=
  on_slideshow_timer unit toy_size toy_first toy_last toy_prev toy_next toy_prev
    toy_next toy_next toy_open fuel w tt.

Definition toy_slideshow_action (fuel : nat) (w : world) : option (world * unit) :=
  apply_slideshow_action unit toy_size toy_first toy_last toy_prev toy_next toy_prev
    toy_next toy_next toy_open fuel w tt.


(* ================================================================== *)
(** ** Exact values and the pivot of a zoom *)

(** The rational number a floating-point datum stands for; zeros,
    infinities and NaN are read as 0. *)
Definition Fval (x : spec_float) : Q :=
  match x with
  | S754_finite s m e => (inject_Z (if s then Zneg m else Zpos m) * 2 ^ e)%Q
  | _ => 0%Q
  end.

(** Sign of a value. *)
Definition sgnQ (s : bool) : Q := if s then (-1)%Q else 1%Q.

(** A zero, or a normal number (a full mantissa of [prec] digits) whose
    magnitude is within [k] binades of 1. *)
Definition fin (prec k : Z) (x : spec_float) : Prop :=
  match x with
  | S754_zero _ => True
  | S754_finite _ m e => Zpos (digits2_pos m) = prec /\ - k <= prec + e <= k
  | _ => False
  end.

(** The relative error of one [double] operation is at most [u53]. *)
Definition u53 : Q := (2 ^ (-52))%Q.

(** [v] approximates [T], itself bounded by [B], within [c] units of
    [u53 * B]. *)
Definition approx (c B v T : Q) : Prop :=
  (Qabs (v - T) <= c * u53 * B)%Q /\ (Qabs T <= B)%Q.

(** The window center on one axis, in window pixels. *)
Definition window_center (extent : Z) : Q := (inject_Z (size_wrap extent) / 2)%Q.

(** The image-space point that lies under the window center: the image
    is drawn from [img_x] at scale [scale], so an image point [p] is
    shown at [img_x + p * scale]. *)
Definition pivot_x (w : world) : Q :=
  ((window_center (ui_width w) - inject_Z (img_x (ctx w))) / Fval (scale (ctx w)))%Q.

Definition pivot_y (w : world) : Q :=
  ((window_center (ui_height w) - inject_Z (img_y (ctx w))) / Fval (scale (ctx w)))%Q.

(** The window coordinate at which the image point [p] is shown. *)
Definition shown_x (w : world) (p : Q) : Q :=
  (inject_Z (img_x (ctx w)) + p * Fval (scale (ctx w)))%Q.

Definition shown_y (w : world) (p : Q) : Q :=
  (inject_Z (img_y (ctx w)) + p * Fval (scale (ctx w)))%Q.

(** The tolerance of a zoom from scale [s] to [s'] on an axis of window
    size [extent] with the image at [x], in window pixels: one pixel for
    the truncation of the position to an integer, and 2^-48 of the
    magnitudes that enter the floating-point computation. *)
Definition pivot_tolerance (extent x : Z) (s s' : float64) : Q :=
  (1 + 2 ^ (-48) * (window_center extent +
                    Fval s' / Fval s * (window_center extent + Qabs (inject_Z x))))%Q.
(* ================================================================== *)
(** * Machine integers in range *)

Lemma ssize_wrap_id z : SSIZE_MIN <= z <= SSIZE_MAX -> ssize_wrap z = z.
Proof.
  unfold ssize_wrap, SSIZE_MIN, SSIZE_MAX, SIZE_MOD. intros H.
  rewrite Z.mod_small; lia.
Qed.

Lemma sdiv_2_nonneg z : 0 <= z <= SSIZE_MAX -> sdiv z 2 = z / 2.
Proof.
  intros H. unfold sdiv. rewrite Z.quot_div_nonneg by lia.
  apply ssize_wrap_id. unfold SSIZE_MIN, SSIZE_MAX in *.
  assert (0 <= z / 2 <= z) by (split; [apply Z.div_pos | apply Z.div_le_upper_bound]; lia).
  lia.
Qed.


(* ================================================================== *)
(** * Forced position fix-up *)

(** The three anchor coordinates survive border binding and clamping. *)
Lemma bind_and_clamp_fixed fx W I x :
  0 <= W <= SSIZE_MAX -> 0 <= I <= SSIZE_MAX ->
  x = 0 \/ x = W - I \/ x = W / 2 - I / 2 ->
  bind_and_clamp fx W I x = x.
Proof.
  intros HW HI Hx. unfold bind_and_clamp, sadd, ssub, sneg. cbv zeta.
  unfold SSIZE_MAX in *.
  assert (HW2 : 0 <= W / 2 /\ 2 * (W / 2) <= W <= 2 * (W / 2) + 1)
    by (pose proof (Z.div_mod W 2); pose proof (Z.mod_pos_bound W 2); lia).
  assert (HI2 : 0 <= I / 2 /\ 2 * (I / 2) <= I <= 2 * (I / 2) + 1)
    by (pose proof (Z.div_mod I 2); pose proof (Z.mod_pos_bound I 2); lia).
  assert (Hr : SSIZE_MIN <= x <= SSIZE_MAX /\ SSIZE_MIN <= x + I <= SSIZE_MAX
               /\ SSIZE_MIN <= W - I <= SSIZE_MAX /\ SSIZE_MIN <= - I <= SSIZE_MAX)
    by (unfold SSIZE_MIN, SSIZE_MAX; lia).
  destruct Hr as (R1 & R2 & R3 & R4).
  rewrite !(ssize_wrap_id (x + I)) by assumption.
  assert (E1 : (0 <? x) && (W <? x + I) = false).
  { destruct (Z.ltb_spec 0 x), (Z.ltb_spec W (x + I)); try reflexivity; lia. }
  rewrite E1, andb_false_r. cbv iota.
  rewrite !(ssize_wrap_id (x + I)) by assumption.
  assert (E2 : (x <? 0) && (x + I <? W) = false).
  { destruct (Z.ltb_spec x 0), (Z.ltb_spec (x + I) W); try reflexivity; lia. }
  rewrite E2, andb_false_r. cbv iota.
  rewrite !(ssize_wrap_id (x + I)) by assumption.
  destruct (Z.ltb_spec (x + I) 0); [lia|].
  destruct (Z.ltb_spec W x); [lia|]. reflexivity.
Qed.

Lemma center_balanced W I :
  Z.abs ((W - I - (W / 2 - I / 2)) - (W / 2 - I / 2)) <= 1.
Proof.
  pose proof (Z.div_mod W 2); pose proof (Z.mod_pos_bound W 2).
  pose proof (Z.div_mod I 2); pose proof (Z.mod_pos_bound I 2). lia.
Qed.


Lemma axis_coordinate_plain r W I :
  0 <= W <= SSIZE_MAX -> 0 <= I <= SSIZE_MAX ->
  axis_coordinate r W I =
  match r with
  | axis_start => 0
  | axis_end => W - I
  | axis_center => W / 2 - I / 2
  end.
Proof.
  intros HW HI. destruct r; cbn [axis_coordinate]; trivial; unfold ssub.
  - apply ssize_wrap_id. unfold SSIZE_MIN, SSIZE_MAX in *. lia.
  - rewrite !sdiv_2_nonneg by assumption.
    apply ssize_wrap_id. unfold SSIZE_MIN, SSIZE_MAX in *.
    pose proof (Z.div_mod W 2); pose proof (Z.mod_pos_bound W 2).
    pose proof (Z.div_mod I 2); pose proof (Z.mod_pos_bound I 2). lia.
Qed.

Lemma axis_coordinate_cases r W I :
  let x := match r with
           | axis_start => 0
           | axis_end => W - I
           | axis_center => W / 2 - I / 2
           end in
  x = 0 \/ x = W - I \/ x = W / 2 - I / 2.
Proof. destruct r; cbn; auto. Qed.

Lemma fixup_forced_x w :
  img_x (ctx (fixup_position true w)) =
  bind_and_clamp (fixed (ctx w)) (ssize_wrap (ui_width w))
    (scaled_dim (scale (ctx w)) (width (current_pm w)))
    (axis_coordinate (horizontal_rule (position (ctx w))) (ssize_wrap (ui_width w))
       (scaled_dim (scale (ctx w)) (width (current_pm w)))).
Proof.
  unfold fixup_position, bind_and_clamp. cbv zeta. cbn [orb ctx set_ctx img_x set_pos].
  generalize (scaled_dim (scale (ctx w)) (width (current_pm w))) as IW.
  generalize (scaled_dim (scale (ctx w)) (height (current_pm w))) as IH.
  generalize (ssize_wrap (ui_width w)) as W. generalize (ssize_wrap (ui_height w)) as H.
  intros H W IH IW.
  destruct (position (ctx w)); reflexivity.
Qed.

Lemma fixup_forced_y w :
  img_y (ctx (fixup_position true w)) =
  bind_and_clamp (fixed (ctx w)) (ssize_wrap (ui_height w))
    (scaled_dim (scale (ctx w)) (height (current_pm w)))
    (axis_coordinate (vertical_rule (position (ctx w))) (ssize_wrap (ui_height w))
       (scaled_dim (scale (ctx w)) (height (current_pm w)))).
Proof.
  unfold fixup_position, bind_and_clamp. cbv zeta. cbn [orb ctx set_ctx img_y set_pos].
  generalize (scaled_dim (scale (ctx w)) (width (current_pm w))) as IW.
  generalize (scaled_dim (scale (ctx w)) (height (current_pm w))) as IH.
  generalize (ssize_wrap (ui_width w)) as W. generalize (ssize_wrap (ui_height w)) as H.
  intros H W IH IW.
  destruct (position (ctx w)); reflexivity.
Qed.

(** C3: a forced [fixup_position] places the image by the anchor's rule
    on each axis, for every anchor, both values of [fixed] and every
    window and scaled image extent (image larger than the window
    included): 0 on a start axis, window minus image on an end axis,
    and [W/2 - I/2] otherwise, which leaves margins that differ by at
    most one pixel. *)
Theorem forced_fixup_places_by_anchor (w : world) :
  let W := ui_width w in
  let H := ui_height w in
  let IW := scaled_dim (scale (ctx w)) (width (current_pm w)) in
  let IH := scaled_dim (scale (ctx w)) (height (current_pm w)) in
  0 <= W <= SSIZE_MAX -> 0 <= H <= SSIZE_MAX -> 0 <= IW -> 0 <= IH ->
  axis_placed (horizontal_rule (position (ctx w))) W IW
              (img_x (ctx (fixup_position true w))) /\
  axis_placed (vertical_rule (position (ctx w))) H IH
              (img_y (ctx (fixup_position true w))).
Proof.
  intros W H IW IH HW HH HIW HIH.
  assert (BW : IW <= SSIZE_MAX).
  { subst IW. unfold scaled_dim, double_to_ssize.
    destruct (dmul _ _); try (unfold SSIZE_MIN, SSIZE_MAX; lia).
    destruct (_ && _) eqn:Hb; [|unfold SSIZE_MIN, SSIZE_MAX; lia].
    apply andb_prop in Hb. destruct Hb as [_ Hb]. now apply Z.leb_le in Hb. }
  assert (BH : IH <= SSIZE_MAX).
  { subst IH. unfold scaled_dim, double_to_ssize.
    destruct (dmul _ _); try (unfold SSIZE_MIN, SSIZE_MAX; lia).
    destruct (_ && _) eqn:Hb; [|unfold SSIZE_MIN, SSIZE_MAX; lia].
    apply andb_prop in Hb. destruct Hb as [_ Hb]. now apply Z.leb_le in Hb. }
  assert (EW : ssize_wrap (ui_width w) = W)
    by (apply ssize_wrap_id; unfold SSIZE_MIN; lia).
  assert (EH : ssize_wrap (ui_height w) = H)
    by (apply ssize_wrap_id; unfold SSIZE_MIN; lia).
  pose proof (center_balanced W IW) as CW.
  pose proof (center_balanced H IH) as CH.
  rewrite fixup_forced_x, fixup_forced_y.
  fold IW IH. rewrite EW, EH.
  rewrite !axis_coordinate_plain by lia.
  rewrite !bind_and_clamp_fixed by (try lia; apply axis_coordinate_cases).
  split.
  - destruct (horizontal_rule _); cbn; auto.
  - destruct (vertical_rule _); cbn; auto.
Qed.

Lemma forced_fixup_places_by_anchor_witness :
  let w := world_of (viewer_at 7 7 true position_top_right d_1) 640 480
             (still_image 800 100) in
  axis_placed axis_end 640 800 (img_x (ctx (fixup_position true w))) /\
  axis_placed axis_start 480 100 (img_y (ctx (fixup_position true w))).
Proof.
  apply (forced_fixup_places_by_anchor
           (world_of (viewer_at 7 7 true position_top_right d_1) 640 480
              (still_image 800 100)));
    vm_compute; try split; discriminate.
Defined.

(* ================================================================== *)
(** * Cycling the scale policy *)


Lemma scale_image_toggles params w :
  has_text params = None ->
  scale_init (ctx (scale_image params w)) = next_policy (scale_init (ctx w)).
Proof.
  intros E. unfold scale_image. rewrite E.
  destruct (scale_init (ctx w)); reflexivity.
Qed.

Lemma scale_image_iter params n w :
  has_text params = None ->
  scale_init (ctx (Nat.iter n (scale_image params) w)) =
  Nat.iter n next_policy (scale_init (ctx w)).
Proof.
  intros E. induction n as [|n IH]; [reflexivity|].
  rewrite !Nat.iter_succ, scale_image_toggles, IH by assumption. reflexivity.
Qed.

Lemma next_policy_period sc : Nat.iter 6 next_policy sc = sc.
Proof. destruct sc; reflexivity. Qed.

Lemma next_policy_index sc :
  fixed_scale_index (next_policy sc) = (fixed_scale_index sc + 1) mod 6.
Proof. destruct sc; reflexivity. Qed.

Lemma fixed_scale_index_range sc : 0 <= fixed_scale_index sc < 6.
Proof. destruct sc; cbn; lia. Qed.

Lemma fixed_scale_index_inj sc sc' :
  fixed_scale_index sc = fixed_scale_index sc' -> sc = sc'.
Proof. destruct sc, sc'; cbn; intros H; try reflexivity; discriminate. Qed.

(** After [k] toggles the policy is [k] places further in the
    enumeration, around its end. *)
Lemma scale_image_iter_index params k w :
  has_text params = None ->
  fixed_scale_index (scale_init (ctx (Nat.iter k (scale_image params) w))) =
  (fixed_scale_index (scale_init (ctx w)) + Z.of_nat k) mod 6.
Proof.
  intros E. pose proof (fixed_scale_index_range (scale_init (ctx w))) as R.
  induction k as [|k IH].
  - cbn [Nat.iter]. rewrite Z.add_0_r, Z.mod_small by lia. reflexivity.
  - rewrite Nat.iter_succ, scale_image_toggles, next_policy_index, IH by assumption.
    rewrite Zplus_mod_idemp_l. f_equal. lia.
Qed.

(** C8: [scale_image] without parameter (absent or empty) moves the
    stored scale policy one place on in the ordered enumeration
    optimal, fit, width, height, fill, real, and from real back to
    optimal.  So [k] calls move it [k] places around the cycle: from
    optimal the six calls visit fit, width, height, fill, real and
    optimal in this order; six calls bring every policy back to where
    it started, and fewer never do. *)
Theorem scale_toggle_period_6 (params : option string) (w : world) :
  has_text params = None ->
  fixed_scale_index (scale_init (ctx (scale_image params w))) =
    (fixed_scale_index (scale_init (ctx w)) + 1) mod 6 /\
  (forall k : nat,
     fixed_scale_index (scale_init (ctx (Nat.iter k (scale_image params) w))) =
     (fixed_scale_index (scale_init (ctx w)) + Z.of_nat k) mod 6) /\
  (scale_init (ctx w) = scale_fit_optimal ->
   map (fun k => scale_init (ctx (Nat.iter k (scale_image params) w)))
       [1; 2; 3; 4; 5; 6]%nat =
   [scale_fit_window; scale_fit_width; scale_fit_height; scale_fill_window;
    scale_real_size; scale_fit_optimal]) /\
  scale_init (ctx (Nat.iter 6 (scale_image params) w)) = scale_init (ctx w) /\
  (forall k : nat, (0 < k < 6)%nat ->
     scale_init (ctx (Nat.iter k (scale_image params) w)) <> scale_init (ctx w)).
Proof.
  intros E.
  pose proof (fixed_scale_index_range (scale_init (ctx w))) as R.
  split; [|split; [|split; [|split]]].
  - rewrite scale_image_toggles by assumption. apply next_policy_index.
  - intros k. now apply scale_image_iter_index.
  - intros H0. cbn [map].
    rewrite !scale_image_iter, H0 by assumption. reflexivity.
  - rewrite scale_image_iter by assumption. apply next_policy_period.
  - intros k Hk H. apply (f_equal fixed_scale_index) in H.
    rewrite scale_image_iter_index in H by assumption.
    assert (Hc : (0 < Z.of_nat k < 6)) by lia.
    destruct (Z.lt_ge_cases (fixed_scale_index (scale_init (ctx w)) + Z.of_nat k) 6).
    + rewrite Z.mod_small in H by lia. lia.
    + assert (M : (fixed_scale_index (scale_init (ctx w)) + Z.of_nat k) mod 6
                  = fixed_scale_index (scale_init (ctx w)) + Z.of_nat k - 6).
      { symmetry. apply Z.mod_unique with (q := 1); lia. }
      lia.
Qed.

Lemma scale_toggle_period_6_witness :
  let w := world_of (viewer_at 0 0 false position_center d_1) 640 480
             (still_image 800 600) in
  map (fun k => scale_init (ctx (Nat.iter k (scale_image (Some EmptyString)) w)))
      [1; 2; 3; 4; 5; 6]%nat =
  [scale_fit_window; scale_fit_width; scale_fit_height; scale_fill_window;
   scale_real_size; scale_fit_optimal].
Proof.
  destruct (scale_toggle_period_6 (Some EmptyString)
              (world_of (viewer_at 0 0 false position_center d_1) 640 480
                 (still_image 800 600)) eq_refl) as (_ & _ & H & _).
  apply H. reflexivity.
Defined.

(* ================================================================== *)
(** * Animation timer and frame stepping *)

(** C9: with a single frame, [animation_ctl(true)] leaves the timer
    disarmed and the animation flag off, whatever the frame's duration. *)
Theorem animation_single_frame_disarmed (w : world) :
  num_frames (current w) = 1 ->
  animation_timer (animation_ctl true w) = timer_disarmed /\
  animation_enable (ctx (animation_ctl true w)) = false.
Proof.
  intros H. unfold animation_ctl. rewrite H. cbn. split; reflexivity.
Qed.

Lemma animation_single_frame_disarmed_witness :
  let w := world_of (viewer_at 0 0 false position_center d_1) 640 480
             {| frames := [ {| pm := {| width := 8; height := 8 |}; duration := 40 |} ];
                index := 0; name := EmptyString; alpha := false |} in
  animation_timer (animation_ctl true w) = timer_disarmed /\
  animation_enable (ctx (animation_ctl true w)) = false.
Proof.
  apply (animation_single_frame_disarmed
           (world_of (viewer_at 0 0 false position_center d_1) 640 480
              {| frames := [ {| pm := {| width := 8; height := 8 |}; duration := 40 |} ];
                 index := 0; name := EmptyString; alpha := false |})).
  reflexivity.
Defined.

(** C10: with a single frame, [next_frame] in either direction changes
    nothing: the frame index stays 0, no overlay text is written and no
    redraw is requested. *)
Theorem next_frame_single_frame_noop (forward : bool) (w : world) :
  num_frames (current w) = 1 ->
  0 <= frame (ctx w) < num_frames (current w) ->
  next_frame forward w = w /\ frame (ctx (next_frame forward w)) = 0.
Proof.
  intros H1 Hf. rewrite H1 in Hf. assert (F : frame (ctx w) = 0) by lia.
  assert (E : next_frame forward w = w).
  { unfold next_frame. rewrite H1, F. destruct forward; reflexivity. }
  rewrite E. auto.
Qed.

Lemma next_frame_single_frame_noop_witness :
  let w := world_of (viewer_at 0 0 false position_center d_1) 640 480
             (still_image 8 8) in
  next_frame false w = w /\ frame (ctx (next_frame false w)) = 0.
Proof.
  apply (next_frame_single_frame_noop false
           (world_of (viewer_at 0 0 false position_center d_1) 640 480
              (still_image 8 8))).
  - reflexivity.
  - vm_compute. split; [discriminate | reflexivity].
Defined.

(* ================================================================== *)
(** * Invalid action parameters *)

(** C4 as stated fails for move steps: the text "abc" is not a number,
    the error is reported, and the image still moves by the default
    step (10% of a 1000 pixel window: 100 pixels). *)
Lemma invalid_move_step_still_moves :
  let w := world_of (viewer_at 0 0 false position_center d_1) 1000 1000
             (still_image 100 100) in
  let w' := move_image decimal_str_to_num true true (Some "abc"%string) w in
  decimal_str_to_num "abc" = None /\
  stderr w' = [invalid_move_step "abc"] /\
  img_x (ctx w) = 0 /\ img_x (ctx w') = 100.
Proof. vm_compute. repeat split. Qed.


Lemma valid_move_step_spec v :
  valid_move_step v = false ->
  match v with
  | Some val => (0 <? val) && (val <=? 1000) = false
  | None => True
  end.
Proof.
  destruct v as [n|]; cbn; trivial.
  intros H. destruct (Z.leb_spec 1 n), (Z.ltb_spec 0 n); cbn in *; trivial; lia.
Qed.

(** C4 (amended): an invalid zoom parameter or scale name is reported
    and leaves the viewer context unchanged; an invalid move step is
    reported and the move then runs with the default step, exactly as a
    move without parameter. *)
Theorem invalid_parameters_reported (str_to_num : string -> option Z)
    (p : string) (w : world) :
  (valid_move_step (str_to_num p) = false ->
   forall horizontal positive,
     move_image str_to_num horizontal positive (Some p) w =
     move_image str_to_num horizontal positive None (report (invalid_move_step p) w)) /\
  (has_text (Some p) = Some p -> str_index scale_names p < 0 ->
   (valid_zoom_percent (str_to_num p) = false ->
    ctx (zoom_image str_to_num (Some p) w) = ctx w /\
    stderr (zoom_image str_to_num (Some p) w) = invalid_zoom_operation p :: stderr w) /\
   scale_image (Some p) w = report (invalid_scale_operation p) w).
Proof.
  split.
  - intros Hv horizontal positive. apply valid_move_step_spec in Hv.
    unfold move_image. destruct (str_to_num p) as [val|]; [rewrite Hv|]; reflexivity.
  - intros Ht Hi. split.
    + intros Hv. unfold zoom_image. rewrite Ht.
      destruct (Z.leb_spec 0 (str_index scale_names p)); [lia|].
      unfold valid_zoom_percent in Hv.
      destruct (str_to_num p) as [n|]; [rewrite Hv|]; split; reflexivity.
    + unfold scale_image. rewrite Ht.
      destruct (Z.leb_spec 0 (str_index scale_names p)); [lia|]. reflexivity.
Qed.

(* ================================================================== *)
(** * Navigation retries *)

Section NavigationFacts.

Variable E : Type.
Variable image_list_first : E -> Z.
Variable image_list_last : E -> Z.
Variable image_list_prev_dir : Z -> E -> Z.
Variable image_list_next_dir : Z -> E -> Z.
Variable image_list_prev_file : Z -> E -> Z.
Variable image_list_next_file : Z -> E -> Z.
Variable image_list_rand_file : Z -> E -> Z.
Variable image_list_skip : Z -> E -> Z * E.
Variable fetcher_open : Z -> E -> option image * E.

Local Abbreviation loop :=
  (next_image_loop E image_list_first image_list_last
     image_list_prev_dir image_list_next_dir image_list_prev_file
     image_list_next_file image_list_rand_file fetcher_open).
Local Abbreviation retry := (retry_loop E fetcher_open).
Local Abbreviation fwd := (forward E image_list_next_file).
Local Abbreviation bwd := (backward E image_list_prev_file).

Lemma next_file_retries_forward fuel index cur e :
  loop (S fuel) action_next_file index cur e =
  retry fwd (S fuel) (image_list_next_file index e) cur e.
Proof.
  revert index e. induction fuel as [|fuel IH]; intros index e.
  - cbn. destruct (_ =? _); [reflexivity|].
    destruct (fetcher_open _ e) as [[img|] e']; reflexivity.
  - cbn [next_image_loop next_candidate retry_loop].
    destruct (_ =? _); [reflexivity|].
    destruct (fetcher_open _ e) as [[img|] e']; [reflexivity|].
    cbn [forward]. apply IH.
Qed.

Lemma prev_file_retries_backward fuel index cur e :
  loop (S fuel) action_prev_file index cur e =
  retry bwd (S fuel) (image_list_prev_file index e) cur e.
Proof.
  revert index e. induction fuel as [|fuel IH]; intros index e.
  - cbn. destruct (_ =? _); [reflexivity|].
    destruct (fetcher_open _ e) as [[img|] e']; reflexivity.
  - cbn [next_image_loop next_candidate retry_loop].
    destruct (_ =? _); [reflexivity|].
    destruct (fetcher_open _ e) as [[img|] e']; [reflexivity|].
    cbn [backward]. apply IH.
Qed.

Lemma first_file_retries_forward fuel index cur e :
  loop (S fuel) action_first_file index cur e =
  retry fwd (S fuel) (image_list_first e) cur e.
Proof.
  cbn [next_image_loop next_candidate retry_loop].
  destruct (_ =? _); [reflexivity|].
  destruct (fetcher_open _ e) as [[img|] e']; [reflexivity|].
  destruct fuel as [|fuel]; [reflexivity|].
  cbn [forward]. apply next_file_retries_forward.
Qed.

Lemma last_file_retries_backward fuel index cur e :
  loop (S fuel) action_last_file index cur e =
  retry bwd (S fuel) (image_list_last e) cur e.
Proof.
  cbn [next_image_loop next_candidate retry_loop].
  destruct (_ =? _); [reflexivity|].
  destruct (fetcher_open _ e) as [[img|] e']; [reflexivity|].
  destruct fuel as [|fuel]; [reflexivity|].
  cbn [backward]. apply prev_file_retries_backward.
Qed.

Lemma skip_retries_with_skip fuel index cur e :
  skip_image_loop E image_list_skip fetcher_open fuel index cur e =
  retry image_list_skip fuel index cur e.
Proof.
  revert index e. induction fuel as [|fuel IH]; intros index e; [reflexivity|].
  cbn [skip_image_loop retry_loop].
  destruct (_ =? _); [reflexivity|].
  destruct (fetcher_open _ e) as [[img|] e']; [reflexivity|].
  destruct (image_list_skip index e') as [i e'']. apply IH.
Qed.

(** The loop runs exactly as long as candidates are list entries that
    fail to open. *)
Lemma retry_runs_while_failing cont fuel index cur e :
  retry cont fuel index cur e = None <->
  all_fail E fetcher_open cont fuel index e = true.
Proof.
  revert index e. induction fuel as [|fuel IH]; intros index e.
  - cbn. tauto.
  - cbn [retry_loop all_fail].
    destruct (_ =? _); [split; discriminate|].
    destruct (fetcher_open _ e) as [[img|] e']; [split; discriminate|].
    destruct (cont index e') as [i e'']. apply IH.
Qed.

(** When the loop stops it is on the sentinel, with the current image
    untouched, or on an entry that opened. *)
Lemma retry_stops_on_success_or_sentinel cont fuel index cur e i img e' :
  retry cont fuel index cur e = Some (i, img, e') ->
  (i = IMGLIST_INVALID /\ img = cur) \/
  (i <> IMGLIST_INVALID /\ exists e0, fetcher_open i e0 = (Some img, e')).
Proof.
  revert index e. induction fuel as [|fuel IH]; intros index e; [discriminate|].
  cbn [retry_loop].
  destruct (Z.eqb_spec index IMGLIST_INVALID) as [Hi|Hi].
  - intros [= <- <- <-]. left. auto.
  - destruct (fetcher_open index e) as [[im|] e1] eqn:Ho.
    + intros [= <- <- <-]. right. split; [assumption|]. now exists e.
    + destruct (cont index e1) as [j e2]. apply IH.
Qed.

(** Fuel beyond what the loop needs does not change its result. *)
Lemma retry_fuel_enough cont n k index cur e r :
  retry cont n index cur e = Some r -> retry cont (n + k) index cur e = Some r.
Proof.
  revert index e. induction n as [|n IH]; intros index e; [discriminate|].
  cbn [retry_loop Nat.add].
  destruct (_ =? _); trivial.
  destruct (fetcher_open index e) as [[im|] e1]; trivial.
  destruct (cont index e1) as [j e2]. apply IH.
Qed.

(** Under the image list's contract that skipping goes forward, the
    loop of [skip_image] is the retry loop along next-file. *)
Lemma skip_retries_forward fuel index cur e :
  skip_goes_forward E image_list_next_file image_list_skip ->
  skip_image_loop E image_list_skip fetcher_open fuel index cur e =
  retry (forward_dropping E image_list_next_file image_list_skip) fuel index cur e.
Proof.
  intros H. revert index e. induction fuel as [|fuel IH]; intros index e; [reflexivity|].
  cbn [skip_image_loop retry_loop].
  destruct (_ =? _); [reflexivity|].
  destruct (fetcher_open _ e) as [[img|] e']; [reflexivity|].
  unfold forward_dropping at 1. rewrite <- (H index e').
  destruct (image_list_skip index e') as [i e'']. cbn [fst snd]. apply IH.
Qed.

Lemma skip_image_forward fuel w e :
  skip_goes_forward E image_list_next_file image_list_skip ->
  skip_image E image_list_skip fetcher_open fuel w e =
  match retry (forward_dropping E image_list_next_file image_list_skip) fuel
          (image_list_next_file (index (current w)) e) (current w)
          (snd (image_list_skip (index (current w)) e)) with
  | None => None
  | Some (i, img, e') => Some (negb (i =? IMGLIST_INVALID), set_current img w, e')
  end.
Proof.
  intros H. unfold skip_image. rewrite <- (H (index (current w)) e).
  destruct (image_list_skip (index (current w)) e) as [i e1]. cbn [fst snd].
  rewrite skip_retries_forward by assumption. reflexivity.
Qed.


End NavigationFacts.



(* ================================================================== *)
(** * Floating point: digits, shifts and rounding *)

(** Number of binary digits. *)
Lemma digits2_pos_bounds m :
  2 ^ (Zpos (digits2_pos m) - 1) <= Zpos m < 2 ^ Zpos (digits2_pos m).
Proof.
  induction m as [m IH|m IH|]; cbn [digits2_pos]; [| |cbn; lia];
    rewrite Pos2Z.inj_succ;
    set (d := Zpos (digits2_pos m)) in *;
    assert (Hd : 0 < d) by (subst d; lia);
    replace (Z.succ d - 1) with (Z.succ (d - 1)) by lia;
    rewrite !Z.pow_succ_r by lia;
    replace d with (Z.succ (d - 1)) in IH at 2 by lia;
    rewrite Z.pow_succ_r in IH by lia;
    replace d with (Z.succ (d - 1)) at 2 by lia;
    rewrite Z.pow_succ_r by lia; lia.
Qed.

Lemma pow2_pos n : 0 <= n -> 0 < 2 ^ n.
Proof. intros. apply Z.pow_pos_nonneg; lia. Qed.

Lemma pow2_le a b : 0 <= a <= b -> 2 ^ a <= 2 ^ b.
Proof. intros. apply Z.pow_le_mono_r; lia. Qed.

Lemma pow2_lt a b : 0 <= a < b -> 2 ^ a < 2 ^ b.
Proof. intros. apply Z.pow_lt_mono_r; lia. Qed.

Lemma digits2_pos_unique m d :
  2 ^ (d - 1) <= Zpos m < 2 ^ d -> Zpos (digits2_pos m) = d.
Proof.
  intros [H1 H2]. pose proof (digits2_pos_bounds m) as [B1 B2].
  set (k := Zpos (digits2_pos m)) in *.
  assert (0 < k) by (subst k; lia).
  assert (0 < d).
  { destruct (Z.ltb_spec 0 d); trivial.
    assert (2 ^ d <= 1).
    { destruct (Z.eq_dec d 0) as [->|]; [cbn; lia|].
      rewrite Z.pow_neg_r by lia. lia. }
    lia. }
  destruct (Z.lt_trichotomy k d) as [L|[L|L]]; trivial.
  - assert (2 ^ k <= 2 ^ (d - 1)) by (apply pow2_le; lia). lia.
  - assert (2 ^ d <= 2 ^ (k - 1)) by (apply pow2_le; lia). lia.
Qed.

(** Right shifts are divisions by powers of two. *)
Lemma shr_1_m mrs : 0 <= shr_m mrs -> shr_m (shr_1 mrs) = shr_m mrs / 2.
Proof.
  destruct mrs as [m r s]. cbn [shr_m]. intros H.
  destruct m as [|p|p]; [reflexivity| |lia].
  destruct p as [p|p|]; cbn [shr_1 shr_m].
  - rewrite Pos2Z.inj_xI. apply Z.div_unique with 1; lia.
  - rewrite Pos2Z.inj_xO. apply Z.div_unique with 0; lia.
  - reflexivity.
Qed.

Lemma iter_shr_1_m p : forall mrs,
  0 <= shr_m mrs ->
  shr_m (SpecFloat.iter_pos shr_1 p mrs) = shr_m mrs / 2 ^ Zpos p.
Proof.
  assert (nonneg : forall mrs, 0 <= shr_m mrs -> 0 <= shr_m (shr_1 mrs)).
  { intros mrs H. rewrite shr_1_m by trivial. apply Z.div_pos; lia. }
  induction p as [p IH|p IH|]; intros mrs H; cbn [SpecFloat.iter_pos].
  - assert (H1 := nonneg _ H).
    assert (H2 : 0 <= shr_m (SpecFloat.iter_pos shr_1 p (shr_1 mrs))).
    { rewrite IH by trivial. apply Z.div_pos; [trivial|apply pow2_pos; lia]. }
    rewrite IH, IH, shr_1_m by trivial.
    pose proof (pow2_pos (Zpos p) ltac:(lia)).
    rewrite !Z.div_div by lia.
    f_equal. replace (Zpos p~1) with (1 + Zpos p + Zpos p) by lia.
    rewrite !Z.pow_add_r by lia. change (2 ^ 1) with 2. ring.
  - assert (H2 : 0 <= shr_m (SpecFloat.iter_pos shr_1 p mrs)).
    { rewrite IH by trivial. apply Z.div_pos; [trivial|apply pow2_pos; lia]. }
    rewrite IH, IH by trivial.
    pose proof (pow2_pos (Zpos p) ltac:(lia)).
    rewrite !Z.div_div by lia.
    f_equal. replace (Zpos p~0) with (Zpos p + Zpos p) by lia.
    rewrite !Z.pow_add_r by lia. ring.
  - rewrite shr_1_m by trivial. reflexivity.
Qed.

Lemma shr_m_record_of_loc m l : shr_m (shr_record_of_loc m l) = m.
Proof. destruct l as [|[]]; reflexivity. Qed.

Lemma shr_spec mrs e n :
  0 <= shr_m mrs ->
  shr_m (fst (shr mrs e n)) = shr_m mrs / 2 ^ Z.max n 0 /\
  snd (shr mrs e n) = e + Z.max n 0.
Proof.
  intros H. destruct n as [|p|p]; cbn [shr fst snd].
  - cbn. rewrite Z.div_1_r. lia.
  - rewrite iter_shr_1_m by trivial. rewrite Z.max_l by lia. auto.
  - rewrite Z.max_r by lia. cbn. rewrite Z.div_1_r. lia.
Qed.

Lemma round_nearest_even_bounds m l :
  m <= round_nearest_even m l <= m + 1.
Proof.
  destruct l as [|[]]; cbn [round_nearest_even]; try lia.
  destruct (Z.even m); lia.
Qed.

Lemma Zdigits2_unique z d : 0 < d -> 2 ^ (d - 1) <= z < 2 ^ d -> Zdigits2 z = d.
Proof.
  intros Hd H. pose proof (pow2_pos (d - 1) ltac:(lia)).
  destruct z as [|p|p]; try lia. cbn [Zdigits2]. now apply digits2_pos_unique.
Qed.

Lemma pow2_split a b : 0 <= a -> 0 <= b -> 2 ^ (a + b) = 2 ^ a * 2 ^ b.
Proof. intros. now apply Z.pow_add_r. Qed.

(** Dropping [k] low bits of a number of [p + k] bits leaves [p] bits. *)
Lemma div_pow2_bounds z d k :
  0 <= k -> k < d -> 2 ^ (d - 1) <= z < 2 ^ d ->
  2 ^ (d - k - 1) <= z / 2 ^ k < 2 ^ (d - k).
Proof.
  intros Hk Hd [L U]. pose proof (pow2_pos k Hk).
  split.
  - apply Z.div_le_lower_bound; trivial.
    rewrite <- pow2_split by lia. replace (k + (d - k - 1)) with (d - 1) by lia. trivial.
  - apply Z.div_lt_upper_bound; trivial.
    rewrite <- pow2_split by lia. replace (k + (d - k)) with d by lia. trivial.
Qed.

Section Rounding.

Variables prec emax : Z.
Hypothesis Hprec : 0 < prec.

Local Abbreviation emin := (emin prec emax).
Local Abbreviation fexp := (fexp prec emax).

Lemma shr_fexp_spec m e l :
  0 <= m ->
  shr_m (fst (shr_fexp prec emax m e l)) = m / 2 ^ Z.max (fexp (Zdigits2 m + e) - e) 0 /\
  snd (shr_fexp prec emax m e l) = e + Z.max (fexp (Zdigits2 m + e) - e) 0.
Proof.
  intros H. unfold shr_fexp.
  pose proof (shr_spec (shr_record_of_loc m l) e (fexp (Zdigits2 m + e) - e)) as S.
  rewrite shr_m_record_of_loc in S. now apply S.
Qed.

(** Rounding a number with at least [prec] digits whose magnitude lies in
    the normal range: the result is a normal number of the same sign, and
    its magnitude is that of the input or one more. *)
Lemma binary_round_aux_cases sx mx ex lx :
  prec <= Zpos (digits2_pos mx) ->
  emin + prec <= Zpos (digits2_pos mx) + ex ->
  Zpos (digits2_pos mx) + ex + 1 <= emax ->
  exists m e,
    binary_round_aux prec emax sx (Zpos mx) ex lx = S754_finite sx m e /\
    Zpos (digits2_pos m) = prec /\
    ((e = Zpos (digits2_pos mx) + ex - prec /\
      Zpos mx / 2 ^ (Zpos (digits2_pos mx) - prec) <= Zpos m
        <= Zpos mx / 2 ^ (Zpos (digits2_pos mx) - prec) + 1) \/
     (e = Zpos (digits2_pos mx) + ex + 1 - prec /\
      Zpos m = 2 ^ (prec - 1) /\
      Zpos mx / 2 ^ (Zpos (digits2_pos mx) - prec) + 1 = 2 ^ prec)).
Proof.
  intros Hd Hlo Hhi.
  set (d := Zpos (digits2_pos mx)) in *.
  set (M := d + ex) in *.
  unfold binary_round_aux.
  pose proof (shr_fexp_spec (Zpos mx) ex lx ltac:(lia)) as [S1 S2].
  destruct (shr_fexp prec emax (Zpos mx) ex lx) as [mrs1 e1].
  cbn [fst snd] in S1, S2.
  assert (F1 : fexp (Zdigits2 (Zpos mx) + ex) = M - prec).
  { cbn [Zdigits2]. fold d. fold M. unfold SpecFloat.fexp. lia. }
  rewrite F1 in S1, S2.
  assert (Hk : Z.max (M - prec - ex) 0 = d - prec) by lia.
  rewrite Hk in S1, S2.
  assert (E1 : e1 = M - prec) by lia.
  pose proof (digits2_pos_bounds mx) as B. fold d in B.
  pose proof (div_pow2_bounds (Zpos mx) d (d - prec) ltac:(lia) ltac:(lia) B) as B1.
  rewrite <- S1 in B1. replace (d - (d - prec)) with prec in B1 by lia.
  set (m1 := shr_m mrs1) in *.
  pose proof (round_nearest_even_bounds m1 (loc_of_shr_record mrs1)) as B2.
  set (m2 := round_nearest_even m1 (loc_of_shr_record mrs1)) in *.
  pose proof (pow2_pos (prec - 1) ltac:(lia)) as P1.
  assert (P2 : 2 ^ prec = 2 * 2 ^ (prec - 1)).
  { replace prec with (Z.succ (prec - 1)) at 1 by lia. apply Z.pow_succ_r. lia. }
  pose proof (shr_fexp_spec m2 e1 loc_Exact ltac:(lia)) as [T1 T2].
  destruct (shr_fexp prec emax m2 e1 loc_Exact) as [mrs2 e2].
  cbn [fst snd] in T1, T2.
  destruct (Z.ltb_spec m2 (2 ^ prec)) as [Hlt|Hge].
  - (* no carry *)
    assert (D2 : Zdigits2 m2 = prec) by (apply Zdigits2_unique; lia).
    rewrite D2 in T1, T2.
    assert (F2 : fexp (prec + e1) = e1) by (unfold SpecFloat.fexp; lia).
    rewrite F2 in T1, T2. replace (Z.max (e1 - e1) 0) with 0 in T1, T2 by lia.
    rewrite Z.pow_0_r, Z.div_1_r in T1. rewrite T1.
    destruct m2 as [|p|p]; try lia.
    exists p, e2. split.
    + destruct (Z.leb_spec e2 (emax - prec)); [reflexivity|lia].
    + split; [apply digits2_pos_unique; lia|]. left. lia.
  - (* carry: the mantissa became 2^prec *)
    assert (M2 : m2 = 2 ^ prec) by lia.
    assert (D2 : Zdigits2 m2 = prec + 1).
    { apply Zdigits2_unique; [lia|]. replace (prec + 1 - 1) with prec by lia.
      rewrite M2. split; [lia|]. apply pow2_lt. lia. }
    rewrite D2 in T1, T2.
    assert (F2 : fexp (prec + 1 + e1) = e1 + 1) by (unfold SpecFloat.fexp; lia).
    rewrite F2 in T1, T2. replace (Z.max (e1 + 1 - e1) 0) with 1 in T1, T2 by lia.
    rewrite M2, P2 in T1. change (2 ^ 1) with 2 in T1.
    rewrite Z.mul_comm, Z.div_mul in T1 by lia.
    rewrite T1.
    destruct (2 ^ (prec - 1)) as [|p|p] eqn:Ep; try lia.
    exists p, e2. split.
    + destruct (Z.leb_spec e2 (emax - prec)); [reflexivity|lia].
    + split; [apply digits2_pos_unique; rewrite <- Ep; lia|]. right. lia.
Qed.

Lemma binary_round_aux_normal sx mx ex lx :
  prec <= Zpos (digits2_pos mx) ->
  emin + prec <= Zpos (digits2_pos mx) + ex ->
  Zpos (digits2_pos mx) + ex + 1 <= emax ->
  exists m e,
    binary_round_aux prec emax sx (Zpos mx) ex lx = S754_finite sx m e /\
    Zpos (digits2_pos m) = prec /\
    Zpos (digits2_pos mx) + ex - prec <= e <= Zpos (digits2_pos mx) + ex + 1 - prec.
Proof.
  intros Hd Hlo Hhi.
  destruct (binary_round_aux_cases sx mx ex lx Hd Hlo Hhi) as (m & e & R1 & R2 & R3).
  exists m, e. repeat split; trivial; lia.
Qed.

(** Whatever is rounded, the result is never a NaN and keeps the sign. *)
Lemma binary_round_aux_shape sx m e l :
  0 <= m ->
  (exists m' e', binary_round_aux prec emax sx m e l = S754_finite sx m' e') \/
  binary_round_aux prec emax sx m e l = S754_zero sx \/
  binary_round_aux prec emax sx m e l = S754_infinity sx.
Proof.
  intros H. unfold binary_round_aux.
  pose proof (shr_fexp_spec m e l H) as [S1 _].
  destruct (shr_fexp prec emax m e l) as [mrs1 e1]. cbn [fst] in S1.
  assert (B1 : 0 <= shr_m mrs1).
  { rewrite S1. apply Z.div_pos; [trivial|]. apply pow2_pos. lia. }
  pose proof (round_nearest_even_bounds (shr_m mrs1) (loc_of_shr_record mrs1)) as B2.
  set (m2 := round_nearest_even (shr_m mrs1) (loc_of_shr_record mrs1)) in *.
  pose proof (shr_fexp_spec m2 e1 loc_Exact ltac:(lia)) as [T1 _].
  destruct (shr_fexp prec emax m2 e1 loc_Exact) as [mrs2 e2]. cbn [fst] in T1.
  assert (B3 : 0 <= shr_m mrs2).
  { rewrite T1. apply Z.div_pos; [lia|]. apply pow2_pos. lia. }
  destruct (shr_m mrs2) as [|p|p]; try lia; auto.
  destruct (e2 <=? emax - prec); eauto.
Qed.

Lemma shl_align_spec mx ex ex' :
  Zpos (fst (shl_align mx ex ex')) = Zpos mx * 2 ^ Z.max (ex - ex') 0 /\
  snd (shl_align mx ex ex') = ex - Z.max (ex - ex') 0.
Proof.
  unfold shl_align. destruct (ex' - ex) as [|d|d] eqn:E; cbn [fst snd].
  - replace (Z.max (ex - ex') 0) with 0 by lia. cbn. lia.
  - replace (Z.max (ex - ex') 0) with 0 by lia. cbn. lia.
  - replace (Z.max (ex - ex') 0) with (Zpos d) by lia. split; [|lia].
    clear E. induction d as [|d IH] using Pos.peano_ind.
    + cbn. lia.
    + rewrite Pos.iter_succ, Pos2Z.inj_xO, IH, Pos2Z.inj_succ, Z.pow_succ_r by lia. ring.
Qed.

Lemma digits2_pos_shift m m' k :
  0 <= k -> Zpos m' = Zpos m * 2 ^ k ->
  Zpos (digits2_pos m') = Zpos (digits2_pos m) + k.
Proof.
  intros Hk E. apply digits2_pos_unique. rewrite E.
  pose proof (digits2_pos_bounds m) as [L U].
  pose proof (pow2_pos k Hk).
  replace (Zpos (digits2_pos m) + k - 1) with (Zpos (digits2_pos m) - 1 + k) by lia.
  rewrite !pow2_split by lia. split.
  - apply Z.mul_le_mono_nonneg_r; lia.
  - apply Z.mul_lt_mono_pos_r; lia.
Qed.

(** [binary_round] in the normal range. *)
Lemma binary_round_normal sx mx ex :
  emin + prec <= Zpos (digits2_pos mx) + ex ->
  Zpos (digits2_pos mx) + ex + 1 <= emax ->
  exists m e,
    binary_round prec emax sx mx ex = S754_finite sx m e /\
    Zpos (digits2_pos m) = prec /\
    Zpos (digits2_pos mx) + ex - prec <= e <= Zpos (digits2_pos mx) + ex + 1 - prec.
Proof.
  intros Hlo Hhi. unfold binary_round.
  pose proof (shl_align_spec mx ex (fexp (Zpos (digits2_pos mx) + ex))) as [A1 A2].
  destruct (shl_align mx ex (fexp (Zpos (digits2_pos mx) + ex))) as [mz ez].
  cbn [fst snd] in A1, A2.
  set (d := Zpos (digits2_pos mx)) in *.
  assert (F : fexp (d + ex) = d + ex - prec) by (unfold SpecFloat.fexp; lia).
  rewrite F in A1, A2.
  set (k := Z.max (ex - (d + ex - prec)) 0) in *.
  assert (Dz : Zpos (digits2_pos mz) = d + k) by (apply (digits2_pos_shift mx mz k); trivial; lia).
  destruct (binary_round_aux_normal sx mz ez loc_Exact) as (m & e & R1 & R2 & R3); try lia.
  exists m, e. repeat split; trivial; lia.
Qed.

(** A number that fits in [prec] digits is not changed by rounding. *)
Lemma binary_round_exact sx mx ex :
  Zpos (digits2_pos mx) <= prec ->
  emin + prec <= Zpos (digits2_pos mx) + ex ->
  Zpos (digits2_pos mx) + ex <= emax ->
  exists m,
    binary_round prec emax sx mx ex =
      S754_finite sx m (Zpos (digits2_pos mx) + ex - prec) /\
    Zpos m = Zpos mx * 2 ^ (prec - Zpos (digits2_pos mx)) /\
    Zpos (digits2_pos m) = prec.
Proof.
  intros Hd Hlo Hhi. unfold binary_round.
  pose proof (shl_align_spec mx ex (fexp (Zpos (digits2_pos mx) + ex))) as [A1 A2].
  destruct (shl_align mx ex (fexp (Zpos (digits2_pos mx) + ex))) as [mz ez].
  cbn [fst snd] in A1, A2.
  set (d := Zpos (digits2_pos mx)) in *.
  assert (F : fexp (d + ex) = d + ex - prec) by (unfold SpecFloat.fexp; lia).
  rewrite F in A1, A2.
  replace (Z.max (ex - (d + ex - prec)) 0) with (prec - d) in A1, A2 by lia.
  assert (Dz : Zpos (digits2_pos mz) = prec).
  { rewrite (digits2_pos_shift mx mz (prec - d)); trivial; fold d; lia. }
  exists mz. split; [|auto].
  unfold binary_round_aux, shr_fexp. cbn [Zdigits2 shr_record_of_loc].
  rewrite Dz.
  assert (F2 : fexp (prec + ez) = ez) by (unfold SpecFloat.fexp; lia).
  rewrite F2, Z.sub_diag. cbn [shr shr_m loc_of_shr_record round_nearest_even Zdigits2].
  rewrite Dz, F2, Z.sub_diag. cbn [shr shr_m].
  destruct (Z.leb_spec ez (emax - prec)); [|lia].
  f_equal. lia.
Qed.

End Rounding.


Lemma pow2_lt_inv a b : 0 <= a -> 0 <= b -> 2 ^ a < 2 ^ b -> a < b.
Proof. intros Ha Hb H. apply (Z.pow_lt_mono_r_iff 2); lia. Qed.

Lemma nrm_weaken prec s lo hi lo' hi' x :
  nrm prec s lo hi x -> lo' <= lo -> hi <= hi' -> nrm prec s lo' hi' x.
Proof.
  intros (m & e & E & D & R) H1 H2. exists m, e. repeat split; trivial; lia.
Qed.

Section Operations.

Variables prec emax : Z.
Hypothesis Hprec : 0 < prec.

Local Abbreviation emin := (emin prec emax).

Lemma binary_round_nrm sx mx ex lo hi :
  emin + prec <= lo -> hi + 1 <= emax ->
  lo <= Zpos (digits2_pos mx) + ex <= hi ->
  nrm prec sx lo (hi + 1) (binary_round prec emax sx mx ex).
Proof.
  intros Hlo Hhi HM.
  destruct (binary_round_normal prec emax Hprec sx mx ex) as (m & e & R1 & R2 & R3); try lia.
  exists m, e. repeat split; trivial; lia.
Qed.

Lemma binary_round_shape sx mx ex :
  (exists m' e', binary_round prec emax sx mx ex = S754_finite sx m' e') \/
  binary_round prec emax sx mx ex = S754_zero sx \/
  binary_round prec emax sx mx ex = S754_infinity sx.
Proof.
  unfold binary_round. destruct (shl_align _ _ _) as [mz ez].
  apply binary_round_aux_shape; lia.
Qed.

(** Integers. *)
Lemma binary_normalize_nrm z k :
  0 < z < 2 ^ k -> emin + prec <= 1 -> k + 1 <= emax ->
  nrm prec false 1 (k + 1) (binary_normalize prec emax z 0 false).
Proof.
  intros [Hz Hk] Hlo Hhi. destruct z as [|p|p]; try lia. cbn [binary_normalize].
  pose proof (digits2_pos_bounds p) as [L U].
  assert (0 <= k).
  { destruct (Z.ltb_spec k 0); [|trivial]. rewrite Z.pow_neg_r in Hk; lia. }
  assert (Zpos (digits2_pos p) - 1 < k) by (apply pow2_lt_inv; lia).
  apply binary_round_nrm; lia.
Qed.

(** Multiplication. *)
Lemma SFmul_nrm sx sy a1 b1 a2 b2 x y :
  nrm prec sx a1 b1 x -> nrm prec sy a2 b2 y ->
  emin + prec <= a1 + a2 - 1 -> b1 + b2 + 1 <= emax ->
  nrm prec (xorb sx sy) (a1 + a2 - 1) (b1 + b2 + 1) (SFmul prec emax x y).
Proof.
  intros (mx & ex & -> & Dx & Rx) (my & ey & -> & Dy & Ry) Hlo Hhi.
  cbn [SFmul].
  pose proof (digits2_pos_bounds mx) as [Lx Ux]. rewrite Dx in Lx, Ux.
  pose proof (digits2_pos_bounds my) as [Ly Uy]. rewrite Dy in Ly, Uy.
  pose proof (digits2_pos_bounds (mx * my)) as [L U].
  set (D := Zpos (digits2_pos (mx * my))) in *.
  rewrite Pos2Z.inj_mul in L, U.
  pose proof (pow2_pos (prec - 1) ltac:(lia)) as P1.
  assert (HD1 : D - 1 < prec + prec).
  { apply pow2_lt_inv; try (subst D; lia).
    rewrite pow2_split by lia. nia. }
  assert (HD2 : prec - 1 + (prec - 1) < D).
  { apply pow2_lt_inv; try (subst D; lia).
    rewrite pow2_split by lia. nia. }
  destruct (binary_round_aux_normal prec emax Hprec (xorb sx sy) (mx * my) (ex + ey) loc_Exact)
    as (m & e & R1 & R2 & R3); fold D; try lia.
  exists m, e. repeat split; trivial; lia.
Qed.

(** Division. *)
Lemma SFdiv_nrm sx sy a1 b1 a2 b2 x y :
  nrm prec sx a1 b1 x -> nrm prec sy a2 b2 y ->
  emin + prec <= a1 - b2 -> b1 - a2 + 2 <= emax ->
  nrm prec (xorb sx sy) (a1 - b2) (b1 - a2 + 2) (SFdiv prec emax x y).
Proof.
  intros (mx & ex & -> & Dx & Rx) (my & ey & -> & Dy & Ry) Hlo Hhi.
  cbn [SFdiv]. unfold SFdiv_core_binary. cbn [Zdigits2]. rewrite Dx, Dy.
  assert (F : fexp prec emax (prec + ex - (prec + ey)) = ex - ey - prec)
    by (unfold fexp; lia).
  rewrite F. replace (Z.min (ex - ey - prec) (ex - ey)) with (ex - ey - prec) by lia.
  replace (ex - ey - (ex - ey - prec)) with prec by lia.
  pose proof (digits2_pos_bounds mx) as [Lx Ux]. rewrite Dx in Lx, Ux.
  pose proof (digits2_pos_bounds my) as [Ly Uy]. rewrite Dy in Ly, Uy.
  pose proof (pow2_pos (prec - 1) ltac:(lia)) as P1.
  assert (P2 : 2 ^ prec = 2 * 2 ^ (prec - 1)).
  { replace prec with (Z.succ (prec - 1)) at 1 by lia. apply Z.pow_succ_r. lia. }
  assert (P3 : 2 ^ (prec + 1) = 2 * 2 ^ prec).
  { replace (prec + 1) with (Z.succ prec) by lia. apply Z.pow_succ_r. lia. }
  assert (Em : match prec with
               | 0 => Zpos mx
               | Zpos _ => Z.shiftl (Zpos mx) prec
               | Zneg _ => 0
               end = Zpos mx * 2 ^ prec).
  { destruct prec eqn:Ep; try lia. rewrite Z.shiftl_mul_pow2; lia. }
  rewrite Em.
  assert (Eq : fst (Z.div_eucl (Zpos mx * 2 ^ prec) (Zpos my)) = Zpos mx * 2 ^ prec / Zpos my)
    by reflexivity.
  destruct (Z.div_eucl (Zpos mx * 2 ^ prec) (Zpos my)) as [q r]. cbn [fst] in Eq.
  assert (Bq : 2 ^ (prec - 1) <= q < 2 ^ (prec + 1)).
  { rewrite Eq. split.
    - apply Z.div_le_lower_bound; [lia|]. nia.
    - apply Z.div_lt_upper_bound; [lia|]. nia. }
  destruct q as [|pq|pq]; try lia.
  pose proof (digits2_pos_bounds pq) as [L U].
  set (D := Zpos (digits2_pos pq)) in *.
  assert (HD1 : D - 1 < prec + 1) by (apply pow2_lt_inv; try (subst D; lia)).
  assert (HD2 : prec - 1 < D) by (apply pow2_lt_inv; try (subst D; lia)).
  destruct (binary_round_aux_normal prec emax Hprec (xorb sx sy) pq (ex - ey - prec)
              (new_location (Zpos my) r))
    as (m & e & R1 & R2 & R3); fold D; try lia.
  exists m, e. repeat split; trivial; lia.
Qed.

End Operations.

Section Addition.

Variables prec emax : Z.
Hypothesis Hprec : 0 < prec.

Local Abbreviation emin := (emin prec emax).

(** Sum of two normal numbers of the same sign. *)
Lemma SFadd_nrm_same s a1 b1 a2 b2 x y :
  nrm prec s a1 b1 x -> nrm prec s a2 b2 y ->
  emin + prec <= Z.max a1 a2 -> Z.max b1 b2 + 2 <= emax ->
  nrm prec s (Z.max a1 a2) (Z.max b1 b2 + 2) (SFadd prec emax x y).
Proof.
  intros (mx & ex & -> & Dx & Rx) (my & ey & -> & Dy & Ry) Hlo Hhi.
  cbn [SFadd].
  set (ez := Z.min ex ey).
  pose proof (shl_align_spec mx ex ez) as [A1 _].
  pose proof (shl_align_spec my ey ez) as [A2 _].
  set (ax := fst (shl_align mx ex ez)) in *.
  set (ay := fst (shl_align my ey ez)) in *.
  clearbody ax ay.
  assert (Kx : exists kx, 0 <= kx /\ ex = ez + kx /\ Z.max (ex - ez) 0 = kx)
    by (exists (ex - ez); lia).
  assert (Ky : exists ky, 0 <= ky /\ ey = ez + ky /\ Z.max (ey - ez) 0 = ky)
    by (exists (ey - ez); lia).
  destruct Kx as (kx & Kx0 & Kx & Ekx). destruct Ky as (ky & Ky0 & Ky & Eky).
  rewrite Ekx in A1. rewrite Eky in A2.
  assert (Hb : prec + ez + kx <= Z.max b1 b2 /\ prec + ez + ky <= Z.max b1 b2 /\
               (Z.max a1 a2 <= prec + ez + kx \/ Z.max a1 a2 <= prec + ez + ky)) by lia.
  clear Ekx Eky Rx Ry.
  generalize dependent (Z.max b1 b2). generalize dependent (Z.max a1 a2).
  intros lo Hlo hi Hhi (Hb1 & Hb2 & Hb3).
  clearbody ez.
  assert (Dax : Zpos (digits2_pos ax) = prec + kx).
  { rewrite <- Dx. apply digits2_pos_shift; trivial. }
  assert (Day : Zpos (digits2_pos ay) = prec + ky).
  { rewrite <- Dy. apply digits2_pos_shift; trivial. }
  pose proof (digits2_pos_bounds ax) as [Lx Ux]. rewrite Dax in Lx, Ux.
  pose proof (digits2_pos_bounds ay) as [Ly Uy]. rewrite Day in Ly, Uy.
  pose proof (digits2_pos_bounds (ax + ay)) as [L U].
  remember (Zpos (digits2_pos (ax + ay))) as D eqn:ED.
  rewrite Pos2Z.inj_add in L, U.
  assert (Px : 0 < 2 ^ (prec + kx - 1)) by (apply pow2_pos; lia).
  assert (Py : 0 < 2 ^ (prec + ky - 1)) by (apply pow2_pos; lia).
  assert (HD0 : 0 < D) by (subst D; lia).
  assert (HD1 : prec + kx - 1 < D) by (apply pow2_lt_inv; lia).
  assert (HD2 : prec + ky - 1 < D) by (apply pow2_lt_inv; lia).
  assert (HD3 : D - 1 < Z.max kx ky + prec + 1).
  { apply pow2_lt_inv; try lia.
    assert (2 ^ (prec + kx) <= 2 ^ (Z.max kx ky + prec)) by (apply pow2_le; lia).
    assert (2 ^ (prec + ky) <= 2 ^ (Z.max kx ky + prec)) by (apply pow2_le; lia).
    rewrite Z.pow_add_r by lia. change (2 ^ 1) with 2. lia. }
  assert (R : nrm prec s lo (hi + 1 + 1) (binary_round prec emax s (ax + ay) ez)).
  { apply binary_round_nrm; trivial; rewrite <- ?ED; lia. }
  replace (hi + 1 + 1) with (hi + 2) in R by lia.
  destruct s; cbn [cond_Zopp Z.opp Z.add binary_normalize]; exact R.
Qed.

(** A positive number plus a negative number of larger magnitude is
    negative: finite, a negative zero or minus infinity, never a NaN. *)
Lemma SFadd_dominated a1 b1 a2 b2 x y :
  nrm prec false a1 b1 x -> nrm prec true a2 b2 y -> b1 < a2 ->
  sign_of (SFadd prec emax x y) = true /\
  match SFadd prec emax x y with S754_nan => False | _ => True end.
Proof.
  intros (mx & ex & -> & Dx & Rx) (my & ey & -> & Dy & Ry) Hlt.
  cbn [SFadd].
  set (ez := Z.min ex ey).
  pose proof (shl_align_spec mx ex ez) as [A1 _].
  pose proof (shl_align_spec my ey ez) as [A2 _].
  set (ax := fst (shl_align mx ex ez)) in *.
  set (ay := fst (shl_align my ey ez)) in *.
  assert (Dax : Zpos (digits2_pos ax) = prec + Z.max (ex - ez) 0).
  { rewrite <- Dx. apply digits2_pos_shift; trivial. lia. }
  assert (Day : Zpos (digits2_pos ay) = prec + Z.max (ey - ez) 0).
  { rewrite <- Dy. apply digits2_pos_shift; trivial. lia. }
  pose proof (digits2_pos_bounds ax) as [Lx Ux]. rewrite Dax in Lx, Ux.
  pose proof (digits2_pos_bounds ay) as [Ly Uy]. rewrite Day in Ly, Uy.
  assert (Hax : Zpos ax < Zpos ay).
  { assert (2 ^ (prec + Z.max (ex - ez) 0) <= 2 ^ (prec + Z.max (ey - ez) 0 - 1))
      by (apply pow2_le; lia).
    lia. }
  cbn [cond_Zopp].
  destruct (Zpos ax + - Zpos ay) as [|p|p] eqn:E; try lia.
  cbn [binary_normalize].
  destruct (binary_round_shape prec emax true p ez) as [(m' & e' & ->)|[->| ->]];
    cbn; auto.
Qed.

End Addition.

(** Comparison. *)
Lemma SFcompare_antisym x y c :
  SFcompare x y = Some c -> SFcompare y x = Some (CompOpp c).
Proof.
  destruct x as [sx|sx| |sx mx ex], y as [sy|sy| |sy my ey]; cbn [SFcompare];
    try discriminate; try (intros [= <-]; try destruct sx; try destruct sy; reflexivity).
  intros [= <-]. f_equal.
  change (Pos.compare_cont Eq mx my) with (Pos.compare mx my).
  change (Pos.compare_cont Eq my mx) with (Pos.compare my mx).
  rewrite (Z.compare_antisym ex ey), (Pos.compare_antisym mx my).
  destruct sx, sy; try reflexivity;
    destruct (ex ?= ey); cbn [CompOpp]; try reflexivity;
    destruct (mx ?= my)%positive; reflexivity.
Qed.

Lemma SFcompare_refl x :
  x <> S754_nan -> SFcompare x x = Some Eq.
Proof.
  destruct x as [sx|sx| |sx mx ex]; cbn [SFcompare]; try congruence.
  - destruct sx; reflexivity.
  - intros _. rewrite Z.compare_refl.
    change (Pos.compare_cont Eq mx mx) with (Pos.compare mx mx).
    rewrite Pos.compare_refl. destruct sx; reflexivity.
Qed.

Lemma SFcompare_not_nan x y :
  x <> S754_nan -> y <> S754_nan -> exists c, SFcompare x y = Some c.
Proof.
  destruct x as [sx|sx| |sx mx ex], y as [sy|sy| |sy my ey]; cbn [SFcompare];
    try congruence; eauto.
Qed.

Lemma digits2_pos_le p q :
  Zpos p <= Zpos q -> Zpos (digits2_pos p) <= Zpos (digits2_pos q).
Proof.
  intros H. pose proof (digits2_pos_bounds p) as [Lp _].
  pose proof (digits2_pos_bounds q) as [_ Uq].
  assert (Zpos (digits2_pos p) - 1 < Zpos (digits2_pos q)) by (apply pow2_lt_inv; lia).
  lia.
Qed.

Lemma shl_align_noop mx ex ex' : ex <= ex' -> shl_align mx ex ex' = (mx, ex).
Proof.
  intros H. unfold shl_align. destruct (ex' - ex) as [|d|d] eqn:E; trivial. lia.
Qed.

(** Order of positive finite numbers: exponent first, then mantissa. *)
Lemma SFcompare_pos_le m e m' e' :
  e < e' \/ (e = e' /\ Zpos m <= Zpos m') <->
  SFcompare (S754_finite false m e) (S754_finite false m' e') = Some Lt \/
  SFcompare (S754_finite false m e) (S754_finite false m' e') = Some Eq.
Proof.
  cbn [SFcompare].
  change (Pos.compare_cont Eq m m') with (Zpos m ?= Zpos m').
  destruct (Z.compare_spec e e'); destruct (Z.compare_spec (Zpos m) (Zpos m'));
    split; intros H'; try lia; auto;
    destruct H' as [H'|H']; try discriminate H'; try lia.
Qed.

Section MixedAddition.

Variables prec emax : Z.
Hypothesis Hprec : 0 < prec.

Local Abbreviation emin := (emin prec emax).

(** Adding a negative number to a positive one does not increase it:
    the sum is a zero, a negative number, or a positive normal number
    that is at most the positive operand. *)
Lemma SFadd_negative_cases a1 b1 a2 b2 x y :
  nrm prec false a1 b1 x -> nrm prec true a2 b2 y ->
  emin + 2 * prec - 1 <= Z.min a1 a2 -> b1 + 1 <= emax ->
  SFadd prec emax x y = S754_zero false \/
  (sign_of (SFadd prec emax x y) = true /\ SFadd prec emax x y <> S754_nan) \/
  (nrm prec false (Z.min a1 a2 - prec + 1) (b1 + 1) (SFadd prec emax x y) /\
   (SFcompare (SFadd prec emax x y) x = Some Lt \/
    SFcompare (SFadd prec emax x y) x = Some Eq)).
Proof.
  intros (mx & ex & -> & Dx & Rx) (my & ey & -> & Dy & Ry) Hlo Hhi.
  cbn [SFadd].
  set (ez := Z.min ex ey).
  pose proof (shl_align_spec mx ex ez) as [A1 _].
  pose proof (shl_align_spec my ey ez) as [A2 _].
  set (ax := fst (shl_align mx ex ez)) in *.
  set (ay := fst (shl_align my ey ez)) in *.
  replace (Z.max (ex - ez) 0) with (ex - ez) in A1 by lia.
  assert (Dax : Zpos (digits2_pos ax) = prec + (ex - ez)).
  { rewrite <- Dx. apply digits2_pos_shift; trivial. lia. }
  cbn [cond_Zopp].
  destruct (Zpos ax + - Zpos ay) as [|p|p] eqn:E; cbn [binary_normalize].
  - left. reflexivity.
  - (* a positive difference, smaller than the first operand *)
    right. right.
    assert (Hp : Zpos p < Zpos ax) by lia.
    pose proof (digits2_pos_le p ax ltac:(lia)) as HD.
    set (D := Zpos (digits2_pos p)) in *.
    assert (0 < D) by (subst D; lia).
    destruct (Z.ltb_spec D prec) as [Hs|Hs].
    + destruct (binary_round_exact prec emax false p ez) as (m & -> & _ & Dm);
        fold D; try lia.
      split.
      * exists m, (D + ez - prec). repeat split; trivial; lia.
      * apply SFcompare_pos_le. left. lia.
    + unfold binary_round. fold D.
      rewrite shl_align_noop by (unfold fexp; lia).
      destruct (binary_round_aux_cases prec emax Hprec false p ez loc_Exact)
        as (m & e & -> & Dm & C); fold D; try lia.
      fold D in C.
      assert (Hq : D = prec + (ex - ez) -> Zpos p / 2 ^ (D - prec) < Zpos mx).
      { intros ->. replace (prec + (ex - ez) - prec) with (ex - ez) by lia.
        apply Z.div_lt_upper_bound; [apply pow2_pos; lia|]. lia. }
      pose proof (digits2_pos_bounds mx) as [Lx Ux]. rewrite Dx in Lx, Ux.
      split.
      * exists m, e. repeat split; trivial; lia.
      * apply SFcompare_pos_le. destruct C as [(-> & Cm)|(-> & Cm & Cq)]; lia.
  - (* a negative difference *)
    right. left.
    destruct (binary_round_shape prec emax true p ez) as [(m' & e' & ->)|[->| ->]];
      split; try reflexivity; discriminate.
Qed.

End MixedAddition.

Section PositiveAddition.

Variables prec emax : Z.
Hypothesis Hprec : 0 < prec.

Local Abbreviation emin := (emin prec emax).

(** Adding a positive number to a positive one does not decrease it. *)
Lemma SFadd_positive_ge a1 b1 a2 b2 x y :
  nrm prec false a1 b1 x -> nrm prec false a2 b2 y ->
  emin + prec <= Z.max a1 a2 -> Z.max b1 b2 + 2 <= emax ->
  SFcompare x (SFadd prec emax x y) = Some Lt \/
  SFcompare x (SFadd prec emax x y) = Some Eq.
Proof.
  intros (mx & ex & -> & Dx & Rx) (my & ey & -> & Dy & Ry) Hlo Hhi.
  cbn [SFadd].
  set (ez := Z.min ex ey).
  pose proof (shl_align_spec mx ex ez) as [A1 _].
  pose proof (shl_align_spec my ey ez) as [A2 _].
  set (ax := fst (shl_align mx ex ez)) in *.
  set (ay := fst (shl_align my ey ez)) in *.
  clearbody ax ay.
  assert (Kx : exists kx, 0 <= kx /\ ex = ez + kx /\ Z.max (ex - ez) 0 = kx)
    by (exists (ex - ez); lia).
  assert (Ky : exists ky, 0 <= ky /\ ey = ez + ky /\ Z.max (ey - ez) 0 = ky)
    by (exists (ey - ez); lia).
  destruct Kx as (kx & Kx0 & Kx & Ekx). destruct Ky as (ky & Ky0 & Ky & Eky).
  rewrite Ekx in A1. rewrite Eky in A2.
  assert (Hb : prec + ez + kx <= Z.max b1 b2 /\ prec + ez + ky <= Z.max b1 b2 /\
               (Z.max a1 a2 <= prec + ez + kx \/ Z.max a1 a2 <= prec + ez + ky)) by lia.
  assert (Hlo' : emin + prec <= Z.max a1 a2) by lia.
  clear Ekx Eky Rx Ry Hlo.
  generalize dependent (Z.max b1 b2). generalize dependent (Z.max a1 a2).
  intros lo Hlo hi Hhi (Hb1 & Hb2 & Hb3).
  clearbody ez.
  assert (Dax : Zpos (digits2_pos ax) = prec + kx).
  { rewrite <- Dx. apply digits2_pos_shift; trivial. }
  assert (Day : Zpos (digits2_pos ay) = prec + ky).
  { rewrite <- Dy. apply digits2_pos_shift; trivial. }
  pose proof (digits2_pos_bounds ax) as [Lx Ux]. rewrite Dax in Lx, Ux.
  pose proof (digits2_pos_bounds ay) as [Ly Uy]. rewrite Day in Ly, Uy.
  assert (Hp : exists p, Zpos p = Zpos ax + Zpos ay /\ (ax + ay)%positive = p)
    by (exists (ax + ay)%positive; split; [apply Pos2Z.inj_add | reflexivity]).
  destruct Hp as (p & Hp & Ep).
  cbn [cond_Zopp Z.add binary_normalize]. rewrite Ep. clear Ep.
  pose proof (digits2_pos_bounds p) as [L U].
  remember (Zpos (digits2_pos p)) as D eqn:ED.
  rewrite Hp in L, U.
  assert (Px : 0 < 2 ^ (prec + kx - 1)) by (apply pow2_pos; lia).
  assert (Py : 0 < 2 ^ (prec + ky - 1)) by (apply pow2_pos; lia).
  assert (HD0 : 0 < D) by (subst D; lia).
  assert (HD1 : prec + kx - 1 < D) by (apply pow2_lt_inv; lia).
  assert (HD2 : prec + ky - 1 < D) by (apply pow2_lt_inv; lia).
  assert (HD3 : D - 1 < Z.max kx ky + prec + 1).
  { apply pow2_lt_inv; try lia.
    assert (2 ^ (prec + kx) <= 2 ^ (Z.max kx ky + prec)) by (apply pow2_le; lia).
    assert (2 ^ (prec + ky) <= 2 ^ (Z.max kx ky + prec)) by (apply pow2_le; lia).
    rewrite Z.pow_add_r by lia. change (2 ^ 1) with 2. lia. }
  unfold binary_round. rewrite <- ED.
  rewrite shl_align_noop by (unfold fexp; lia).
  destruct (binary_round_aux_cases prec emax Hprec false p ez loc_Exact)
    as (m & e & Er & Dm & C); rewrite <- ?ED; try lia.
  rewrite Er. rewrite <- ED in C.
  apply SFcompare_pos_le.
  destruct C as [(Ee & Cm & _)|(Ee & _)]; [|lia].
  destruct (Z.eq_dec D (prec + kx)) as [EDk|ND]; [|lia].
  right. split; [lia|].
  rewrite EDk in Cm. replace (prec + kx - prec) with kx in Cm by lia.
  assert (Zpos mx <= Zpos p / 2 ^ kx); [|lia].
  apply Z.div_le_lower_bound; [apply pow2_pos; lia|].
  rewrite Hp. lia.
Qed.

End PositiveAddition.

(* ================================================================== *)
(** * binary32 and binary64 *)

Lemma fprec_pos : 0 < fprec.
Proof. reflexivity. Qed.

Lemma dprec_pos : 0 < dprec.
Proof. reflexivity. Qed.

Lemma nrm_not_nan prec s lo hi x : nrm prec s lo hi x -> x <> S754_nan.
Proof. intros (m & e & -> & _). discriminate. Qed.

Lemma nrm_exact prec s lo hi x :
  nrm prec s lo hi x -> exists M, lo <= M <= hi /\ nrm prec s M M x.
Proof.
  intros (m & e & E & D & R). exists (prec + e). split; [trivial|].
  exists m, e. repeat split; trivial; lia.
Qed.

Ltac format_side :=
  try reflexivity;
  try (unfold emin, fprec, femax, dprec, demax in *; lia).

Lemma fdiv_nrm sx sy a1 b1 a2 b2 x y :
  nrm fprec sx a1 b1 x -> nrm fprec sy a2 b2 y ->
  -125 <= a1 - b2 -> b1 - a2 + 2 <= 128 ->
  nrm fprec (xorb sx sy) (a1 - b2) (b1 - a2 + 2) (fdiv x y).
Proof. intros. apply SFdiv_nrm; trivial; format_side. Qed.

Lemma ddiv_nrm sx sy a1 b1 a2 b2 x y :
  nrm dprec sx a1 b1 x -> nrm dprec sy a2 b2 y ->
  -1021 <= a1 - b2 -> b1 - a2 + 2 <= 1024 ->
  nrm dprec (xorb sx sy) (a1 - b2) (b1 - a2 + 2) (ddiv x y).
Proof. intros. apply SFdiv_nrm; trivial; format_side. Qed.

Lemma dmul_nrm sx sy a1 b1 a2 b2 x y :
  nrm dprec sx a1 b1 x -> nrm dprec sy a2 b2 y ->
  -1021 <= a1 + a2 - 1 -> b1 + b2 + 1 <= 1024 ->
  nrm dprec (xorb sx sy) (a1 + a2 - 1) (b1 + b2 + 1) (dmul x y).
Proof. intros. apply SFmul_nrm; trivial; format_side. Qed.

Lemma dadd_nrm_same s a1 b1 a2 b2 x y :
  nrm dprec s a1 b1 x -> nrm dprec s a2 b2 y ->
  -1021 <= Z.max a1 a2 -> Z.max b1 b2 + 2 <= 1024 ->
  nrm dprec s (Z.max a1 a2) (Z.max b1 b2 + 2) (dadd x y).
Proof. intros. apply SFadd_nrm_same; trivial; format_side. Qed.

(** Sizes and percentages as floating-point numbers. *)
Lemma Z_to_float_size z :
  0 < z < SIZE_MOD -> nrm fprec false 1 65 (Z_to_float z).
Proof.
  intros H. apply (binary_normalize_nrm fprec femax fprec_pos z 64); trivial; format_side.
Qed.

Lemma Z_to_double_percent z :
  0 < z < 1000 -> nrm dprec false 1 11 (Z_to_double z).
Proof.
  intros H. apply (binary_normalize_nrm dprec demax dprec_pos z 10); format_side.
Qed.

Lemma Z_to_double_negative_percent z :
  -1000 < z < 0 -> nrm dprec true 1 11 (Z_to_double z).
Proof.
  intros H. destruct z as [|p|p]; try lia.
  unfold Z_to_double. cbn [binary_normalize].
  pose proof (digits2_pos_bounds p) as [L U].
  assert (Zpos (digits2_pos p) - 1 < 10).
  { apply pow2_lt_inv; lia. }
  apply (binary_round_nrm dprec demax dprec_pos true p 0 1 10); format_side.
Qed.

(** Widening is exact. *)
Lemma f2d_finite s m e :
  Zpos (digits2_pos m) = fprec -> -1021 <= fprec + e <= 1024 ->
  exists m',
    f2d (S754_finite s m e) = S754_finite s m' (e - 29) /\
    Zpos m' = Zpos m * 2 ^ 29 /\ Zpos (digits2_pos m') = dprec.
Proof.
  intros D R. cbn [f2d].
  destruct (binary_round_exact dprec demax s m e) as (m' & E1 & E2 & E3);
    rewrite ?D; format_side.
  exists m'. rewrite E1, E2, D. repeat split; trivial. f_equal. format_side.
Qed.

Lemma f2d_nrm s lo hi x :
  nrm fprec s lo hi x -> -1021 <= lo -> hi <= 1024 -> nrm dprec s lo hi (f2d x).
Proof.
  intros (m & e & -> & D & R) Hlo Hhi.
  destruct (f2d_finite s m e D ltac:(lia)) as (m' & E1 & E2 & E3).
  exists m', (e - 29). repeat split; trivial; format_side.
Qed.

Lemma d2f_nrm s lo hi x :
  nrm dprec s lo hi x -> -125 <= lo -> hi + 1 <= 128 -> nrm fprec s lo (hi + 1) (d2f x).
Proof.
  intros (m & e & -> & D & R) Hlo Hhi. cbn [d2f].
  apply (binary_round_nrm fprec femax fprec_pos); rewrite ?D; trivial; format_side.
Qed.

(** Widening keeps the order of non-negative floats. *)
Lemma ratio32_not_nan x : ratio32 x -> x <> S754_nan.
Proof. intros [->|H]; [discriminate|]. eapply nrm_not_nan; eauto. Qed.

Lemma f2d_ratio32_not_nan x : ratio32 x -> f2d x <> S754_nan.
Proof.
  intros [->|H]; [discriminate|].
  eapply nrm_not_nan. apply f2d_nrm; eauto; lia.
Qed.

Lemma f2d_compare x y :
  ratio32 x -> ratio32 y -> SFcompare (f2d x) (f2d y) = SFcompare x y.
Proof.
  intros [->|(mx & ex & -> & Dx & Rx)] [->|(my & ey & -> & Dy & Ry)].
  - reflexivity.
  - destruct (f2d_finite false my ey Dy ltac:(format_side)) as (m' & -> & _). reflexivity.
  - destruct (f2d_finite false mx ex Dx ltac:(format_side)) as (m' & -> & _). reflexivity.
  - destruct (f2d_finite false mx ex Dx ltac:(format_side)) as (mx' & -> & Ex & _).
    destruct (f2d_finite false my ey Dy ltac:(format_side)) as (my' & -> & Ey & _).
    cbn [SFcompare]. f_equal.
    replace (ex - 29 ?= ey - 29) with (ex ?= ey)
      by (rewrite (Z.compare_sub ex ey), (Z.compare_sub (ex - 29) (ey - 29)); f_equal; lia).
    change (Pos.compare_cont Eq mx' my') with (Zpos mx' ?= Zpos my').
    rewrite Ex, Ey, <- Zmult_compare_compat_r by reflexivity. reflexivity.
Qed.

(* ================================================================== *)
(** * Scale policies *)

Lemma size_wrap_range z : 0 <= size_wrap z < SIZE_MOD.
Proof. unfold size_wrap. apply Z.mod_pos_bound. reflexivity. Qed.

Lemma set_scale_value sc w :
  scale (ctx (set_scale sc w)) =
  policy_scale sc
    (fit_ratio (width (current_pm w)) (size_wrap (ui_width w)))
    (fit_ratio (height (current_pm w)) (size_wrap (ui_height w))).
Proof. destruct sc; reflexivity. Qed.

Lemma d_1_nrm : nrm dprec false 1 1 d_1.
Proof. exists 4503599627370496%positive, (-52). repeat split; format_side. Qed.

Lemma fit_ratio_positive fe we :
  0 < fe < SIZE_MOD -> 0 < we < SIZE_MOD ->
  nrm fprec false (-65) 68 (fit_ratio fe we).
Proof.
  intros Hf Hw. unfold fit_ratio.
  pose proof (fdiv_nrm _ _ _ _ _ _ _ _ (Z_to_float_size fe Hf) (Z_to_float_size we Hw)
                ltac:(lia) ltac:(lia)) as Q.
  cbn [xorb] in Q.
  apply f2d_nrm in Q; try lia.
  pose proof (ddiv_nrm _ _ _ _ _ _ _ _ d_1_nrm Q ltac:(lia) ltac:(lia)) as R.
  cbn [xorb] in R.
  apply d2f_nrm in R; try lia.
  eapply nrm_weaken; eauto; lia.
Qed.

Lemma fit_ratio_class fe we :
  0 < fe < SIZE_MOD -> 0 <= we < SIZE_MOD -> ratio32 (fit_ratio fe we).
Proof.
  intros Hf Hw. destruct (Z.eq_dec we 0) as [->|Hne].
  - left. unfold fit_ratio.
    destruct (Z_to_float_size fe Hf) as (m & e & -> & _). reflexivity.
  - right. apply fit_ratio_positive; lia.
Qed.

Lemma fmin_cases x y : fmin x y = x \/ fmin x y = y.
Proof. unfold fmin. destruct (flt x y); auto. Qed.

Lemma fmax_cases x y : fmax x y = x \/ fmax x y = y.
Proof. unfold fmax. destruct (fgt x y); auto. Qed.

(** On numbers, the smaller of two is at most the larger. *)
Lemma fmin_le_fmax x y :
  x <> S754_nan -> y <> S754_nan ->
  SFcompare (fmin x y) (fmax x y) = Some Lt \/
  SFcompare (fmin x y) (fmax x y) = Some Eq.
Proof.
  intros Hx Hy. destruct (SFcompare_not_nan x y Hx Hy) as [c Hc].
  pose proof (SFcompare_antisym _ _ _ Hc) as Hc'.
  unfold fmin, fmax, flt, fgt, SFltb. rewrite Hc, Hc'.
  destruct c; cbn [CompOpp]; auto.
  right. now apply SFcompare_refl.
Qed.

Lemma not_gt_le x y :
  x <> S754_nan -> y <> S754_nan -> fgt x y = false -> fle x y = true.
Proof.
  intros Hx Hy. destruct (SFcompare_not_nan x y Hx Hy) as [c Hc].
  pose proof (SFcompare_antisym _ _ _ Hc) as Hc'.
  unfold fgt, fle, SFltb, SFleb. rewrite Hc, Hc'.
  destruct c; cbn [CompOpp]; congruence.
Qed.

(** Relations between the policies, on any two ratios. *)
Lemma policy_scale_facts sw sh :
  ratio32 sw -> ratio32 sh ->
  fle (policy_scale scale_fit_optimal sw sh) d_1 = true /\
  feq (policy_scale scale_fit_optimal sw sh)
      (fmin (policy_scale scale_fit_window sw sh) d_1) = true /\
  fle (policy_scale scale_fit_window sw sh)
      (policy_scale scale_fill_window sw sh) = true.
Proof.
  intros Cw Ch. cbn [policy_scale].
  assert (Cmin : ratio32 (fmin sw sh)) by (destruct (fmin_cases sw sh) as [-> | ->]; trivial).
  assert (Cmax : ratio32 (fmax sw sh)) by (destruct (fmax_cases sw sh) as [-> | ->]; trivial).
  pose proof (f2d_ratio32_not_nan _ Cmin) as Nmin.
  set (fit := f2d (fmin sw sh)) in *.
  assert (N1 : d_1 <> S754_nan) by discriminate.
  destruct (SFcompare_not_nan fit d_1 Nmin N1) as [c Hc].
  pose proof (SFcompare_antisym _ _ _ Hc) as Hc'.
  repeat split.
  - unfold fgt, fle, SFltb, SFleb. rewrite Hc'.
    destruct c; cbn [CompOpp]; rewrite ?Hc; reflexivity.
  - unfold fgt, feq, fmin, flt, SFltb, SFeqb. rewrite Hc, Hc'.
    destruct c; cbn [CompOpp]; rewrite ?Hc; trivial.
    now rewrite SFcompare_refl.
  - unfold fle, SFleb. subst fit. rewrite f2d_compare by trivial.
    destruct (fmin_le_fmax sw sh (ratio32_not_nan _ Cw) (ratio32_not_nan _ Ch)) as [-> | ->];
      reflexivity.
Qed.

(** C6: for every window size and every frame of positive size, the
    scale of [optimal] is at most 1.0 and equals min(fit, 1.0), the
    scale of [fill] is at least that of [fit], and the scale of [real]
    is exactly 1.0. *)
Theorem policy_scale_relations (w : world) :
  frame_size_ok (current_pm w) ->
  fle (scale (ctx (set_scale scale_fit_optimal w))) d_1 = true /\
  feq (scale (ctx (set_scale scale_fit_optimal w)))
      (fmin (scale (ctx (set_scale scale_fit_window w))) d_1) = true /\
  fle (scale (ctx (set_scale scale_fit_window w)))
      (scale (ctx (set_scale scale_fill_window w))) = true /\
  scale (ctx (set_scale scale_real_size w)) = d_1.
Proof.
  intros [Hw Hh]. rewrite !set_scale_value.
  pose proof (fit_ratio_class _ _ Hw (size_wrap_range (ui_width w))) as Cw.
  pose proof (fit_ratio_class _ _ Hh (size_wrap_range (ui_height w))) as Ch.
  destruct (policy_scale_facts _ _ Cw Ch) as (F1 & F2 & F3).
  repeat split; assumption.
Qed.

Lemma policy_scale_relations_witness :
  let w := world_of (viewer_at 0 0 false position_center d_1) 0 480
             (still_image 800 600) in
  fle (scale (ctx (set_scale scale_fit_optimal w))) d_1 = true /\
  feq (scale (ctx (set_scale scale_fit_optimal w)))
      (fmin (scale (ctx (set_scale scale_fit_window w))) d_1) = true /\
  fle (scale (ctx (set_scale scale_fit_window w)))
      (scale (ctx (set_scale scale_fill_window w))) = true /\
  scale (ctx (set_scale scale_real_size w)) = d_1.
Proof.
  apply (policy_scale_relations
           (world_of (viewer_at 0 0 false position_center d_1) 0 480
              (still_image 800 600))).
  repeat split.
Defined.

(* ================================================================== *)
(** * Zoom *)

Lemma MAX_SCALE_nrm : nrm dprec false 7 7 MAX_SCALE.
Proof. exists 7036874417766400%positive, (-46). repeat split; format_side. Qed.

Lemma scale_in_range_nrm s : scale_in_range s -> nrm dprec false (-65) 7 s.
Proof.
  intros (V & L & U).
  destruct s as [sg|sg| |sg m e]; try discriminate; try (destruct sg; discriminate).
  destruct sg; [discriminate|].
  unfold fle, SFleb, SCALE_FLOOR, MAX_SCALE in L, U.
  cbn [SFcompare Z_to_double] in L. 
  change (Z_to_double 100) with (S754_finite false 7036874417766400 (-46)) in U.
  cbn [SFcompare] in U.
  assert (L' : -118 <= e).
  { destruct (Z.compare_spec (-118) e); try lia; discriminate. }
  assert (U' : e <= -46).
  { destruct (Z.compare_spec e (-46)); try lia; discriminate. }
  cbn [valid_binary] in V. unfold bounded, canonical_mantissa in V.
  apply andb_prop in V. destruct V as [V _]. apply Z.eqb_eq in V.
  unfold fexp, emin, dprec, demax in V.
  exists m, e. repeat split; format_side.
Qed.

(** The magnitude of a normal double decides how it compares to 100. *)
Lemma not_above_max_mag m e :
  fgt (S754_finite false m e) MAX_SCALE = false -> e <= -46.
Proof.
  unfold fgt, SFltb.
  change MAX_SCALE with (S754_finite false 7036874417766400 (-46)).
  cbn [SFcompare]. destruct (Z.compare_spec (-46) e); try lia; discriminate.
Qed.

Lemma d100_nrm : nrm dprec false 7 7 (Z_to_double 100).
Proof. exact MAX_SCALE_nrm. Qed.

(** The zoom step has the sign of the percentage and, for a scale of
    magnitude in [a, b], a magnitude in [a - 7 + p1 - 1, b - 5 + p2 + 2]. *)
Lemma zoom_step_nrm sg percent p1 p2 s a b :
  nrm dprec false a b s -> -65 <= a -> b <= 7 ->
  nrm dprec sg p1 p2 (Z_to_double percent) -> 1 <= p1 -> p2 <= 11 ->
  nrm dprec sg (a - 7 + p1 - 1) (b - 5 + p2 + 2) (f2d (zoom_step percent s)).
Proof.
  intros Hs Ha Hb Hp H1 H2. unfold zoom_step.
  pose proof (ddiv_nrm _ _ _ _ _ _ _ _ Hs d100_nrm ltac:(lia) ltac:(lia)) as Q.
  cbn [xorb] in Q.
  pose proof (dmul_nrm _ _ _ _ _ _ _ _ Q Hp ltac:(lia) ltac:(lia)) as T.
  cbn [xorb] in T.
  apply d2f_nrm in T; try lia.
  apply f2d_nrm in T; try lia.
  eapply nrm_weaken; eauto; lia.
Qed.

Lemma d900_nrm : nrm dprec false 10 10 (Z_to_double 900).
Proof. exists 7916483719987200%positive, (-43). repeat split; format_side. Qed.

Lemma dm900_nrm : nrm dprec true 10 10 (Z_to_double (-900)).
Proof. exists 7916483719987200%positive, (-43). repeat split; format_side. Qed.

(** One zoom by +900%: the scale is clamped to [MAX_SCALE], or its
    magnitude grows by two binary orders at least. *)
Lemma zoom_in_900_step p s a :
  nrm dprec false a 7 s -> -65 <= a ->
  zoom_scale 900 p s = MAX_SCALE \/ nrm dprec false (a + 2) 7 (zoom_scale 900 p s).
Proof.
  intros Hs Ha. unfold zoom_scale. cbn [Z.ltb Z.compare].
  pose proof (zoom_step_nrm false 900 10 10 s a 7 Hs Ha ltac:(lia) d900_nrm ltac:(lia) ltac:(lia)) as T.
  pose proof (dadd_nrm_same _ _ _ _ _ _ _ Hs T ltac:(lia) ltac:(lia)) as R.
  destruct (fgt (dadd s (f2d (zoom_step 900 s))) MAX_SCALE) eqn:G; [now left|right].
  destruct R as (m & e & E & D & R). rewrite E in *.
  apply not_above_max_mag in G.
  exists m, e. repeat split; format_side.
Qed.

Lemma zoom_in_900_at_max p : zoom_scale 900 p MAX_SCALE = MAX_SCALE.
Proof. vm_compute. reflexivity. Qed.

Lemma zoom_in_900_stays n p : Nat.iter n (zoom_scale 900 p) MAX_SCALE = MAX_SCALE.
Proof.
  induction n as [|n IH]; [reflexivity|].
  rewrite Nat.iter_succ, IH. apply zoom_in_900_at_max.
Qed.

Lemma zoom_in_900_converges p n : forall a s,
  nrm dprec false a 7 s -> -65 <= a -> 7 - a < 2 * Z.of_nat n ->
  Nat.iter n (zoom_scale 900 p) s = MAX_SCALE.
Proof.
  induction n as [|n IH]; intros a s Hs Ha Hn.
  - destruct Hs as (m & e & _ & _ & R). lia.
  - rewrite Nat.iter_succ_r.
    destruct (zoom_in_900_step p s a Hs Ha) as [-> | H].
    + apply zoom_in_900_stays.
    + apply (IH (a + 2)); trivial; lia.
Qed.

(** One zoom by -900% on a 20x20 frame lands on the lower bound 0.5. *)
Lemma zoom_out_900_step s :
  nrm dprec false (-65) 7 s ->
  zoom_scale (-900) {| width := 20; height := 20 |} s = d_half.
Proof.
  intros Hs. destruct (nrm_exact _ _ _ _ _ Hs) as (M & HM & Hs').
  unfold zoom_scale. cbn [Z.ltb Z.compare].
  change (f2d (scale_min {| width := 20; height := 20 |})) with d_half.
  pose proof (zoom_step_nrm true (-900) 10 10 s M M Hs' ltac:(lia) ltac:(lia) dm900_nrm
                ltac:(lia) ltac:(lia)) as T.
  destruct (SFadd_dominated dprec demax _ _ _ _ _ _ Hs' T ltac:(lia)) as [Sg Nn].
  fold dadd in Sg, Nn.
  destruct (dadd s (f2d (zoom_step (-900) s))) as [sg|sg| |sg m e];
    cbn [sign_of] in Sg; try subst sg; try contradiction; reflexivity.
Qed.

Lemma zoom_out_900_at_half :
  zoom_scale (-900) {| width := 20; height := 20 |} d_half = d_half.
Proof. vm_compute. reflexivity. Qed.

(** [zoom_image] with a percentage: the scale goes through [zoom_scale],
    the image and the frame index are left alone. *)
Lemma zoom_image_percent str_to_num p percent w :
  denotes_percent str_to_num p percent ->
  valid_zoom_percent (Some percent) = true ->
  zoom_image str_to_num (Some p) w =
  app_redraw
    (info_update info_scale
       (fmt_percent (dmul (zoom_scale percent (current_pm w) (scale (ctx w)))
                          (Z_to_double 100)))
       (fixup_position false (zoom_percent percent w))).
Proof.
  intros (Ht & Hi & Hp) Hv. unfold zoom_image. rewrite Ht, Hp.
  destruct (Z.leb_spec 0 (str_index scale_names p)); [lia|].
  cbn [valid_zoom_percent] in Hv. rewrite Hv. reflexivity.
Qed.

Lemma zoom_image_scale str_to_num p percent w :
  denotes_percent str_to_num p percent ->
  valid_zoom_percent (Some percent) = true ->
  scale (ctx (zoom_image str_to_num (Some p) w)) =
    zoom_scale percent (current_pm w) (scale (ctx w)) /\
  current_pm (zoom_image str_to_num (Some p) w) = current_pm w.
Proof.
  intros Hd Hv. rewrite (zoom_image_percent _ _ _ _ Hd Hv). split; reflexivity.
Qed.

Lemma zoom_image_iter str_to_num p percent n w :
  denotes_percent str_to_num p percent ->
  valid_zoom_percent (Some percent) = true ->
  scale (ctx (Nat.iter n (zoom_image str_to_num (Some p)) w)) =
    Nat.iter n (zoom_scale percent (current_pm w)) (scale (ctx w)) /\
  current_pm (Nat.iter n (zoom_image str_to_num (Some p)) w) = current_pm w.
Proof.
  intros Hd Hv. induction n as [|n [IH1 IH2]]; [split; reflexivity|].
  rewrite !Nat.iter_succ.
  destruct (zoom_image_scale str_to_num p percent
              (Nat.iter n (zoom_image str_to_num (Some p)) w) Hd Hv) as [E1 E2].
  rewrite E1, E2, IH1, IH2. split; reflexivity.
Qed.

(** C7: from any scale between 2^-66 and 100, zooming by +900% again and
    again reaches exactly [MAX_SCALE] (within 37 calls) and stays there;
    on a 20x20 frame, zooming by -900% reaches exactly 0.5 with the
    first call and stays there. *)
Theorem zoom_clamps_converge (str_to_num : string -> option Z)
    (p_in p_out : string) (w : world) :
  scale_in_range (scale (ctx w)) ->
  (denotes_percent str_to_num p_in 900 ->
   forall n, (37 <= n)%nat ->
     scale (ctx (Nat.iter n (zoom_image str_to_num (Some p_in)) w)) = MAX_SCALE) /\
  (denotes_percent str_to_num p_out (-900) ->
   current_pm w = {| width := 20; height := 20 |} ->
   forall n, (1 <= n)%nat ->
     scale (ctx (Nat.iter n (zoom_image str_to_num (Some p_out)) w)) = d_half).
Proof.
  intros Hs. apply scale_in_range_nrm in Hs. split.
  - intros Hd n Hn.
    destruct (zoom_image_iter str_to_num p_in 900 n w Hd eq_refl) as [-> _].
    apply (zoom_in_900_converges _ n (-65)); trivial; lia.
  - intros Hd Hpm n Hn.
    destruct (zoom_image_iter str_to_num p_out (-900) n w Hd eq_refl) as [-> _].
    rewrite Hpm. destruct n as [|n]; [lia|]. clear Hn.
    induction n as [|n IH].
    + cbn [Nat.iter nat_rect]. now apply zoom_out_900_step.
    + rewrite Nat.iter_succ, IH. apply zoom_out_900_at_half.
Qed.

Lemma zoom_clamps_converge_witness :
  let w := world_of (viewer_at 0 0 false position_center d_1) 640 480
             (still_image 20 20) in
  scale (ctx (Nat.iter 37 (zoom_image decimal_str_to_num (Some "+900"%string)) w))
    = MAX_SCALE /\
  scale (ctx (Nat.iter 1 (zoom_image decimal_str_to_num (Some "-900"%string)) w))
    = d_half.
Proof.
  destruct (zoom_clamps_converge decimal_str_to_num "+900" "-900"
              (world_of (viewer_at 0 0 false position_center d_1) 640 480
                 (still_image 20 20))) as [Hin Hout].
  - repeat split.
  - split.
    + apply Hin; [repeat split | apply le_n].
    + apply Hout; [repeat split | reflexivity | apply le_n].
Defined.

(* ================================================================== *)
(** * Bounds on the scale *)

Lemma nrm_valid s lo hi x :
  nrm dprec s lo hi x -> -1021 <= lo -> hi <= 1024 -> valid_binary dprec demax x = true.
Proof.
  intros (m & e & -> & D & R) Hlo Hhi. cbn [valid_binary].
  unfold bounded, canonical_mantissa. rewrite D.
  apply andb_true_intro. split.
  - apply Z.eqb_eq. unfold fexp, emin, dprec, demax in *. lia.
  - apply Z.leb_le. unfold dprec, demax in *. lia.
Qed.

Lemma nrm_above_floor lo hi x :
  nrm dprec false lo hi x -> -65 <= lo -> fle SCALE_FLOOR x = true.
Proof.
  intros (m & e & -> & D & R) Hlo. unfold fle, SFleb, SCALE_FLOOR. cbn [SFcompare].
  destruct (Z.compare_spec (-118) e) as [<-| |]; trivial; [|unfold dprec in *; lia].
  pose proof (digits2_pos_bounds m) as [L _]. rewrite D in L.
  change (Pos.compare_cont Eq 4503599627370496 m) with (4503599627370496 ?= Zpos m).
  change (2 ^ (dprec - 1)) with 4503599627370496 in L.
  destruct (Z.compare_spec 4503599627370496 (Zpos m)); trivial; lia.
Qed.

Lemma nrm_positive prec lo hi x : nrm prec false lo hi x -> flt d_0 x = true.
Proof. intros (m & e & -> & _). reflexivity. Qed.

Lemma nrm_in_range lo x :
  nrm dprec false lo 7 x -> -65 <= lo -> fgt x MAX_SCALE = false -> scale_in_range x.
Proof.
  intros H Hlo G. repeat split.
  - eapply nrm_valid; eauto; lia.
  - eapply nrm_above_floor; eauto.
  - apply not_gt_le; trivial; [eapply nrm_not_nan; eauto | discriminate].
Qed.

Lemma MAX_SCALE_in_range : scale_in_range MAX_SCALE.
Proof. repeat split. Qed.

(** Zooming in keeps the scale between 2^-66 and 100. *)
Lemma zoom_in_in_range percent p s :
  0 < percent < 1000 -> scale_in_range s -> scale_in_range (zoom_scale percent p s).
Proof.
  intros Hp Hs. apply scale_in_range_nrm in Hs. unfold zoom_scale.
  destruct (Z.ltb_spec 0 percent); [|lia].
  pose proof (zoom_step_nrm false percent 1 11 s (-65) 7 Hs ltac:(lia) ltac:(lia)
                (Z_to_double_percent percent Hp) ltac:(lia) ltac:(lia)) as T.
  pose proof (dadd_nrm_same _ _ _ _ _ _ _ Hs T ltac:(lia) ltac:(lia)) as R.
  destruct (fgt (dadd s (f2d (zoom_step percent s))) MAX_SCALE) eqn:G;
    [apply MAX_SCALE_in_range|].
  apply (nrm_in_range (-65)); trivial; [|lia].
  destruct R as (m & e & E & D & R). rewrite E in *.
  apply not_above_max_mag in G.
  exists m, e. repeat split; format_side.
Qed.

Lemma scale_min_nrm p :
  frame_size_ok p -> nrm fprec false (-61) 5 (scale_min p).
Proof.
  intros [Hw Hh]. unfold scale_min.
  assert (T : nrm fprec false 4 4 (Z_to_float MIN_SCALE)).
  { exists 10485760%positive, (-20). repeat split; format_side. }
  pose proof (fdiv_nrm _ _ _ _ _ _ _ _ T (Z_to_float_size _ Hw) ltac:(lia) ltac:(lia)) as Qw.
  pose proof (fdiv_nrm _ _ _ _ _ _ _ _ T (Z_to_float_size _ Hh) ltac:(lia) ltac:(lia)) as Qh.
  cbn [xorb] in Qw, Qh.
  destruct (fmax_cases (fdiv (Z_to_float MIN_SCALE) (Z_to_float (width p)))
                       (fdiv (Z_to_float MIN_SCALE) (Z_to_float (height p)))) as [-> | ->];
    eapply nrm_weaken; eauto; lia.
Qed.

(** With a non-empty window every policy yields a positive normal
    double. *)
Lemma policy_scale_nrm sc sw sh :
  nrm fprec false (-65) 68 sw -> nrm fprec false (-65) 68 sh ->
  nrm dprec false (-65) 68 (policy_scale sc sw sh).
Proof.
  intros Hw Hh.
  assert (Hmin : nrm fprec false (-65) 68 (fmin sw sh))
    by (destruct (fmin_cases sw sh) as [-> | ->]; trivial).
  assert (Hmax : nrm fprec false (-65) 68 (fmax sw sh))
    by (destruct (fmax_cases sw sh) as [-> | ->]; trivial).
  assert (H1 : nrm dprec false (-65) 68 d_1)
    by (eapply nrm_weaken; [apply d_1_nrm | lia | lia]).
  destruct sc; cbn [policy_scale]; trivial; try (apply f2d_nrm; trivial; lia).
  destruct (fgt _ _); [trivial|]. apply f2d_nrm; trivial; lia.
Qed.

(** The order of positive finite numbers is transitive. *)
Lemma pos_le_trans m1 e1 m2 e2 m3 e3 :
  fle (S754_finite false m1 e1) (S754_finite false m2 e2) = true ->
  fle (S754_finite false m2 e2) (S754_finite false m3 e3) = true ->
  fle (S754_finite false m1 e1) (S754_finite false m3 e3) = true.
Proof.
  assert (iff : forall m e m' e',
             fle (S754_finite false m e) (S754_finite false m' e') = true <->
             e < e' \/ (e = e' /\ Zpos m <= Zpos m')).
  { intros m e m' e'. rewrite SFcompare_pos_le. unfold fle, SFleb.
    destruct (SFcompare _ _) as [[]|]; split; intros H; auto; try discriminate;
      destruct H; discriminate. }
  rewrite !iff. lia.
Qed.

Lemma compare_le_fle x y :
  SFcompare x y = Some Lt \/ SFcompare x y = Some Eq -> fle x y = true.
Proof. unfold fle, SFleb. intros [-> | ->]; reflexivity. Qed.

Lemma not_lt_ge x y :
  x <> S754_nan -> y <> S754_nan -> flt x y = false -> fle y x = true.
Proof.
  intros Hx Hy. destruct (SFcompare_not_nan x y Hx Hy) as [c Hc].
  pose proof (SFcompare_antisym _ _ _ Hc) as Hc'.
  unfold flt, fle, SFltb, SFleb. rewrite Hc, Hc'.
  destruct c; cbn [CompOpp]; congruence.
Qed.

Lemma scale_min_in_range p :
  frame_size_ok p -> scale_in_range (f2d (scale_min p)).
Proof.
  intros Hf.
  pose proof (f2d_nrm _ _ _ _ (scale_min_nrm p Hf) ltac:(lia) ltac:(lia)) as Sm.
  repeat split.
  - eapply nrm_valid; eauto; lia.
  - eapply nrm_above_floor; eauto; lia.
  - destruct Sm as (m & e & -> & D & R).
    unfold fle, SFleb. change MAX_SCALE with (S754_finite false 7036874417766400 (-46)).
    cbn [SFcompare]. destruct (Z.compare_spec e (-46)); trivial; format_side.
Qed.

(** Zooming out keeps the scale between 2^-66 and 100, and never
    increases it beyond the larger of the old scale and the 10-pixel
    bound. *)
Lemma zoom_out_in_range percent p s :
  -1000 < percent < 0 -> frame_size_ok p -> scale_in_range s ->
  scale_in_range (zoom_scale percent p s).
Proof.
  intros Hp Hf Hs. pose proof Hs as (_ & _ & HsM).
  apply scale_in_range_nrm in Hs. unfold zoom_scale.
  destruct (Z.ltb_spec 0 percent); [lia|].
  pose proof (zoom_step_nrm true percent 1 11 s (-65) 7 Hs ltac:(lia) ltac:(lia)
                (Z_to_double_negative_percent percent Hp) ltac:(lia) ltac:(lia)) as T.
  pose proof (scale_min_in_range p Hf) as Rm.
  pose proof (f2d_nrm _ _ _ _ (scale_min_nrm p Hf) ltac:(lia) ltac:(lia)) as Sm.
  destruct (flt (dadd s (f2d (zoom_step percent s))) (f2d (scale_min p))) eqn:L; trivial.
  destruct (SFadd_negative_cases dprec demax dprec_pos _ _ _ _ _ _ Hs T)
    as [Z0|[[Sg Nn]|[Hn Hc]]]; format_side; fold dadd in *.
  - (* the sum is zero: below the bound *)
    rewrite Z0 in L. destruct Sm as (mm & em & Em & _). rewrite Em in L. discriminate.
  - (* the sum is negative: below the bound *)
    destruct Sm as (mm & em & Em & _). rewrite Em in L.
    destruct (dadd s (f2d (zoom_step percent s))) as [sg|sg| |sg m e];
      cbn [sign_of] in Sg; try subst sg; try congruence; discriminate.
  - (* the sum is a positive normal number below the old scale *)
    apply not_lt_ge in L;
      [| eapply nrm_not_nan; eauto | eapply nrm_not_nan; eauto].
    apply compare_le_fle in Hc.
    destruct Rm as (_ & Fm & _).
    pose proof (nrm_valid _ _ _ _ Hn ltac:(format_side) ltac:(format_side)) as V.
    destruct Hn as (m' & e' & E' & _). rewrite E' in *.
    destruct Hs as (ms & es & -> & _).
    destruct Sm as (mm & em & Em & _). rewrite Em in L, Fm.
    repeat split; trivial.
    + eapply pos_le_trans; eauto.
    + eapply pos_le_trans; eauto.
Qed.

Lemma scale_in_range_bounds s :
  scale_in_range s -> flt d_0 s = true /\ fle s MAX_SCALE = true.
Proof.
  intros Hs. split; [|apply Hs].
  apply scale_in_range_nrm in Hs. eapply nrm_positive; eauto.
Qed.

Lemma valid_zoom_percent_range percent :
  percent <> 0 -> -1000 < percent < 1000 -> valid_zoom_percent (Some percent) = true.
Proof.
  intros H0 H. cbn [valid_zoom_percent].
  destruct (Z.eqb_spec percent 0); [contradiction|].
  destruct (Z.ltb_spec (-1000) percent); [|lia].
  destruct (Z.ltb_spec percent 1000); [|lia]. reflexivity.
Qed.

(** The zoom step for scales up to 2^100. *)
Lemma zoom_step_nrm_wide sg percent p1 p2 s a b :
  nrm dprec false a b s -> -65 <= a -> b <= 100 ->
  nrm dprec sg p1 p2 (Z_to_double percent) -> 1 <= p1 -> p2 <= 11 ->
  nrm dprec sg (a - 7 + p1 - 1) (b - 5 + p2 + 2) (f2d (zoom_step percent s)).
Proof.
  intros Hs Ha Hb Hp H1 H2. unfold zoom_step.
  pose proof (ddiv_nrm _ _ _ _ _ _ _ _ Hs d100_nrm ltac:(lia) ltac:(lia)) as Q.
  cbn [xorb] in Q.
  pose proof (dmul_nrm _ _ _ _ _ _ _ _ Q Hp ltac:(lia) ltac:(lia)) as T.
  cbn [xorb] in T.
  apply d2f_nrm in T; try lia.
  apply f2d_nrm in T; try lia.
  eapply nrm_weaken; eauto; lia.
Qed.

(** Order of positive finite numbers, by exponent and mantissa. *)
Lemma pos_fle_iff m e m' e' :
  fle (S754_finite false m e) (S754_finite false m' e') = true <->
  e < e' \/ (e = e' /\ Zpos m <= Zpos m').
Proof.
  rewrite SFcompare_pos_le. unfold fle, SFleb.
  destruct (SFcompare _ _) as [[]|]; split; intros H; auto; try discriminate;
    destruct H; discriminate.
Qed.

Lemma pos_flt_iff m e m' e' :
  flt (S754_finite false m e) (S754_finite false m' e') = true <->
  e < e' \/ (e = e' /\ Zpos m < Zpos m').
Proof.
  unfold flt, SFltb. cbn [SFcompare].
  change (Pos.compare_cont Eq m m') with (Zpos m ?= Zpos m').
  destruct (Z.compare_spec e e') as [He|He|He];
    destruct (Z.compare_spec (Zpos m) (Zpos m')) as [Hm|Hm|Hm];
    split; intros HH; try reflexivity; try discriminate; lia.
Qed.

Lemma scale_reachable_nrm s : scale_reachable s <-> nrm dprec false (-65) 68 s.
Proof.
  split.
  - intros (V & L & U).
    destruct s as [sg|sg| |sg m e]; try discriminate; try (destruct sg; discriminate).
    destruct sg; [discriminate|].
    unfold SCALE_FLOOR in L. unfold SCALE_TOP in U.
    apply pos_fle_iff in L. apply pos_flt_iff in U.
    cbn [valid_binary] in V. unfold bounded, canonical_mantissa in V.
    apply andb_prop in V. destruct V as [V _]. apply Z.eqb_eq in V.
    unfold fexp, emin, dprec, demax in V.
    pose proof (digits2_pos_bounds m) as [Lm Um].
    assert (D : Zpos (digits2_pos m) = 53) by lia.
    rewrite D in Lm. change (2 ^ (53 - 1)) with 4503599627370496 in Lm.
    exists m, e. unfold dprec. repeat split; trivial; lia.
  - intros H. split; [eapply nrm_valid; eauto; lia|].
    split; [eapply nrm_above_floor; eauto; lia|].
    destruct H as (m & e & -> & D & R). unfold SCALE_TOP. apply pos_flt_iff.
    unfold dprec in *. lia.
Qed.

Lemma scale_in_range_reachable s : scale_in_range s -> scale_reachable s.
Proof.
  intros H. apply scale_reachable_nrm. apply scale_in_range_nrm in H.
  eapply nrm_weaken; eauto; lia.
Qed.

(** Zooming in from any scale the viewer can hold lands between 2^-66
    and [MAX_SCALE]. *)
Lemma zoom_scale_in_wide percent p s :
  0 < percent < 1000 -> scale_reachable s -> scale_in_range (zoom_scale percent p s).
Proof.
  intros Hp Hs. apply scale_reachable_nrm in Hs. unfold zoom_scale.
  destruct (Z.ltb_spec 0 percent); [|lia].
  pose proof (zoom_step_nrm_wide false percent 1 11 s (-65) 68 Hs ltac:(lia) ltac:(lia)
                (Z_to_double_percent percent Hp) ltac:(lia) ltac:(lia)) as T.
  pose proof (dadd_nrm_same _ _ _ _ _ _ _ Hs T ltac:(lia) ltac:(lia)) as R.
  destruct (fgt (dadd s (f2d (zoom_step percent s))) MAX_SCALE) eqn:G;
    [apply MAX_SCALE_in_range|].
  apply (nrm_in_range (-65)); trivial; [|lia].
  destruct R as (m & e & E & D & R). rewrite E in *.
  apply not_above_max_mag in G.
  exists m, e. repeat split; format_side.
Qed.

(** Zooming out from any scale the viewer can hold: the result is not
    below [scale_min]; from a scale at or above [scale_min] it does not
    grow, from a scale below [scale_min] it is raised to [scale_min]. *)
Lemma zoom_scale_out_wide percent p s :
  -1000 < percent < 0 -> frame_size_ok p -> scale_reachable s ->
  scale_reachable (zoom_scale percent p s) /\
  flt d_0 (zoom_scale percent p s) = true /\
  fle (f2d (scale_min p)) (zoom_scale percent p s) = true /\
  (fle (f2d (scale_min p)) s = true -> fle (zoom_scale percent p s) s = true) /\
  (flt s (f2d (scale_min p)) = true -> zoom_scale percent p s = f2d (scale_min p)) /\
  (fle s MAX_SCALE = true -> fle (zoom_scale percent p s) MAX_SCALE = true).
Proof.
  intros Hp Hf Hs.
  apply scale_reachable_nrm in Hs. unfold zoom_scale.
  destruct (Z.ltb_spec 0 percent); [lia|].
  pose proof (zoom_step_nrm_wide true percent 1 11 s (-65) 68 Hs ltac:(lia) ltac:(lia)
                (Z_to_double_negative_percent percent Hp) ltac:(lia) ltac:(lia)) as T.
  pose proof (scale_min_in_range p Hf) as Rm.
  pose proof (f2d_nrm _ _ _ _ (scale_min_nrm p Hf) ltac:(lia) ltac:(lia)) as Sm.
  destruct (flt (dadd s (f2d (zoom_step percent s))) (f2d (scale_min p))) eqn:L.
  - split; [now apply scale_in_range_reachable|].
    split; [eapply nrm_positive; eauto|].
    split; [apply compare_le_fle; right; apply SFcompare_refl; eapply nrm_not_nan; eauto|].
    split; [trivial|]. split; [reflexivity|]. intros _. apply Rm.
  - destruct (SFadd_negative_cases dprec demax dprec_pos _ _ _ _ _ _ Hs T)
      as [Z0|[[Sg Nn]|[Hn Hc]]]; format_side; fold dadd in *.
    + rewrite Z0 in L. destruct Sm as (mm & em & Em & _). rewrite Em in L. discriminate.
    + destruct Sm as (mm & em & Em & _). rewrite Em in L.
      destruct (dadd s (f2d (zoom_step percent s))) as [sg|sg| |sg m e];
        cbn [sign_of] in Sg; try subst sg; try congruence; discriminate.
    + apply not_lt_ge in L;
        [| eapply nrm_not_nan; eauto | eapply nrm_not_nan; eauto].
      pose proof (compare_le_fle _ _ Hc) as Hle.
      destruct Hn as (m' & e' & E' & D' & R'). rewrite E' in *.
      destruct Hs as (ms & es & Es & Ds & Rs). rewrite Es in *.
      destruct Sm as (mm & em & Em & Dm & Rmm). rewrite Em in *.
      apply pos_fle_iff in L. apply pos_fle_iff in Hle.
      unfold dprec in *.
      split.
      { apply scale_reachable_nrm. exists m', e'. unfold dprec. repeat split; trivial; lia. }
      split; [reflexivity|].
      split; [apply pos_fle_iff; lia|].
      split; [intros _; apply pos_fle_iff; lia|].
      split.
      { intros Lt. apply pos_flt_iff in Lt. lia. }
      change MAX_SCALE with (S754_finite false 7036874417766400 (-46)).
      rewrite !pos_fle_iff. lia.
Qed.

(** C1 as stated fails: the [fit] policy is not capped.  A 1x1 frame in
    a 1000x1000 window gets a scale of about 1000, above [MAX_SCALE],
    through [set_scale], [scale_image] and [zoom_image] alike; a zoom
    out from there stays above [MAX_SCALE]. *)
Lemma fit_scale_exceeds_max :
  let w := world_of (viewer_at 0 0 false position_center d_1) 1000 1000
             (still_image 1 1) in
  fgt (scale (ctx (set_scale scale_fit_window w))) MAX_SCALE = true /\
  fgt (scale (ctx (scale_image (Some "fit"%string) w))) MAX_SCALE = true /\
  fgt (scale (ctx (zoom_image decimal_str_to_num (Some "fit"%string) w))) MAX_SCALE = true /\
  fgt (scale (ctx (zoom_image decimal_str_to_num (Some "-10"%string)
                     (set_scale scale_fit_window w)))) MAX_SCALE = true.
Proof. vm_compute. repeat split. Qed.

(** C1 (amended): for a frame of positive size in a non-empty window,
    every scale policy yields a positive scale, from 2^-66 up to but
    not including 2^68; it is at most 1.0 for [optimal] and exactly 1.0
    for [real], the other policies are not capped at [MAX_SCALE].  A
    percentage zoom from any such scale, above [MAX_SCALE] included,
    ends with a positive scale in the same range.  Zooming in always
    ends at or below [MAX_SCALE], so 0 < scale <= 100.  Zooming out ends
    at or above [scale_min]: from a scale at or above [scale_min] it
    does not grow, from a scale below [scale_min] it ends at
    [scale_min]; so it ends at or below [MAX_SCALE] when it started
    there, and a zoom from a scale between 2^-66 and [MAX_SCALE] stays
    between them. *)
Theorem scale_bounds (str_to_num : string -> option Z) (p : string)
    (percent : Z) (w : world) :
  frame_size_ok (current_pm w) ->
  (0 < size_wrap (ui_width w) -> 0 < size_wrap (ui_height w) ->
   (forall sc,
      scale_reachable (scale (ctx (set_scale sc w))) /\
      flt d_0 (scale (ctx (set_scale sc w))) = true /\
      (fle (scale (ctx (set_scale sc w))) MAX_SCALE = true ->
       scale_in_range (scale (ctx (set_scale sc w))))) /\
   fle (scale (ctx (set_scale scale_fit_optimal w))) d_1 = true /\
   scale (ctx (set_scale scale_real_size w)) = d_1) /\
  (scale_reachable (scale (ctx w)) ->
   denotes_percent str_to_num p percent ->
   valid_zoom_percent (Some percent) = true ->
   let s := scale (ctx w) in
   let s' := scale (ctx (zoom_image str_to_num (Some p) w)) in
   let smin := f2d (scale_min (current_pm w)) in
   scale_reachable s' /\
   flt d_0 s' = true /\
   (0 < percent -> fle s' MAX_SCALE = true) /\
   (percent < 0 ->
    fle smin s' = true /\
    (fle smin s = true -> fle s' s = true) /\
    (flt s smin = true -> s' = smin) /\
    (fle s MAX_SCALE = true -> fle s' MAX_SCALE = true)) /\
   (scale_in_range s -> scale_in_range s')).
Proof.
  intros Hf. split.
  - intros Hw Hh. destruct Hf as [Fw Fh].
    pose proof (size_wrap_range (ui_width w)) as Rw.
    pose proof (size_wrap_range (ui_height w)) as Rh.
    assert (Nw : nrm fprec false (-65) 68
                   (fit_ratio (width (current_pm w)) (size_wrap (ui_width w))))
      by (apply fit_ratio_positive; trivial; lia).
    assert (Nh : nrm fprec false (-65) 68
                   (fit_ratio (height (current_pm w)) (size_wrap (ui_height w))))
      by (apply fit_ratio_positive; trivial; lia).
    split; [|split].
    + intros sc. rewrite set_scale_value.
      pose proof (policy_scale_nrm sc _ _ Nw Nh) as N.
      split; [now apply scale_reachable_nrm|].
      split; [eapply nrm_positive; eauto|].
      intros U. split; [eapply nrm_valid; eauto; lia|].
      split; [eapply nrm_above_floor; eauto; lia | exact U].
    + rewrite set_scale_value. apply policy_scale_facts; right; trivial.
    + rewrite set_scale_value. reflexivity.
  - intros Hs Hd Hv s s' smin. subst s s' smin.
    destruct (zoom_image_scale str_to_num p percent w Hd Hv) as [-> _].
    cbn [valid_zoom_percent] in Hv.
    apply andb_prop in Hv. destruct Hv as [Hv H3]. apply andb_prop in Hv.
    destruct Hv as [H1 H2].
    apply negb_true_iff in H1. apply Z.eqb_neq in H1.
    apply Z.ltb_lt in H2, H3.
    destruct (Z.ltb_spec 0 percent) as [Hpos|Hneg].
    + pose proof (zoom_scale_in_wide percent (current_pm w) (scale (ctx w))
                    ltac:(lia) Hs) as R.
      split; [now apply scale_in_range_reachable|].
      split; [now apply scale_in_range_bounds|].
      split; [intros _; apply R|]. split; [lia|]. intros _. exact R.
    + destruct (zoom_scale_out_wide percent (current_pm w) (scale (ctx w))
                  ltac:(lia) Hf Hs) as (R1 & R2 & R3 & R4 & R5 & R6).
      split; [exact R1|]. split; [exact R2|]. split; [lia|].
      split; [intros _; repeat split; assumption|].
      intros (V & L & U). destruct R1 as (V' & L' & _).
      repeat split; trivial. now apply R6.
Qed.

Lemma scale_bounds_witness :
  let w := set_scale scale_fit_window
             (world_of (viewer_at 0 0 false position_center d_1) 1000 1000
                (still_image 1 1)) in
  let s' := scale (ctx (zoom_image decimal_str_to_num (Some "10"%string) w)) in
  fgt (scale (ctx w)) MAX_SCALE = true /\
  scale_reachable s' /\ flt d_0 s' = true /\ fle s' MAX_SCALE = true.
Proof.
  destruct (scale_bounds decimal_str_to_num "10" 10
              (set_scale scale_fit_window
                 (world_of (viewer_at 0 0 false position_center d_1) 1000 1000
                    (still_image 1 1)))) as [_ Hz].
  - repeat split.
  - destruct Hz as (R & P & U & _); [repeat split .. |].
    split; [reflexivity|]. split; [exact R|]. split; [exact P|].
    apply U. reflexivity.
Defined.

(* ================================================================== *)
(** * The pivot of a zoom *)

Lemma scaled_dim_le_max s d : scaled_dim s d <= SSIZE_MAX.
Proof.
  unfold scaled_dim, double_to_ssize.
  destruct (dmul _ _); try (unfold SSIZE_MIN, SSIZE_MAX; lia).
  destruct (_ && _) eqn:Hb; [|unfold SSIZE_MIN, SSIZE_MAX; lia].
  apply andb_prop in Hb. destruct Hb as [_ Hb]. now apply Z.leb_le in Hb.
Qed.

(** Without fixed mode, a position that keeps the image within reach of
    the window is left alone by border binding and clamping. *)
Lemma bind_and_clamp_free W I x :
  0 <= W -> 0 <= I -> W + I <= SSIZE_MAX -> - I <= x <= W ->
  bind_and_clamp false W I x = x.
Proof.
  intros HW HI HS Hx. unfold bind_and_clamp, sadd, sneg. cbn [andb].
  unfold SSIZE_MAX in HS.
  rewrite !(ssize_wrap_id (x + I)) by (unfold SSIZE_MIN, SSIZE_MAX; lia).
  destruct (Z.ltb_spec (x + I) 0); [lia|].
  destruct (Z.ltb_spec W x); [lia|]. reflexivity.
Qed.

(** A non-forced fix-up, one axis at a time. *)
Lemma fixup_unforced_x w :
  img_x (ctx (fixup_position false w)) =
  bind_and_clamp (fixed (ctx w)) (ssize_wrap (ui_width w))
    (scaled_dim (scale (ctx w)) (width (current_pm w)))
    (if fixed (ctx w) &&
        (scaled_dim (scale (ctx w)) (width (current_pm w)) <=? ssize_wrap (ui_width w))
     then axis_coordinate (horizontal_rule (position (ctx w))) (ssize_wrap (ui_width w))
            (scaled_dim (scale (ctx w)) (width (current_pm w)))
     else img_x (ctx w)).
Proof.
  unfold fixup_position, bind_and_clamp. cbv zeta. cbn [orb ctx set_ctx img_x set_pos].
  generalize (scaled_dim (scale (ctx w)) (width (current_pm w))) as IW.
  generalize (scaled_dim (scale (ctx w)) (height (current_pm w))) as IH.
  generalize (ssize_wrap (ui_width w)) as W. generalize (ssize_wrap (ui_height w)) as H.
  generalize (img_x (ctx w)) as x. generalize (img_y (ctx w)) as y.
  intros y x H W IH IW.
  destruct (fixed (ctx w)); cbn [andb];
    [destruct (IW <=? W) |]; destruct (position (ctx w)); reflexivity.
Qed.

Lemma fixup_unforced_y w :
  img_y (ctx (fixup_position false w)) =
  bind_and_clamp (fixed (ctx w)) (ssize_wrap (ui_height w))
    (scaled_dim (scale (ctx w)) (height (current_pm w)))
    (if fixed (ctx w) &&
        (scaled_dim (scale (ctx w)) (height (current_pm w)) <=? ssize_wrap (ui_height w))
     then axis_coordinate (vertical_rule (position (ctx w))) (ssize_wrap (ui_height w))
            (scaled_dim (scale (ctx w)) (height (current_pm w)))
     else img_y (ctx w)).
Proof.
  unfold fixup_position, bind_and_clamp. cbv zeta. cbn [orb ctx set_ctx img_y set_pos].
  generalize (scaled_dim (scale (ctx w)) (width (current_pm w))) as IW.
  generalize (scaled_dim (scale (ctx w)) (height (current_pm w))) as IH.
  generalize (ssize_wrap (ui_width w)) as W. generalize (ssize_wrap (ui_height w)) as H.
  generalize (img_x (ctx w)) as x. generalize (img_y (ctx w)) as y.
  intros y x H W IH IW.
  destruct (fixed (ctx w)); cbn [andb];
    [destruct (IH <=? H) |]; destruct (position (ctx w)); reflexivity.
Qed.

(** One axis of the fix-up that closes a zoom: without fixed mode a
    position within reach of the window stays; in fixed mode an image
    that fits in the window goes to its anchor. *)
Lemma unforced_axis fx r W I x :
  0 <= W -> 0 <= I -> W + I <= SSIZE_MAX ->
  let x' := bind_and_clamp fx W I
              (if fx && (I <=? W) then axis_coordinate r W I else x) in
  (fx = false -> - I <= x <= W -> x' = x) /\
  (fx = true -> I <= W -> axis_placed r W I x').
Proof.
  intros HW HI HS x'. subst x'. split.
  - intros -> Hx. cbn [andb]. now apply bind_and_clamp_free.
  - intros -> Hle. cbn [andb]. destruct (Z.leb_spec I W); [|lia].
    assert (BW : 0 <= W <= SSIZE_MAX) by lia.
    assert (BI : 0 <= I <= SSIZE_MAX) by lia.
    rewrite axis_coordinate_plain by trivial.
    rewrite bind_and_clamp_fixed by (trivial; apply axis_coordinate_cases).
    pose proof (center_balanced W I).
    destruct r; cbn [axis_placed]; auto.
Qed.

(* ================================================================== *)
(** * Exact values of the floating-point operations *)

Lemma pow2Q_pos e : (0 < 2 ^ e)%Q.
Proof. apply Qpower_0_lt. reflexivity. Qed.

Lemma pow2Q_neq e : ~ (2 ^ e == 0)%Q.
Proof. intros C. pose proof (pow2Q_pos e) as P. rewrite C in P. discriminate. Qed.

Lemma pow2Q_add a b : (2 ^ (a + b) == 2 ^ a * 2 ^ b)%Q.
Proof. apply Qpower_plus. discriminate. Qed.

Lemma pow2Q_Z k : 0 <= k -> (2 ^ k == inject_Z (2 ^ k))%Q.
Proof. intros H. now rewrite Zpower_Qpower. Qed.

Lemma pow2Q_le a b : a <= b -> (2 ^ a <= 2 ^ b)%Q.
Proof. intros H. apply Qpower_le_compat_l; [assumption | discriminate]. Qed.

(** An integer times a power of two, with the integer scaled down. *)
Lemma scaled_value n k e :
  0 <= k -> (inject_Z (n * 2 ^ k) * 2 ^ e == inject_Z n * 2 ^ (e + k))%Q.
Proof.
  intros Hk. rewrite inject_Z_mult, <- pow2Q_Z, pow2Q_add by assumption. ring.
Qed.

Section RoundingValues.

Variables prec emax : Z.
Hypothesis Hprec : 0 < prec.

Local Abbreviation emin := (emin prec emax).

(** Rounding a mantissa of at least [prec] digits in the normal range:
    the result stands for [n * 2 ^ (ex + k)], where [k] digits are
    dropped and [n] is the quotient of the mantissa by [2 ^ k] or one
    more. *)
Lemma binary_round_aux_value sx mx ex lx :
  prec <= Zpos (digits2_pos mx) ->
  emin + prec <= Zpos (digits2_pos mx) + ex ->
  Zpos (digits2_pos mx) + ex + 1 <= emax ->
  let k := Zpos (digits2_pos mx) - prec in
  exists m e n,
    binary_round_aux prec emax sx (Zpos mx) ex lx = S754_finite sx m e /\
    Zpos (digits2_pos m) = prec /\
    Zpos (digits2_pos mx) + ex - prec <= e <= Zpos (digits2_pos mx) + ex + 1 - prec /\
    (inject_Z (Zpos m) * 2 ^ e == inject_Z n * 2 ^ (ex + k))%Q /\
    Zpos mx / 2 ^ k <= n <= Zpos mx / 2 ^ k + 1.
Proof.
  intros Hd Hlo Hhi k. subst k.
  set (k := Zpos (digits2_pos mx) - prec).
  assert (Hk : 0 <= k) by (subst k; lia).
  destruct (binary_round_aux_cases prec emax Hprec sx mx ex lx Hd Hlo Hhi)
    as (m & e & E & Dm & [(Ee & Cm)|(Ee & Cm & Cq)]); fold k in Cm.
  - exists m, e, (Zpos m).
    split; [exact E|]. split; [exact Dm|]. split; [lia|]. split; [|lia].
    replace e with (ex + k) by (subst k; lia). reflexivity.
  - fold k in Cq. exists m, e, (2 ^ prec).
    split; [exact E|]. split; [exact Dm|]. split; [lia|]. split; [|lia].
    rewrite Cm.
    replace e with (ex + k + 1) by (subst k; lia).
    replace (2 ^ prec) with (2 ^ (prec - 1) * 2 ^ 1)
      by (rewrite <- Z.pow_add_r by lia; f_equal; lia).
    rewrite scaled_value by lia. reflexivity.
Qed.


(** The kept quotient or its successor is within one unit of any number
    that lies between the mantissa and its successor. *)
Lemma quotient_window mx n k ex (T : Q) :
  0 <= k -> 0 <= mx -> mx / 2 ^ k <= n <= mx / 2 ^ k + 1 ->
  (inject_Z mx * 2 ^ ex <= T)%Q -> (T <= inject_Z (mx + 1) * 2 ^ ex)%Q ->
  (Qabs (inject_Z n * 2 ^ (ex + k) - T) <= 2 ^ (ex + k))%Q.
Proof.
  intros Hk Hm Hn Lo Hi.
  pose proof (pow2_pos k Hk) as Pk.
  pose proof (Z.div_mod mx (2 ^ k) ltac:(lia)) as DM.
  pose proof (Z.mod_pos_bound mx (2 ^ k) Pk) as MB.
  set (f := mx / 2 ^ k) in *.
  assert (L1 : f * 2 ^ k <= mx) by lia.
  assert (L2 : mx + 1 <= (f + 1) * 2 ^ k) by lia.
  pose proof (pow2Q_pos ex) as Pe.
  assert (Q1 : (inject_Z f * 2 ^ (ex + k) <= T)%Q).
  { rewrite <- scaled_value by assumption.
    eapply Qle_trans; [|exact Lo].
    apply Qmult_le_compat_r; [|now apply Qlt_le_weak].
    rewrite <- Zle_Qle. exact L1. }
  assert (Q2 : (T <= inject_Z (f + 1) * 2 ^ (ex + k))%Q).
  { rewrite <- scaled_value by assumption.
    eapply Qle_trans; [exact Hi|].
    apply Qmult_le_compat_r; [|now apply Qlt_le_weak].
    rewrite <- Zle_Qle. exact L2. }
  pose proof (pow2Q_pos (ex + k)) as Pek.
  assert (N1 : (inject_Z f * 2 ^ (ex + k) <= inject_Z n * 2 ^ (ex + k))%Q).
  { apply Qmult_le_compat_r; [|now apply Qlt_le_weak]. rewrite <- Zle_Qle. lia. }
  assert (N2 : (inject_Z n * 2 ^ (ex + k) <= inject_Z (f + 1) * 2 ^ (ex + k))%Q).
  { apply Qmult_le_compat_r; [|now apply Qlt_le_weak]. rewrite <- Zle_Qle. lia. }
  rewrite inject_Z_plus in Q2, N2.
  apply Qabs_Qle_condition.
  generalize dependent (2 ^ (ex + k))%Q. intros P.
  generalize (inject_Z f) (inject_Z n). intros qf qn. intros.
  change (inject_Z 1) with 1%Q in *. split; lra.
Qed.

(** One unit of the last kept digit against the number itself. *)
Lemma ulp_relative mx k ex :
  0 <= k -> 0 < prec ->
  Zpos (digits2_pos mx) = k + prec ->
  (2 ^ (ex + k) <= 2 ^ (1 - prec) * (inject_Z (Zpos mx) * 2 ^ ex))%Q.
Proof.
  intros Hk Hp D.
  pose proof (digits2_pos_bounds mx) as [L _]. rewrite D in L.
  assert (E : (2 ^ (ex + k) == 2 ^ (1 - prec) * (inject_Z (2 ^ (k + prec - 1)) * 2 ^ ex))%Q).
  { rewrite <- pow2Q_Z by lia. rewrite <- !pow2Q_add. f_equal. 
    replace (1 - prec + (k + prec - 1 + ex)) with (ex + k) by lia. reflexivity. }
  rewrite E.
  apply Qmult_le_l; [apply pow2Q_pos|].
  apply Qmult_le_compat_r; [|apply Qlt_le_weak, pow2Q_pos].
  rewrite <- Zle_Qle. exact L.
Qed.

(** [binary_round_aux] is within one unit of the last digit of any
    number between the mantissa and its successor. *)
Lemma binary_round_aux_error sx mx ex lx (T : Q) :
  prec <= Zpos (digits2_pos mx) ->
  emin + prec <= Zpos (digits2_pos mx) + ex ->
  Zpos (digits2_pos mx) + ex + 1 <= emax ->
  (inject_Z (Zpos mx) * 2 ^ ex <= T)%Q -> (T <= inject_Z (Zpos mx + 1) * 2 ^ ex)%Q ->
  exists m e,
    binary_round_aux prec emax sx (Zpos mx) ex lx = S754_finite sx m e /\
    Zpos (digits2_pos m) = prec /\
    Zpos (digits2_pos mx) + ex - prec <= e <= Zpos (digits2_pos mx) + ex + 1 - prec /\
    (Qabs (inject_Z (Zpos m) * 2 ^ e - T) <= 2 ^ (1 - prec) * T)%Q.
Proof.
  intros Hd Hlo Hhi Lo Hi.
  destruct (binary_round_aux_value sx mx ex lx Hd Hlo Hhi)
    as (m & e & n & E & Dm & Re & V & Hn).
  exists m, e. split; [exact E|]. split; [exact Dm|]. split; [exact Re|].
  rewrite V.
  apply Qle_trans with (2 ^ (ex + (Zpos (digits2_pos mx) - prec)))%Q;
    [apply (quotient_window (Zpos mx)); trivial; lia|].
  apply Qle_trans with (2 ^ (1 - prec) * (inject_Z (Zpos mx) * 2 ^ ex))%Q;
    [apply ulp_relative; trivial; lia|].
  apply Qmult_le_l; [apply pow2Q_pos | exact Lo].
Qed.


(** [binary_round]: also exact below [prec] digits. *)
Lemma binary_round_error sx mx ex :
  emin + prec <= Zpos (digits2_pos mx) + ex ->
  Zpos (digits2_pos mx) + ex + 1 <= emax ->
  exists m e,
    binary_round prec emax sx mx ex = S754_finite sx m e /\
    Zpos (digits2_pos m) = prec /\
    Zpos (digits2_pos mx) + ex - prec <= e <= Zpos (digits2_pos mx) + ex + 1 - prec /\
    (Qabs (inject_Z (Zpos m) * 2 ^ e - inject_Z (Zpos mx) * 2 ^ ex)
     <= 2 ^ (1 - prec) * (inject_Z (Zpos mx) * 2 ^ ex))%Q.
Proof.
  intros Hlo Hhi.
  assert (Pv : (0 <= 2 ^ (1 - prec) * (inject_Z (Zpos mx) * 2 ^ ex))%Q).
  { apply Qmult_le_0_compat; [apply Qlt_le_weak, pow2Q_pos|].
    apply Qmult_le_0_compat; [|apply Qlt_le_weak, pow2Q_pos].
    change 0%Q with (inject_Z 0). rewrite <- Zle_Qle. lia. }
  destruct (Z.le_gt_cases (Zpos (digits2_pos mx)) prec) as [Hs|Hs].
  - destruct (binary_round_exact prec emax sx mx ex Hs Hlo ltac:(lia)) as (m & E & Em & Dm).
    exists m, (Zpos (digits2_pos mx) + ex - prec).
    split; [exact E|]. split; [exact Dm|]. split; [lia|].
    rewrite Em, scaled_value by lia.
    replace (Zpos (digits2_pos mx) + ex - prec + (prec - Zpos (digits2_pos mx)))
      with ex by lia.
    setoid_replace (inject_Z (Zpos mx) * 2 ^ ex - inject_Z (Zpos mx) * 2 ^ ex)%Q
      with 0%Q by ring.
    exact Pv.
  - unfold binary_round.
    rewrite shl_align_noop by (unfold fexp; lia).
    apply binary_round_aux_error; try lia.
    + apply Qle_refl.
    + apply Qmult_le_compat_r; [|apply Qlt_le_weak, pow2Q_pos].
      rewrite <- Zle_Qle. lia.
Qed.

End RoundingValues.

Lemma Fval_finite s m e :
  (Fval (S754_finite s m e) == sgnQ s * (inject_Z (Zpos m) * 2 ^ e))%Q.
Proof.
  unfold Fval, sgnQ. destruct s; [|ring].
  change (Zneg m) with (- Zpos m). rewrite inject_Z_opp. ring.
Qed.

Lemma sgnQ_xorb a b : (sgnQ (xorb a b) == sgnQ a * sgnQ b)%Q.
Proof. destruct a, b; reflexivity. Qed.

Lemma Qabs_sgnQ s q : (0 <= q)%Q -> (Qabs (sgnQ s * q) == q)%Q.
Proof.
  intros H. destruct s; unfold sgnQ.
  - setoid_replace (-1 * q)%Q with (- q)%Q by ring.
    rewrite Qabs_opp. now apply Qabs_pos.
  - setoid_replace (1 * q)%Q with q by ring. now apply Qabs_pos.
Qed.

Lemma mag_nonneg m e : (0 <= inject_Z (Zpos m) * 2 ^ e)%Q.
Proof.
  apply Qmult_le_0_compat; [|apply Qlt_le_weak, pow2Q_pos].
  change 0%Q with (inject_Z 0). rewrite <- Zle_Qle. lia.
Qed.

Lemma fin_weaken prec k k' x : fin prec k x -> k <= k' -> fin prec k' x.
Proof. destruct x; cbn; trivial. intros [D R] H. split; [exact D | lia]. Qed.

(** Error of a signed result against a signed exact value. *)
Lemma signed_error s (v t u : Q) :
  (0 <= t)%Q -> (Qabs (v - t) <= u * t)%Q ->
  (Qabs (sgnQ s * v - sgnQ s * t) <= u * Qabs (sgnQ s * t))%Q.
Proof.
  intros Ht H. rewrite (Qabs_sgnQ s t Ht).
  setoid_replace (sgnQ s * v - sgnQ s * t)%Q with (sgnQ s * (v - t))%Q by ring.
  destruct s; unfold sgnQ.
  - setoid_replace (-1 * (v - t))%Q with (- (v - t))%Q by ring.
    now rewrite Qabs_opp.
  - setoid_replace (1 * (v - t))%Q with (v - t)%Q by ring. exact H.
Qed.

Section OperationValues.

Variables prec emax : Z.
Hypothesis Hprec : 0 < prec.

Local Abbreviation emin := (emin prec emax).
Local Abbreviation u := (2 ^ (1 - prec))%Q.

Lemma SFmul_value a b x y :
  fin prec a x -> fin prec b y ->
  emin + prec <= - (a + b) - 1 -> a + b + 1 <= emax ->
  fin prec (a + b + 1) (SFmul prec emax x y) /\
  (Qabs (Fval (SFmul prec emax x y) - Fval x * Fval y)
   <= u * Qabs (Fval x * Fval y))%Q.
Proof.
  intros Hx Hy Hlo Hhi.
  assert (Z0 : forall q : Q, (q == 0)%Q ->
               (Qabs (0 - q) <= u * Qabs q)%Q).
  { intros q ->. setoid_replace (0 - 0)%Q with 0%Q by ring.
    change (Qabs 0) with 0%Q. setoid_replace (u * 0)%Q with 0%Q by ring. apply Qle_refl. }
  destruct x as [sx|sx| |sx mx ex], y as [sy|sy| |sy my ey]; cbn [fin] in Hx, Hy;
    try contradiction; cbn [SFmul].
  - split; [exact I|]. cbn [Fval]. apply Z0. ring.
  - split; [exact I|]. apply Z0. cbn [Fval]. ring.
  - split; [exact I|]. apply Z0. cbn [Fval]. ring.
  - destruct Hx as [Dx Rx], Hy as [Dy Ry].
    pose proof (digits2_pos_bounds mx) as [Lx Ux]. rewrite Dx in Lx, Ux.
    pose proof (digits2_pos_bounds my) as [Ly Uy]. rewrite Dy in Ly, Uy.
    pose proof (pow2_pos (prec - 1) ltac:(lia)) as P1.
    assert (P2 : 2 ^ prec = 2 * 2 ^ (prec - 1)).
    { replace prec with (Z.succ (prec - 1)) at 1 by lia. apply Z.pow_succ_r. lia. }
    assert (BL : 2 ^ (2 * prec - 1 - 1) <= Zpos (mx * my)).
    { replace (2 * prec - 1 - 1) with ((prec - 1) + (prec - 1)) by lia.
      rewrite Z.pow_add_r by lia. rewrite Pos2Z.inj_mul. nia. }
    assert (BU : Zpos (mx * my) < 2 ^ (2 * prec)).
    { replace (2 * prec) with (prec + prec) by lia.
      rewrite Z.pow_add_r by lia. rewrite Pos2Z.inj_mul. nia. }
    pose proof (digits2_pos_bounds (mx * my)) as [L U].
    remember (Zpos (digits2_pos (mx * my))) as D eqn:ED.
    assert (HD0 : 0 < D) by (subst D; lia).
    assert (HD1 : 2 * prec - 1 - 1 < D) by (apply pow2_lt_inv; lia).
    assert (HD2 : D - 1 < 2 * prec) by (apply pow2_lt_inv; lia).
    destruct (binary_round_aux_error prec emax Hprec (xorb sx sy) (mx * my) (ex + ey)
                loc_Exact (inject_Z (Zpos (mx * my)) * 2 ^ (ex + ey)))
      as (m & e & E & Dm & Re & Er); rewrite <- ?ED; try lia.
    + apply Qle_refl.
    + apply Qmult_le_compat_r; [|apply Qlt_le_weak, pow2Q_pos].
      rewrite <- Zle_Qle. lia.
    + rewrite E. split; [split; [exact Dm | rewrite <- ED in Re; lia]|].
      rewrite !Fval_finite.
      assert (Ex : (sgnQ sx * (inject_Z (Zpos mx) * 2 ^ ex) *
                    (sgnQ sy * (inject_Z (Zpos my) * 2 ^ ey))
                    == sgnQ (xorb sx sy) * (inject_Z (Zpos (mx * my)) * 2 ^ (ex + ey)))%Q).
      { rewrite sgnQ_xorb, Pos2Z.inj_mul, inject_Z_mult, pow2Q_add. ring. }
      rewrite Ex. apply signed_error; [apply mag_nonneg | exact Er].
Qed.


Lemma SFdiv_value a b x y :
  fin prec a x -> fin prec b y -> ~ (Fval y == 0)%Q ->
  emin + prec <= - (a + b) -> a + b + 2 <= emax ->
  fin prec (a + b + 2) (SFdiv prec emax x y) /\
  (Qabs (Fval (SFdiv prec emax x y) - Fval x / Fval y)
   <= u * Qabs (Fval x / Fval y))%Q.
Proof.
  intros Hx Hy Ny Hlo Hhi.
  destruct y as [sy|sy| |sy my ey]; cbn [fin] in Hy; try contradiction.
  { exfalso. apply Ny. reflexivity. }
  destruct Hy as [Dy Ry].
  destruct x as [sx|sx| |sx mx ex]; cbn [fin] in Hx; try contradiction; cbn [SFdiv].
  { split; [exact I|].
    assert (Z0 : forall q : Q, (q == 0)%Q -> (Qabs (0 - q) <= u * Qabs q)%Q).
    { intros q ->. setoid_replace (0 - 0)%Q with 0%Q by ring.
      change (Qabs 0) with 0%Q. setoid_replace (u * 0)%Q with 0%Q by ring.
      apply Qle_refl. }
    change (Fval (S754_zero (xorb sx sy))) with 0%Q. apply Z0.
    change (Fval (S754_zero sx)) with 0%Q. unfold Qdiv. ring. }
  destruct Hx as [Dx Rx].
  unfold SFdiv_core_binary. cbn [Zdigits2]. rewrite Dx, Dy.
  assert (F : fexp prec emax (prec + ex - (prec + ey)) = ex - ey - prec)
    by (unfold fexp; lia).
  rewrite F. replace (Z.min (ex - ey - prec) (ex - ey)) with (ex - ey - prec) by lia.
  replace (ex - ey - (ex - ey - prec)) with prec by lia.
  pose proof (digits2_pos_bounds mx) as [Lx Ux]. rewrite Dx in Lx, Ux.
  pose proof (digits2_pos_bounds my) as [Ly Uy]. rewrite Dy in Ly, Uy.
  pose proof (pow2_pos (prec - 1) ltac:(lia)) as P1.
  pose proof (pow2_pos prec ltac:(lia)) as P0.
  assert (P2 : 2 ^ prec = 2 * 2 ^ (prec - 1)).
  { replace prec with (Z.succ (prec - 1)) at 1 by lia. apply Z.pow_succ_r. lia. }
  assert (P3 : 2 ^ (prec + 1) = 2 * 2 ^ prec).
  { replace (prec + 1) with (Z.succ prec) by lia. apply Z.pow_succ_r. lia. }
  assert (Em : match prec with
               | 0 => Zpos mx
               | Zpos _ => Z.shiftl (Zpos mx) prec
               | Zneg _ => 0
               end = Zpos mx * 2 ^ prec).
  { destruct prec eqn:Ep; try lia. rewrite Z.shiftl_mul_pow2; lia. }
  rewrite Em.
  assert (Eq : fst (Z.div_eucl (Zpos mx * 2 ^ prec) (Zpos my)) = Zpos mx * 2 ^ prec / Zpos my)
    by reflexivity.
  destruct (Z.div_eucl (Zpos mx * 2 ^ prec) (Zpos my)) as [q r]. cbn [fst] in Eq.
  pose proof (Z.mul_div_le (Zpos mx * 2 ^ prec) (Zpos my) ltac:(lia)) as Q1.
  pose proof (Z.mul_succ_div_gt (Zpos mx * 2 ^ prec) (Zpos my) ltac:(lia)) as Q2.
  rewrite <- Eq in Q1, Q2.
  assert (Bq : 2 ^ (prec - 1) <= q < 2 ^ (prec + 1)).
  { rewrite Eq. split.
    - apply Z.div_le_lower_bound; [lia|]. nia.
    - apply Z.div_lt_upper_bound; [lia|]. nia. }
  destruct q as [|pq|pq]; try lia.
  pose proof (digits2_pos_bounds pq) as [L U].
  remember (Zpos (digits2_pos pq)) as D eqn:ED.
  assert (HD0 : 0 < D) by (subst D; lia).
  assert (HD1 : D - 1 < prec + 1) by (apply pow2_lt_inv; lia).
  assert (HD2 : prec - 1 < D) by (apply pow2_lt_inv; lia).
  set (T := (inject_Z (Zpos mx) * 2 ^ ex / (inject_Z (Zpos my) * 2 ^ ey))%Q).
  assert (Pmy : (0 < inject_Z (Zpos my))%Q)
    by (change 0%Q with (inject_Z 0); rewrite <- Zlt_Qlt; lia).
  assert (Nmy : ~ (inject_Z (Zpos my) == 0)%Q)
    by (intros C; rewrite C in Pmy; discriminate).
  assert (ET : (T == inject_Z (Zpos mx * 2 ^ prec) / inject_Z (Zpos my)
                     * 2 ^ (ex - ey - prec))%Q).
  { subst T. rewrite inject_Z_mult, <- pow2Q_Z by lia.
    replace ex with ((ex - ey - prec) + prec + ey) at 1 by lia.
    rewrite !pow2Q_add. field. repeat split; trivial; apply pow2Q_neq. }
  destruct (binary_round_aux_error prec emax Hprec (xorb sx sy) pq (ex - ey - prec)
              (new_location (Zpos my) r) T)
    as (m & e & E & Dm & Re & Er); rewrite <- ?ED; try lia.
  - rewrite ET. apply Qmult_le_compat_r; [|apply Qlt_le_weak, pow2Q_pos].
    apply Qle_shift_div_l; [exact Pmy|].
    rewrite <- inject_Z_mult, <- Zle_Qle. lia.
  - rewrite ET. apply Qmult_le_compat_r; [|apply Qlt_le_weak, pow2Q_pos].
    apply Qle_shift_div_r; [exact Pmy|].
    rewrite <- inject_Z_mult, <- Zle_Qle. lia.
  - rewrite E. split; [split; [exact Dm | rewrite <- ED in Re; lia]|].
    rewrite !Fval_finite.
    assert (PT : (0 <= T)%Q).
    { subst T. apply Qle_shift_div_l.
      - apply Qmult_lt_0_compat; [exact Pmy | apply pow2Q_pos].
      - setoid_replace (0 * (inject_Z (Zpos my) * 2 ^ ey))%Q with 0%Q by ring.
        apply mag_nonneg. }
    assert (Ex : (sgnQ sx * (inject_Z (Zpos mx) * 2 ^ ex) /
                  (sgnQ sy * (inject_Z (Zpos my) * 2 ^ ey))
                  == sgnQ (xorb sx sy) * T)%Q).
    { subst T. rewrite sgnQ_xorb. destruct sx, sy; unfold sgnQ; field;
        repeat split; trivial; apply pow2Q_neq. }
    rewrite Ex. apply signed_error; [exact PT | exact Er].
Qed.


(** An integer times a power of two, normalised. *)
Lemma binary_normalize_value S ez k :
  (S <> 0 -> - k <= Zdigits2 S + ez /\ Zdigits2 S + ez + 1 <= k) ->
  emin + prec <= - k -> k <= emax ->
  fin prec k (binary_normalize prec emax S ez false) /\
  (Qabs (Fval (binary_normalize prec emax S ez false) - inject_Z S * 2 ^ ez)
   <= u * Qabs (inject_Z S * 2 ^ ez))%Q.
Proof.
  intros HS Hlo Hhi. destruct S as [|p|p]; cbn [binary_normalize].
  - split; [exact I|].
    assert (Z0 : forall q : Q, (q == 0)%Q -> (Qabs (0 - q) <= u * Qabs q)%Q).
    { intros q ->. setoid_replace (0 - 0)%Q with 0%Q by ring.
      change (Qabs 0) with 0%Q. setoid_replace (u * 0)%Q with 0%Q by ring.
      apply Qle_refl. }
    change (Fval (S754_zero false)) with 0%Q. apply Z0.
    change (inject_Z 0) with 0%Q. ring.
  - destruct (HS ltac:(discriminate)) as [H1 H2]. cbn [Zdigits2] in H1, H2.
    destruct (binary_round_error prec emax Hprec false p ez) as (m & e & E & Dm & Re & Er);
      try lia.
    rewrite E. split; [split; [exact Dm | lia]|].
    rewrite Fval_finite.
    setoid_replace (inject_Z (Zpos p) * 2 ^ ez)%Q
      with (sgnQ false * (inject_Z (Zpos p) * 2 ^ ez))%Q by (unfold sgnQ; ring).
    apply signed_error; [apply mag_nonneg | exact Er].
  - destruct (HS ltac:(discriminate)) as [H1 H2]. cbn [Zdigits2] in H1, H2.
    destruct (binary_round_error prec emax Hprec true p ez) as (m & e & E & Dm & Re & Er);
      try lia.
    rewrite E. split; [split; [exact Dm | lia]|].
    rewrite Fval_finite.
    setoid_replace (inject_Z (Zneg p) * 2 ^ ez)%Q
      with (sgnQ true * (inject_Z (Zpos p) * 2 ^ ez))%Q
      by (unfold sgnQ; change (Zneg p) with (- Zpos p); rewrite inject_Z_opp; ring).
    apply signed_error; [apply mag_nonneg | exact Er].
Qed.

Lemma Zdigits2_le z d : 0 <= d -> Z.abs z < 2 ^ d -> Zdigits2 z <= d.
Proof.
  intros Hd H. destruct z as [|p|p]; cbn [Zdigits2]; [lia| |];
    pose proof (digits2_pos_bounds p) as [L _];
    assert (Zpos (digits2_pos p) - 1 < d) by (apply pow2_lt_inv; lia); lia.
Qed.

Lemma Zdigits2_pos z : z <> 0 -> 0 < Zdigits2 z.
Proof. destruct z; cbn [Zdigits2]; lia. Qed.

(** The operands of an addition, aligned on the smaller exponent. *)
Lemma aligned_value s m e ez :
  ez <= e ->
  (Fval (S754_finite s m e)
   == inject_Z (cond_Zopp s (Zpos (fst (shl_align m e ez)))) * 2 ^ ez)%Q.
Proof.
  intros H. pose proof (shl_align_spec m e ez) as [A _].
  replace (Z.max (e - ez) 0) with (e - ez) in A by lia.
  rewrite Fval_finite.
  assert (E : (inject_Z (cond_Zopp s (Zpos (fst (shl_align m e ez))))
               == sgnQ s * inject_Z (Zpos m * 2 ^ (e - ez)))%Q).
  { rewrite <- A. destruct s; cbn [cond_Zopp]; unfold sgnQ.
    - rewrite inject_Z_opp. ring.
    - ring. }
  rewrite E, <- Qmult_assoc, scaled_value by lia.
  replace (ez + (e - ez)) with e by lia. reflexivity.
Qed.

Lemma aligned_bound s m e ez k :
  ez <= e -> Zpos (digits2_pos m) = prec -> prec + e <= k ->
  Z.abs (cond_Zopp s (Zpos (fst (shl_align m e ez)))) < 2 ^ (k - ez).
Proof.
  intros H D R. pose proof (shl_align_spec m e ez) as [A _].
  replace (Z.max (e - ez) 0) with (e - ez) in A by lia.
  pose proof (digits2_pos_bounds m) as [_ U]. rewrite D in U.
  assert (E : Z.abs (cond_Zopp s (Zpos (fst (shl_align m e ez)))) = Zpos m * 2 ^ (e - ez)).
  { rewrite <- A. destruct s; cbn [cond_Zopp]; lia. }
  rewrite E.
  pose proof (pow2_pos (e - ez) ltac:(lia)) as P.
  assert (2 ^ (prec + (e - ez)) <= 2 ^ (k - ez)) by (apply pow2_le; lia).
  rewrite Z.pow_add_r in H0 by lia. nia.
Qed.

Lemma SFadd_value a x y :
  fin prec a x -> fin prec a y ->
  emin + prec <= - (a + prec + 2) -> a + prec + 2 <= emax ->
  fin prec (a + prec + 2) (SFadd prec emax x y) /\
  (Qabs (Fval (SFadd prec emax x y) - (Fval x + Fval y))
   <= u * Qabs (Fval x + Fval y))%Q.
Proof.
  intros Hx Hy Hlo Hhi.
  assert (Z0 : forall q : Q, (Qabs (q - (0 + q)) <= u * Qabs (0 + q))%Q).
  { intros q. setoid_replace (q - (0 + q))%Q with 0%Q by ring.
    change (Qabs 0) with 0%Q.
    apply Qmult_le_0_compat; [apply Qlt_le_weak, pow2Q_pos | apply Qabs_nonneg]. }
  assert (Z1 : forall q : Q, (Qabs (q - (q + 0)) <= u * Qabs (q + 0))%Q).
  { intros q. setoid_replace (q - (q + 0))%Q with 0%Q by ring.
    change (Qabs 0) with 0%Q.
    apply Qmult_le_0_compat; [apply Qlt_le_weak, pow2Q_pos | apply Qabs_nonneg]. }
  destruct x as [sx|sx| |sx mx ex], y as [sy|sy| |sy my ey]; cbn [fin] in Hx, Hy;
    try contradiction; cbn [SFadd].
  - split.
    + destruct sx, sy; exact I.
    + destruct sx, sy; apply (Z0 0%Q).
  - split; [cbn [fin]; destruct Hy; split; [assumption | lia]|].
    apply (Z0 (Fval (S754_finite sy my ey))).
  - split; [cbn [fin]; destruct Hx; split; [assumption | lia]|].
    apply (Z1 (Fval (S754_finite sx mx ex))).
  - destruct Hx as [Dx Rx], Hy as [Dy Ry].
    set (ez := Z.min ex ey).
    set (S := cond_Zopp sx (Zpos (fst (shl_align mx ex ez))) +
              cond_Zopp sy (Zpos (fst (shl_align my ey ez)))).
    assert (EV : (Fval (S754_finite sx mx ex) + Fval (S754_finite sy my ey)
                  == inject_Z S * 2 ^ ez)%Q).
    { subst S. rewrite inject_Z_plus, (aligned_value sx mx ex ez), (aligned_value sy my ey ez)
        by (subst ez; lia). ring. }
    pose proof (aligned_bound sx mx ex ez a ltac:(subst ez; lia) Dx ltac:(lia)) as Bx.
    pose proof (aligned_bound sy my ey ez a ltac:(subst ez; lia) Dy ltac:(lia)) as By.
    assert (BS : Z.abs S < 2 ^ (a - ez + 1)).
    { rewrite Z.pow_add_r by (subst ez; lia). change (2 ^ 1) with 2. subst S. lia. }
    destruct (binary_normalize_value S ez (a + prec + 2)) as [F E]; try lia.
    { intros NS. pose proof (Zdigits2_le S (a - ez + 1) ltac:(subst ez; lia) BS).
      pose proof (Zdigits2_pos S NS). subst ez. lia. }
    split; [exact F|]. rewrite EV. exact E.
Qed.


Lemma SFsub_value a x y :
  fin prec a x -> fin prec a y ->
  emin + prec <= - (a + prec + 2) -> a + prec + 2 <= emax ->
  fin prec (a + prec + 2) (SFsub prec emax x y) /\
  (Qabs (Fval (SFsub prec emax x y) - (Fval x - Fval y))
   <= u * Qabs (Fval x - Fval y))%Q.
Proof.
  intros Hx Hy Hlo Hhi.
  assert (Z0 : forall q r : Q, (q == r)%Q -> (Qabs (q - r) <= u * Qabs r)%Q).
  { intros q r ->. setoid_replace (r - r)%Q with 0%Q by ring.
    change (Qabs 0) with 0%Q.
    apply Qmult_le_0_compat; [apply Qlt_le_weak, pow2Q_pos | apply Qabs_nonneg]. }
  destruct x as [sx|sx| |sx mx ex], y as [sy|sy| |sy my ey]; cbn [fin] in Hx, Hy;
    try contradiction; cbn [SFsub].
  - split.
    + destruct sx, sy; exact I.
    + destruct sx, sy; apply Z0; cbn [Fval]; ring.
  - split; [cbn [fin]; destruct Hy; split; [assumption | lia]|].
    apply Z0. rewrite !Fval_finite. change (Fval (S754_zero sx)) with 0%Q.
    destruct sy; unfold sgnQ; cbn [negb]; ring.
  - split; [cbn [fin]; destruct Hx; split; [assumption | lia]|].
    apply Z0. change (Fval (S754_zero sy)) with 0%Q. ring.
  - destruct Hx as [Dx Rx], Hy as [Dy Ry].
    set (ez := Z.min ex ey).
    set (S := cond_Zopp sx (Zpos (fst (shl_align mx ex ez))) -
              cond_Zopp sy (Zpos (fst (shl_align my ey ez)))).
    assert (EV : (Fval (S754_finite sx mx ex) - Fval (S754_finite sy my ey)
                  == inject_Z S * 2 ^ ez)%Q).
    { subst S. unfold Z.sub.
      rewrite inject_Z_plus, inject_Z_opp,
        (aligned_value sx mx ex ez), (aligned_value sy my ey ez)
        by (subst ez; lia). ring. }
    pose proof (aligned_bound sx mx ex ez a ltac:(subst ez; lia) Dx ltac:(lia)) as Bx.
    pose proof (aligned_bound sy my ey ez a ltac:(subst ez; lia) Dy ltac:(lia)) as By.
    assert (BS : Z.abs S < 2 ^ (a - ez + 1)).
    { rewrite Z.pow_add_r by (subst ez; lia). change (2 ^ 1) with 2. subst S. lia. }
    destruct (binary_normalize_value S ez (a + prec + 2)) as [F E]; try lia.
    { intros NS. pose proof (Zdigits2_le S (a - ez + 1) ltac:(subst ez; lia) BS).
      pose proof (Zdigits2_pos S NS). subst ez. lia. }
    split; [exact F|]. rewrite EV. exact E.
Qed.

End OperationValues.

(** * The double operations of the viewer *)

Lemma Z_to_double_value z d :
  0 <= d <= 1000 -> Z.abs z < 2 ^ d ->
  fin dprec (d + 1) (Z_to_double z) /\
  (Qabs (Fval (Z_to_double z) - inject_Z z) <= u53 * Qabs (inject_Z z))%Q.
Proof.
  intros Hd Hz. unfold Z_to_double.
  destruct (binary_normalize_value dprec demax dprec_pos z 0 (d + 1)) as [F E].
  - intros NZ. pose proof (Zdigits2_le z d ltac:(lia) Hz).
    pose proof (Zdigits2_pos z NZ). lia.
  - unfold emin, dprec, demax. lia.
  - unfold demax. lia.
  - split; [exact F|].
    setoid_replace (inject_Z z) with (inject_Z z * 2 ^ 0)%Q at 1 2
      by (change (2 ^ 0)%Q with 1%Q; ring).
    exact E.
Qed.

Lemma dmul_value a b x y :
  fin dprec a x -> fin dprec b y -> 0 <= a + b <= 1000 ->
  fin dprec (a + b + 1) (dmul x y) /\
  (Qabs (Fval (dmul x y) - Fval x * Fval y) <= u53 * Qabs (Fval x * Fval y))%Q.
Proof.
  intros Hx Hy H. apply (SFmul_value dprec demax dprec_pos); trivial;
    unfold emin, dprec, demax; lia.
Qed.

Lemma ddiv_value a b x y :
  fin dprec a x -> fin dprec b y -> ~ (Fval y == 0)%Q -> 0 <= a + b <= 1000 ->
  fin dprec (a + b + 2) (ddiv x y) /\
  (Qabs (Fval (ddiv x y) - Fval x / Fval y) <= u53 * Qabs (Fval x / Fval y))%Q.
Proof.
  intros Hx Hy Ny H. apply (SFdiv_value dprec demax dprec_pos); trivial;
    unfold emin, dprec, demax; lia.
Qed.

Lemma dsub_value a x y :
  fin dprec a x -> fin dprec a y -> 0 <= a <= 900 ->
  fin dprec (a + 55) (dsub x y) /\
  (Qabs (Fval (dsub x y) - (Fval x - Fval y)) <= u53 * Qabs (Fval x - Fval y))%Q.
Proof.
  intros Hx Hy H.
  destruct (SFsub_value dprec demax dprec_pos a x y Hx Hy) as [F E];
    try (unfold emin, dprec, demax; lia).
  split; [| exact E].
  replace (a + 55) with (a + dprec + 2) by (unfold dprec; lia). exact F.
Qed.

Lemma double_to_ssize_near a x :
  fin dprec a x -> double_to_ssize x <> SSIZE_MIN ->
  (Qabs (inject_Z (double_to_ssize x) - Fval x) < 1)%Q.
Proof.
  intros Hx Hn. destruct x as [sx|sx| |sx m e]; cbn [fin] in Hx; try contradiction.
  - cbn [double_to_ssize Fval]. reflexivity.
  - rewrite Fval_finite. cbn [double_to_ssize] in Hn |- *.
    set (A := Z.shiftl (Zpos m) e) in *.
    assert (HA : (inject_Z A <= inject_Z (Zpos m) * 2 ^ e)%Q /\
                 (inject_Z (Zpos m) * 2 ^ e < inject_Z A + 1)%Q).
    { subst A. destruct (Z.le_gt_cases 0 e) as [He|He].
      - rewrite Z.shiftl_mul_pow2 by lia.
        rewrite inject_Z_mult, <- pow2Q_Z by lia.
        split; [apply Qle_refl|]. lra.
      - rewrite Z.shiftl_div_pow2 by lia.
        assert (P : 0 < 2 ^ (- e)) by (apply Z.pow_pos_nonneg; lia).
        pose proof (Z.div_mod (Zpos m) (2 ^ (- e)) ltac:(lia)) as DM.
        pose proof (Z.mod_pos_bound (Zpos m) (2 ^ (- e)) P) as MB.
        set (f := Zpos m / 2 ^ (- e)) in *.
        assert (EM : (inject_Z (Zpos m) * 2 ^ e * 2 ^ (- e) == inject_Z (Zpos m))%Q).
        { rewrite <- Qmult_assoc, <- pow2Q_add. replace (e + - e) with 0 by lia.
          change (2 ^ 0)%Q with 1%Q. ring. }
        pose proof (pow2Q_pos (- e)) as PQ.
        assert (L1 : (inject_Z f * 2 ^ (- e) <= inject_Z (Zpos m))%Q).
        { rewrite pow2Q_Z, <- inject_Z_mult, <- Zle_Qle by lia. lia. }
        assert (L2 : (inject_Z (Zpos m) < (inject_Z f + 1) * 2 ^ (- e))%Q).
        { change 1%Q with (inject_Z 1).
          rewrite pow2Q_Z, <- inject_Z_plus, <- inject_Z_mult, <- Zlt_Qlt by lia. lia. }
        rewrite <- EM in L1, L2.
        split.
        + apply Qmult_le_r in L1; assumption.
        + apply Qmult_lt_r in L2; assumption. }
    destruct HA as (A1 & A2).
    destruct ((SSIZE_MIN <=? (if sx then - A else A)) &&
              ((if sx then - A else A) <=? SSIZE_MAX)); [|contradiction].
    generalize dependent (inject_Z (Zpos m) * 2 ^ e)%Q. intros V A1 A2.
    destruct sx; unfold sgnQ.
    + rewrite inject_Z_opp. apply Qabs_Qlt_condition. split; lra.
    + apply Qabs_Qlt_condition. split; lra.
Qed.

(** * Accumulated error *)

Lemma u53_pos : (0 < u53)%Q.
Proof. reflexivity. Qed.

Lemma approx_exact (B T : Q) : (Qabs T <= B)%Q -> approx 0 B T T.
Proof.
  intros H. split; [|exact H].
  setoid_replace (T - T)%Q with 0%Q by ring.
  setoid_replace (0 * u53 * B)%Q with 0%Q by ring. apply Qle_refl.
Qed.

Lemma approx_round (c c' B v e T : Q) :
  approx c B e T -> (Qabs (v - e) <= u53 * Qabs e)%Q ->
  (0 <= c)%Q -> (c + 1 + c * u53 <= c')%Q -> approx c' B v T.
Proof.
  intros [E TB] R Hc Hc'. split; [|exact TB].
  assert (B0 : (0 <= B)%Q) by (eapply Qle_trans; [apply Qabs_nonneg | exact TB]).
  pose proof u53_pos as U.
  assert (Ee : (Qabs e <= B + c * u53 * B)%Q).
  { setoid_replace e with (T + (e - T))%Q at 1 by ring.
    eapply Qle_trans; [apply Qabs_triangle|]. lra. }
  assert (S1 : (Qabs (v - T) <= u53 * Qabs e + c * u53 * B)%Q).
  { setoid_replace (v - T)%Q with ((v - e) + (e - T))%Q by ring.
    eapply Qle_trans; [apply Qabs_triangle|]. lra. }
  assert (S2 : (u53 * Qabs e <= u53 * (B + c * u53 * B))%Q).
  { apply Qmult_le_l; assumption. }
  assert (S3 : ((c + 1 + c * u53) * (u53 * B) <= c' * (u53 * B))%Q).
  { apply Qmult_le_compat_r; [exact Hc'|].
    apply Qmult_le_0_compat; [apply Qlt_le_weak, U | exact B0]. }
  eapply Qle_trans; [exact S1|].
  setoid_replace (c' * u53 * B)%Q with (c' * (u53 * B))%Q by ring.
  eapply Qle_trans; [|exact S3].
  setoid_replace ((c + 1 + c * u53) * (u53 * B))%Q
    with (u53 * (B + c * u53 * B) + c * u53 * B)%Q by ring.
  lra.
Qed.

Lemma approx_div (c B v T s : Q) :
  approx c B v T -> (0 < s)%Q -> approx c (B / s) (v / s) (T / s).
Proof.
  intros [E TB] Hs.
  assert (I : (0 < / s)%Q) by now apply Qinv_lt_0_compat.
  assert (AI : (Qabs (/ s) == / s)%Q) by (apply Qabs_pos; lra).
  split.
  - unfold Qdiv. setoid_replace (v * / s - T * / s)%Q with ((v - T) * / s)%Q by ring.
    rewrite Qabs_Qmult, AI.
    setoid_replace (c * u53 * (B * / s))%Q with (c * u53 * B * / s)%Q by ring.
    apply Qmult_le_compat_r; [exact E | lra].
  - unfold Qdiv. rewrite Qabs_Qmult, AI.
    apply Qmult_le_compat_r; [exact TB | lra].
Qed.

Lemma approx_mul (c B v T s : Q) :
  approx c B v T -> (0 < s)%Q -> approx c (B * s) (v * s) (T * s).
Proof.
  intros [E TB] Hs.
  assert (AI : (Qabs s == s)%Q) by (apply Qabs_pos; lra).
  split.
  - setoid_replace (v * s - T * s)%Q with ((v - T) * s)%Q by ring.
    rewrite Qabs_Qmult, AI.
    setoid_replace (c * u53 * (B * s))%Q with (c * u53 * B * s)%Q by ring.
    apply Qmult_le_compat_r; [exact E | lra].
  - rewrite Qabs_Qmult, AI.
    apply Qmult_le_compat_r; [exact TB | lra].
Qed.

Lemma approx_sub (c c1 c2 B1 B2 v1 v2 T1 T2 : Q) :
  approx c1 B1 v1 T1 -> approx c2 B2 v2 T2 ->
  (c1 <= c)%Q -> (c2 <= c)%Q -> approx c (B1 + B2) (v1 - v2) (T1 - T2).
Proof.
  intros [E1 TB1] [E2 TB2] H1 H2.
  assert (B10 : (0 <= B1)%Q) by (eapply Qle_trans; [apply Qabs_nonneg | exact TB1]).
  assert (B20 : (0 <= B2)%Q) by (eapply Qle_trans; [apply Qabs_nonneg | exact TB2]).
  pose proof u53_pos as U.
  split.
  - setoid_replace (v1 - v2 - (T1 - T2))%Q with ((v1 - T1) + - (v2 - T2))%Q by ring.
    eapply Qle_trans; [apply Qabs_triangle|]. rewrite Qabs_opp.
    assert (M1 : (c1 * (u53 * B1) <= c * (u53 * B1))%Q).
    { apply Qmult_le_compat_r; [exact H1|]. apply Qmult_le_0_compat; lra. }
    assert (M2 : (c2 * (u53 * B2) <= c * (u53 * B2))%Q).
    { apply Qmult_le_compat_r; [exact H2|]. apply Qmult_le_0_compat; lra. }
    setoid_replace (c * u53 * (B1 + B2))%Q with (c * (u53 * B1) + c * (u53 * B2))%Q by ring.
    setoid_replace (c1 * u53 * B1)%Q with (c1 * (u53 * B1))%Q in E1 by ring.
    setoid_replace (c2 * u53 * B2)%Q with (c2 * (u53 * B2))%Q in E2 by ring.
    lra.
  - unfold Qminus. eapply Qle_trans; [apply Qabs_triangle|]. rewrite Qabs_opp. lra.
Qed.

Lemma approx_wd (c B v T B' v' T' : Q) :
  approx c B v T -> (B == B')%Q -> (v == v')%Q -> (T == T')%Q -> approx c B' v' T'.
Proof. intros [E TB] HB Hv HT. unfold approx. rewrite <- HB, <- Hv, <- HT. now split. Qed.

(** * The pivot of a zoom *)

Lemma reachable_value s : scale_reachable s -> fin dprec 68 s /\ (0 < Fval s)%Q.
Proof.
  intros H. apply scale_reachable_nrm in H. destruct H as (m & e & -> & D & R).
  split; [cbn [fin]; split; [exact D | lia]|].
  rewrite Fval_finite. unfold sgnQ.
  setoid_replace (1 * (inject_Z (Zpos m) * 2 ^ e))%Q with (inject_Z (Zpos m) * 2 ^ e)%Q by ring.
  apply Qmult_lt_0_compat; [|apply pow2Q_pos].
  change 0%Q with (inject_Z 0). rewrite <- Zlt_Qlt. lia.
Qed.

Lemma d_2_value : fin dprec 2 d_2 /\ (Fval d_2 == 2)%Q.
Proof. split; [vm_compute; split; [reflexivity | split; discriminate] | reflexivity]. Qed.

Lemma Z_to_double_approx z :
  Z.abs z < 2 ^ 64 ->
  fin dprec 65 (Z_to_double z) /\
  approx 1 (Qabs (inject_Z z)) (Fval (Z_to_double z)) (inject_Z z).
Proof.
  intros H. destruct (Z_to_double_value z 64 ltac:(lia) H) as [F E].
  split; [exact F|].
  apply (approx_round 0 1 _ _ (inject_Z z)); trivial.
  - apply approx_exact, Qle_refl.
  - apply Qle_refl.
  - vm_compute. discriminate.
Qed.

(** The value of [wnd_half]. *)
Lemma wnd_half_approx extent :
  fin dprec 69 (wnd_half extent) /\
  approx 3 (window_center extent) (Fval (wnd_half extent)) (window_center extent).
Proof.
  unfold wnd_half, window_center.
  pose proof (size_wrap_range extent) as R. unfold SIZE_MOD in R.
  set (W := size_wrap extent) in *.
  destruct (Z_to_double_approx W ltac:(lia)) as [F A].
  destruct d_2_value as [F2 V2].
  destruct (ddiv_value 65 2 _ _ F F2) as [Fh Eh].
  { intros Z0. rewrite V2 in Z0. discriminate Z0. }
  { lia. }
  split; [exact Fh|].
  assert (AW : (Qabs (inject_Z W) == inject_Z W)%Q).
  { apply Qabs_pos. change 0%Q with (inject_Z 0). rewrite <- Zle_Qle. lia. }
  apply (approx_round 1 3 _ _ (Fval (Z_to_double W) / Fval d_2)%Q).
  - apply (approx_div 1 _ _ _ 2) in A; [|reflexivity].
    eapply approx_wd; [exact A | | | reflexivity].
    + rewrite AW. reflexivity.
    + rewrite V2. reflexivity.
  - exact Eh.
  - discriminate.
  - vm_compute. discriminate.
Qed.

(** The position a zoom computes on one axis, before truncation: its
    value against the exact [center - pivot * s'], where the pivot is
    [(center - x) / s]. *)
Lemma pivot_axis_value extent x s s' :
  SSIZE_MIN <= x <= SSIZE_MAX -> scale_reachable s -> scale_reachable s' ->
  let C := window_center extent in
  let X := inject_Z x in
  let t := dsub (wnd_half extent)
             (dmul (dsub (ddiv (wnd_half extent) s) (ddiv (Z_to_double x) s)) s') in
  fin dprec 318 t /\
  approx 11 (C + (C / Fval s + Qabs X / Fval s) * Fval s')
         (Fval t) (C - (C / Fval s - X / Fval s) * Fval s').
Proof.
  intros Hx Hs Hs' C X t.
  destruct (reachable_value s Hs) as [Fs Ps].
  destruct (reachable_value s' Hs') as [Fs' Ps'].
  destruct (wnd_half_approx extent) as [Fh Ah]. fold C in Ah.
  destruct (Z_to_double_approx x) as [Fx Ax].
  { unfold SSIZE_MIN, SSIZE_MAX in Hx. lia. }
  fold X in Ax.
  assert (Ns : ~ (Fval s == 0)%Q) by lra.
  (* wnd_half / scale *)
  destruct (ddiv_value 69 68 _ _ Fh Fs Ns ltac:(lia)) as [FA EA].
  assert (AA : approx 5 (C / Fval s) (Fval (ddiv (wnd_half extent) s)) (C / Fval s)).
  { apply (approx_round 3 5 _ _ (Fval (wnd_half extent) / Fval s)%Q).
    - now apply approx_div.
    - exact EA.
    - discriminate.
    - vm_compute. discriminate. }
  (* img / scale *)
  destruct (ddiv_value 65 68 _ _ Fx Fs Ns ltac:(lia)) as [FB EB].
  assert (AB : approx 3 (Qabs X / Fval s) (Fval (ddiv (Z_to_double x) s)) (X / Fval s)).
  { apply (approx_round 1 3 _ _ (Fval (Z_to_double x) / Fval s)%Q).
    - now apply approx_div.
    - exact EB.
    - discriminate.
    - vm_compute. discriminate. }
  (* center *)
  destruct (dsub_value 139 _ _ FA (fin_weaken _ _ 139 _ FB ltac:(lia)) ltac:(lia))
    as [Fc Ec].
  set (cx := dsub (ddiv (wnd_half extent) s) (ddiv (Z_to_double x) s)) in *.
  assert (Ac : approx 7 (C / Fval s + Qabs X / Fval s) (Fval cx)
                 (C / Fval s - X / Fval s)).
  { eapply (approx_round 5 7); [| exact Ec | discriminate | vm_compute; discriminate].
    apply (approx_sub 5 5 3); trivial; discriminate. }
  (* center * new scale *)
  destruct (dmul_value 194 68 _ _ Fc Fs' ltac:(lia)) as [FM EM].
  assert (AM : approx 9 ((C / Fval s + Qabs X / Fval s) * Fval s') (Fval (dmul cx s'))
                 ((C / Fval s - X / Fval s) * Fval s')).
  { eapply (approx_round 7 9); [| exact EM | discriminate | vm_compute; discriminate].
    now apply approx_mul. }
  (* wnd_half - center * new scale *)
  destruct (dsub_value 263 _ _ (fin_weaken _ _ 263 _ Fh ltac:(lia)) FM ltac:(lia))
    as [Ft Et].
  split; [exact Ft|].
  eapply (approx_round 9 11); [| exact Et | discriminate | vm_compute; discriminate].
  apply (approx_sub 9 3 9); trivial; discriminate.
Qed.

Lemma valid_zoom_percent_bounds percent :
  valid_zoom_percent (Some percent) = true -> percent <> 0 /\ -1000 < percent < 1000.
Proof.
  cbn [valid_zoom_percent]. intros H.
  apply andb_prop in H. destruct H as [H H3]. apply andb_prop in H. destruct H as [H1 H2].
  apply negb_true_iff, Z.eqb_neq in H1. apply Z.ltb_lt in H2. apply Z.ltb_lt in H3. lia.
Qed.

Lemma zoom_scale_reachable percent p s :
  valid_zoom_percent (Some percent) = true -> frame_size_ok p -> scale_reachable s ->
  scale_reachable (zoom_scale percent p s).
Proof.
  intros Hv Hf Hs. apply valid_zoom_percent_bounds in Hv.
  destruct (Z.lt_ge_cases 0 percent).
  - apply scale_in_range_reachable, zoom_scale_in_wide; trivial; lia.
  - apply zoom_scale_out_wide; trivial; lia.
Qed.

(** One axis of a zoom whose truncated position [x'] is in range: the
    point [(center - x) / s] is shown within the tolerance of the
    window center at the new scale, and is within the tolerance, in
    window pixels, of the point under the center afterwards. *)
Lemma pivot_axis extent x s s' :
  SSIZE_MIN <= x <= SSIZE_MAX -> scale_reachable s -> scale_reachable s' ->
  let C := window_center extent in
  let x' := double_to_ssize
              (dsub (wnd_half extent)
                 (dmul (dsub (ddiv (wnd_half extent) s) (ddiv (Z_to_double x) s)) s')) in
  let p := ((C - inject_Z x) / Fval s)%Q in
  x' <> SSIZE_MIN ->
  (Qabs (inject_Z x' + p * Fval s' - C) < pivot_tolerance extent x s s')%Q /\
  (Qabs ((C - inject_Z x') / Fval s' - p) < pivot_tolerance extent x s s' / Fval s')%Q.
Proof.
  intros Hx Hs Hs' C x' p Hn.
  destruct (pivot_axis_value extent x s s' Hx Hs Hs') as [Ft [Et Tb]].
  fold C in Et, Tb.
  pose proof (double_to_ssize_near _ _ Ft Hn) as Tr. fold x' in Tr.
  destruct (reachable_value s Hs) as [_ Ps].
  destruct (reachable_value s' Hs') as [_ Ps'].
  set (t := Fval (dsub _ _)) in *.
  set (T := (C - (C / Fval s - inject_Z x / Fval s) * Fval s')%Q) in *.
  set (B := (C + (C / Fval s + Qabs (inject_Z x) / Fval s) * Fval s')%Q) in *.
  assert (EB : (B == window_center extent +
                 Fval s' / Fval s * (window_center extent + Qabs (inject_Z x)))%Q).
  { subst B. fold C. field. lra. }
  assert (B0 : (0 <= B)%Q).
  { eapply Qle_trans; [apply Qabs_nonneg | exact Tb]. }
  assert (U : (11 * u53 * B <= 2 ^ (-48) * B)%Q).
  { apply Qmult_le_compat_r; [|exact B0]. vm_compute. discriminate. }
  assert (M : (Qabs (inject_Z x' + p * Fval s' - C) < pivot_tolerance extent x s s')%Q).
  { unfold pivot_tolerance. rewrite <- EB.
    setoid_replace (inject_Z x' + p * Fval s' - C)%Q
      with ((inject_Z x' - t) + (t - T))%Q
      by (subst p T; field; lra).
    eapply Qle_lt_trans; [apply Qabs_triangle|]. lra. }
  split; [exact M|].
  setoid_replace ((C - inject_Z x') / Fval s' - p)%Q
    with (- (inject_Z x' + p * Fval s' - C) / Fval s')%Q by (field; lra).
  unfold Qdiv. rewrite Qabs_Qmult, Qabs_opp.
  assert (I : (0 < / Fval s')%Q) by now apply Qinv_lt_0_compat.
  rewrite (Qabs_pos (/ Fval s')) by lra.
  apply Qmult_lt_compat_r; assumption.
Qed.



(* ================================================================== *)
(** * Further properties of the operations *)

(* ================================================================== *)
(** * Position fix-up: reach, idempotence, covering *)

Lemma ssize_wrap_range z : SSIZE_MIN <= ssize_wrap z <= SSIZE_MAX.
Proof.
  unfold ssize_wrap, SSIZE_MIN, SSIZE_MAX, SIZE_MOD.
  pose proof (Z.mod_pos_bound (z + 2 ^ 63) (2 ^ 64) ltac:(lia)). lia.
Qed.

Lemma ssize_wrap_cases z :
  ssize_wrap z = z \/ ssize_wrap z = z - SIZE_MOD \/ ssize_wrap z = z + SIZE_MOD \/
  z < SSIZE_MIN - SIZE_MOD \/ SSIZE_MAX + SIZE_MOD < z.
Proof.
  unfold ssize_wrap, SSIZE_MIN, SSIZE_MAX, SIZE_MOD.
  pose proof (Z.div_mod (z + 2 ^ 63) (2 ^ 64) ltac:(lia)).
  pose proof (Z.mod_pos_bound (z + 2 ^ 63) (2 ^ 64) ltac:(lia)). lia.
Qed.

Lemma axis_coordinate_range r W I :
  SSIZE_MIN <= axis_coordinate r W I <= SSIZE_MAX.
Proof.
  destruct r; cbn [axis_coordinate]; unfold ssub; try apply ssize_wrap_range.
  unfold SSIZE_MIN, SSIZE_MAX. lia.
Qed.

(** Any fix-up, one axis at a time. *)
Lemma fixup_axis_x force w :
  img_x (ctx (fixup_position force w)) =
  bind_and_clamp (fixed (ctx w)) (ssize_wrap (ui_width w))
    (scaled_dim (scale (ctx w)) (width (current_pm w)))
    (if force || (fixed (ctx w) &&
        (scaled_dim (scale (ctx w)) (width (current_pm w)) <=? ssize_wrap (ui_width w)))
     then axis_coordinate (horizontal_rule (position (ctx w))) (ssize_wrap (ui_width w))
            (scaled_dim (scale (ctx w)) (width (current_pm w)))
     else img_x (ctx w)).
Proof.
  destruct force; [rewrite fixup_forced_x | rewrite fixup_unforced_x]; reflexivity.
Qed.

Lemma fixup_axis_y force w :
  img_y (ctx (fixup_position force w)) =
  bind_and_clamp (fixed (ctx w)) (ssize_wrap (ui_height w))
    (scaled_dim (scale (ctx w)) (height (current_pm w)))
    (if force || (fixed (ctx w) &&
        (scaled_dim (scale (ctx w)) (height (current_pm w)) <=? ssize_wrap (ui_height w)))
     then axis_coordinate (vertical_rule (position (ctx w))) (ssize_wrap (ui_height w))
            (scaled_dim (scale (ctx w)) (height (current_pm w)))
     else img_y (ctx w)).
Proof.
  destruct force; [rewrite fixup_forced_y | rewrite fixup_unforced_y]; reflexivity.
Qed.

(** Whatever the coordinate was, binding and clamping leave the image
    within reach of the window. *)
Lemma bind_and_clamp_reach fx W I x :
  0 <= W <= SSIZE_MAX -> 0 <= I <= SSIZE_MAX -> SSIZE_MIN <= x <= SSIZE_MAX ->
  - I <= bind_and_clamp fx W I x <= W.
Proof.
  intros HW HI Hx. unfold bind_and_clamp, ssub, sneg.
  rewrite (ssize_wrap_id (W - I)) by (unfold SSIZE_MIN, SSIZE_MAX in *; lia).
  rewrite (ssize_wrap_id (- I)) by (unfold SSIZE_MIN, SSIZE_MAX in *; lia).
  set (x1 := if fx && ((0 <? x) && (W <? sadd x I)) then 0 else x).
  assert (R1 : SSIZE_MIN <= x1 <= SSIZE_MAX)
    by (subst x1; destruct (fx && _); unfold SSIZE_MIN, SSIZE_MAX in *; lia).
  clearbody x1.
  set (x2 := if fx && ((x1 <? 0) && (sadd x1 I <? W)) then W - I else x1).
  assert (R2 : SSIZE_MIN <= x2 <= SSIZE_MAX)
    by (subst x2; destruct (fx && _); unfold SSIZE_MIN, SSIZE_MAX in *; lia).
  clearbody x2. clear R1.
  unfold sadd. pose proof (ssize_wrap_cases (x2 + I)) as C.
  pose proof (ssize_wrap_range (x2 + I)) as R.
  unfold SSIZE_MIN, SSIZE_MAX, SIZE_MOD in *.
  destruct (Z.ltb_spec (ssize_wrap (x2 + I)) 0).
  - destruct (Z.ltb_spec W (- I)); lia.
  - destruct (Z.ltb_spec W x2); lia.
Qed.

(** In fixed mode an image at least as wide as the window ends up covering
    it; this needs the sum of coordinate and image size to be
    representable. *)
Lemma bind_and_clamp_cover W I x :
  0 <= W -> W <= I <= SSIZE_MAX -> SSIZE_MIN <= x -> x + I <= SSIZE_MAX ->
  W - I <= bind_and_clamp true W I x <= 0.
Proof.
  intros HW HI Hx Hs. unfold bind_and_clamp, ssub, sneg. cbn [andb].
  rewrite (ssize_wrap_id (W - I)) by (unfold SSIZE_MIN, SSIZE_MAX in *; lia).
  rewrite (ssize_wrap_id (- I)) by (unfold SSIZE_MIN, SSIZE_MAX in *; lia).
  set (x1 := if (0 <? x) && (W <? sadd x I) then 0 else x).
  assert (R1 : SSIZE_MIN <= x1 <= 0 /\ x1 + I <= SSIZE_MAX).
  { subst x1. unfold sadd.
    rewrite (ssize_wrap_id (x + I)) by (unfold SSIZE_MIN, SSIZE_MAX in *; lia).
    destruct (Z.ltb_spec 0 x), (Z.ltb_spec W (x + I)); cbn [andb];
      unfold SSIZE_MIN, SSIZE_MAX in *; lia. }
  clearbody x1.
  set (x2 := if (x1 <? 0) && (sadd x1 I <? W) then W - I else x1).
  assert (R2 : W - I <= x2 <= 0 /\ SSIZE_MIN <= x2).
  { subst x2. unfold sadd.
    rewrite (ssize_wrap_id (x1 + I)) by (unfold SSIZE_MIN, SSIZE_MAX in *; lia).
    destruct (Z.ltb_spec x1 0), (Z.ltb_spec (x1 + I) W); cbn [andb];
      unfold SSIZE_MIN, SSIZE_MAX in *; lia. }
  clearbody x2. unfold sadd.
  rewrite (ssize_wrap_id (x2 + I)) by (unfold SSIZE_MIN, SSIZE_MAX in *; lia).
  destruct (Z.ltb_spec (x2 + I) 0); [lia|].
  destruct (Z.ltb_spec W x2); lia.
Qed.

(** In fixed mode an image that fits in the window is kept wholly inside
    it. *)
Lemma bind_and_clamp_inside W I x :
  0 <= I -> I <= W <= SSIZE_MAX -> SSIZE_MIN <= x -> x + I <= SSIZE_MAX ->
  0 <= bind_and_clamp true W I x <= W - I.
Proof.
  intros HI HW Hx Hs. unfold bind_and_clamp, ssub, sneg. cbn [andb].
  rewrite (ssize_wrap_id (W - I)) by (unfold SSIZE_MIN, SSIZE_MAX in *; lia).
  rewrite (ssize_wrap_id (- I)) by (unfold SSIZE_MIN, SSIZE_MAX in *; lia).
  set (x1 := if (0 <? x) && (W <? sadd x I) then 0 else x).
  assert (R1 : SSIZE_MIN <= x1 <= W - I).
  { subst x1. unfold sadd.
    rewrite (ssize_wrap_id (x + I)) by (unfold SSIZE_MIN, SSIZE_MAX in *; lia).
    destruct (Z.ltb_spec 0 x), (Z.ltb_spec W (x + I)); cbn [andb];
      unfold SSIZE_MIN, SSIZE_MAX in *; lia. }
  clearbody x1.
  set (x2 := if (x1 <? 0) && (sadd x1 I <? W) then W - I else x1).
  assert (R2 : 0 <= x2 <= W - I).
  { subst x2. unfold sadd.
    rewrite (ssize_wrap_id (x1 + I)) by (unfold SSIZE_MIN, SSIZE_MAX in *; lia).
    destruct (Z.ltb_spec x1 0), (Z.ltb_spec (x1 + I) W); cbn [andb];
      unfold SSIZE_MIN, SSIZE_MAX in *; lia. }
  clearbody x2. unfold sadd.
  rewrite (ssize_wrap_id (x2 + I)) by (unfold SSIZE_MIN, SSIZE_MAX in *; lia).
  destruct (Z.ltb_spec (x2 + I) 0); [lia|].
  destruct (Z.ltb_spec W x2); lia.
Qed.

(** A coordinate between the two border positions passes the fixed-mode
    binding unchanged. *)
Lemma bind_and_clamp_stable W I x :
  0 <= W <= SSIZE_MAX -> 0 <= I <= SSIZE_MAX ->
  Z.min 0 (W - I) <= x <= Z.max 0 (W - I) ->
  bind_and_clamp true W I x = x.
Proof.
  intros HW HI Hx. unfold bind_and_clamp, ssub, sneg, sadd. cbn [andb].
  rewrite (ssize_wrap_id (x + I)) by (unfold SSIZE_MIN, SSIZE_MAX in *; lia).
  destruct (Z.ltb_spec 0 x), (Z.ltb_spec W (x + I)); cbn [andb]; try lia.
  all: destruct (Z.ltb_spec x 0); cbn [andb]; try lia.
  all: rewrite ?(ssize_wrap_id (x + I)) by (unfold SSIZE_MIN, SSIZE_MAX in *; lia).
  all: try (destruct (Z.ltb_spec (x + I) W); cbn [andb]; try lia).
  all: rewrite ?(ssize_wrap_id (x + I)) by (unfold SSIZE_MIN, SSIZE_MAX in *; lia).
  all: destruct (Z.ltb_spec (x + I) 0); try lia.
  all: destruct (Z.ltb_spec W x); lia.
Qed.

(** The binding and clamping pass is idempotent. *)
Lemma bind_and_clamp_idem fx W I x :
  0 <= W -> 0 <= I -> W + I <= SSIZE_MAX -> SSIZE_MIN <= x -> x + I <= SSIZE_MAX ->
  bind_and_clamp fx W I (bind_and_clamp fx W I x) = bind_and_clamp fx W I x.
Proof.
  intros HW HI Hs Hx Hxs.
  destruct fx.
  - apply bind_and_clamp_stable; try lia.
    destruct (Z.le_ge_cases I W).
    + pose proof (bind_and_clamp_inside W I x); lia.
    + pose proof (bind_and_clamp_cover W I x); lia.
  - apply bind_and_clamp_free; try lia.
    apply bind_and_clamp_reach; unfold SSIZE_MIN, SSIZE_MAX in *; lia.
Qed.

(** [fixup_position] changes nothing but the two coordinates. *)
Lemma fixup_position_eq force w :
  fixup_position force w =
  set_ctx (set_pos (img_x (ctx (fixup_position force w)))
                   (img_y (ctx (fixup_position force w))) (ctx w)) w.
Proof. reflexivity. Qed.

(** X1: [fixup_position], reach: whatever the [force] flag, the fixed
    mode, the anchor and the previous coordinates, the image is left
    within reach of the window on both axes: its left edge is not right
    of the window's right edge and its right edge is not left of the
    window's left edge (likewise vertically).  Only the extents have to
    be non-negative; the sum of coordinate and extent may even wrap. *)
Theorem fixup_position_within_reach (force : bool) (w : world) :
  let IW := scaled_dim (scale (ctx w)) (width (current_pm w)) in
  let IH := scaled_dim (scale (ctx w)) (height (current_pm w)) in
  0 <= ui_width w <= SSIZE_MAX -> 0 <= ui_height w <= SSIZE_MAX ->
  0 <= IW -> 0 <= IH ->
  SSIZE_MIN <= img_x (ctx w) <= SSIZE_MAX ->
  SSIZE_MIN <= img_y (ctx w) <= SSIZE_MAX ->
  - IW <= img_x (ctx (fixup_position force w)) <= ui_width w /\
  - IH <= img_y (ctx (fixup_position force w)) <= ui_height w.
Proof.
  intros IW IH HW HH HIW HIH Hx Hy.
  pose proof (scaled_dim_le_max (scale (ctx w)) (width (current_pm w))) as MW.
  pose proof (scaled_dim_le_max (scale (ctx w)) (height (current_pm w))) as MH.
  fold IW in MW. fold IH in MH.
  rewrite fixup_axis_x, fixup_axis_y. fold IW IH.
  rewrite (ssize_wrap_id (ui_width w)), (ssize_wrap_id (ui_height w))
    by (unfold SSIZE_MIN, SSIZE_MAX in *; lia).
  split; apply bind_and_clamp_reach; try lia.
  - destruct (force || _); [apply axis_coordinate_range | exact Hx].
  - destruct (force || _); [apply axis_coordinate_range | exact Hy].
Qed.

Lemma fixup_position_within_reach_witness :
  let w := world_of (viewer_at 5000 (-5000) false position_center d_1) 640 480
             (still_image 800 100) in
  - 800 <= img_x (ctx (fixup_position false w)) <= 640 /\
  - 100 <= img_y (ctx (fixup_position false w)) <= 480.
Proof.
  apply (fixup_position_within_reach false
           (world_of (viewer_at 5000 (-5000) false position_center d_1) 640 480
              (still_image 800 100)));
    vm_compute; try split; discriminate.
Defined.

(** The anchor coordinate plus the extent stays representable. *)
Lemma axis_coordinate_sum r W I :
  0 <= W -> 0 <= I -> W + I <= SSIZE_MAX ->
  SSIZE_MIN <= axis_coordinate r W I /\ axis_coordinate r W I + I <= SSIZE_MAX.
Proof.
  intros HW HI HS.
  rewrite axis_coordinate_plain by lia.
  assert (0 <= W / 2 <= W) by (split; [apply Z.div_pos | apply Z.div_le_upper_bound]; lia).
  assert (0 <= I / 2 <= I) by (split; [apply Z.div_pos | apply Z.div_le_upper_bound]; lia).
  destruct r; unfold SSIZE_MIN, SSIZE_MAX in *; lia.
Qed.

(** X2: [fixup_position] is idempotent: running it a second time with the
    same flag changes nothing in the whole state, provided window and
    image extents and the coordinates stay clear of [ssize_t] overflow. *)
Theorem fixup_position_idempotent (force : bool) (w : world) :
  let IW := scaled_dim (scale (ctx w)) (width (current_pm w)) in
  let IH := scaled_dim (scale (ctx w)) (height (current_pm w)) in
  0 <= ui_width w -> 0 <= ui_height w -> 0 <= IW -> 0 <= IH ->
  ui_width w + IW <= SSIZE_MAX -> ui_height w + IH <= SSIZE_MAX ->
  SSIZE_MIN <= img_x (ctx w) -> img_x (ctx w) + IW <= SSIZE_MAX ->
  SSIZE_MIN <= img_y (ctx w) -> img_y (ctx w) + IH <= SSIZE_MAX ->
  fixup_position force (fixup_position force w) = fixup_position force w.
Proof.
  intros IW IH HW HH HIW HIH SW SH Hx Hxs Hy Hys.
  rewrite (fixup_position_eq force (fixup_position force w)).
  rewrite (fixup_position_eq force w) at 3 4.
  assert (Ex : img_x (ctx (fixup_position force (fixup_position force w)))
               = img_x (ctx (fixup_position force w))).
  { rewrite (fixup_axis_x force (fixup_position force w)).
    change (fixed (ctx (fixup_position force w))) with (fixed (ctx w)).
    change (ui_width (fixup_position force w)) with (ui_width w).
    change (scale (ctx (fixup_position force w))) with (scale (ctx w)).
    change (current_pm (fixup_position force w)) with (current_pm w).
    change (position (ctx (fixup_position force w))) with (position (ctx w)).
    fold IW. rewrite (fixup_axis_x force w). fold IW.
    rewrite (ssize_wrap_id (ui_width w)) by (unfold SSIZE_MIN, SSIZE_MAX in *; lia).
    destruct (force || _); [reflexivity|].
    apply bind_and_clamp_idem; lia. }
  assert (Ey : img_y (ctx (fixup_position force (fixup_position force w)))
               = img_y (ctx (fixup_position force w))).
  { rewrite (fixup_axis_y force (fixup_position force w)).
    change (fixed (ctx (fixup_position force w))) with (fixed (ctx w)).
    change (ui_height (fixup_position force w)) with (ui_height w).
    change (scale (ctx (fixup_position force w))) with (scale (ctx w)).
    change (current_pm (fixup_position force w)) with (current_pm w).
    change (position (ctx (fixup_position force w))) with (position (ctx w)).
    fold IH. rewrite (fixup_axis_y force w). fold IH.
    rewrite (ssize_wrap_id (ui_height w)) by (unfold SSIZE_MIN, SSIZE_MAX in *; lia).
    destruct (force || _); [reflexivity|].
    apply bind_and_clamp_idem; lia. }
  rewrite Ex, Ey. reflexivity.
Qed.

Lemma fixup_position_idempotent_witness :
  let w := world_of (viewer_at 5000 (-5000) true position_center d_1) 640 480
             (still_image 800 100) in
  fixup_position false (fixup_position false w) = fixup_position false w.
Proof.
  apply (fixup_position_idempotent false
           (world_of (viewer_at 5000 (-5000) true position_center d_1) 640 480
              (still_image 800 100)));
    vm_compute; discriminate.
Defined.

(** X3: [fixup_position], fixed mode: whatever the [force] flag, on each
    axis an image that fits in the window ends up wholly inside it, and
    an image at least as large as the window ends up covering it (no
    gap between an image edge and the window border). *)
Theorem fixup_position_fixed_binds (force : bool) (w : world) :
  let W := ui_width w in
  let H := ui_height w in
  let IW := scaled_dim (scale (ctx w)) (width (current_pm w)) in
  let IH := scaled_dim (scale (ctx w)) (height (current_pm w)) in
  let x' := img_x (ctx (fixup_position force w)) in
  let y' := img_y (ctx (fixup_position force w)) in
  fixed (ctx w) = true ->
  0 <= W -> 0 <= H -> 0 <= IW -> 0 <= IH ->
  W + IW <= SSIZE_MAX -> H + IH <= SSIZE_MAX ->
  SSIZE_MIN <= img_x (ctx w) -> img_x (ctx w) + IW <= SSIZE_MAX ->
  SSIZE_MIN <= img_y (ctx w) -> img_y (ctx w) + IH <= SSIZE_MAX ->
  (IW <= W -> 0 <= x' <= W - IW) /\ (W <= IW -> W - IW <= x' <= 0) /\
  (IH <= H -> 0 <= y' <= H - IH) /\ (H <= IH -> H - IH <= y' <= 0).
Proof.
  intros W H IW IH x' y' Hf HW HH HIW HIH SW SH Hx Hxs Hy Hys.
  subst x' y'. rewrite fixup_axis_x, fixup_axis_y. fold IW IH. rewrite Hf.
  rewrite (ssize_wrap_id (ui_width w)), (ssize_wrap_id (ui_height w))
    by (unfold SSIZE_MIN, SSIZE_MAX in *; fold W H; lia).
  fold W H.
  pose proof (axis_coordinate_sum (horizontal_rule (position (ctx w))) W IW HW HIW SW) as Ax.
  pose proof (axis_coordinate_sum (vertical_rule (position (ctx w))) H IH HH HIH SH) as Ay.
  destruct (force || true && (IW <=? W)), (force || true && (IH <=? H));
    repeat split; intros;
    first [ apply bind_and_clamp_inside | apply bind_and_clamp_cover ]; lia.
Qed.

Lemma fixup_position_fixed_binds_witness :
  let w := world_of (viewer_at 300 (-300) true position_center d_1) 640 480
             (still_image 800 100) in
  (640 <= 800 -> 640 - 800 <= img_x (ctx (fixup_position false w)) <= 0) /\
  (100 <= 480 -> 0 <= img_y (ctx (fixup_position false w)) <= 480 - 100).
Proof.
  destruct (fixup_position_fixed_binds false
              (world_of (viewer_at 300 (-300) true position_center d_1) 640 480
                 (still_image 800 100))) as (_ & Hx & Hy & _);
    [ reflexivity | vm_compute; discriminate .. | ].
  split; [exact Hx | exact Hy].
Defined.

(* ================================================================== *)
(** * Dragging and stepping *)

Lemma viewer_eta c : set_pos (img_x c) (img_y c) c = c.
Proof. destruct c; reflexivity. Qed.

Lemma world_eta w : set_ctx (ctx w) w = w.
Proof. destruct w; reflexivity. Qed.

(** Outside fixed mode, a drag whose target keeps the image within reach
    of the window moves the image by exactly the drag vector. *)
Lemma on_drag_free dx dy w :
  let W := ui_width w in
  let H := ui_height w in
  let IW := scaled_dim (scale (ctx w)) (width (current_pm w)) in
  let IH := scaled_dim (scale (ctx w)) (height (current_pm w)) in
  fixed (ctx w) = false ->
  0 <= W -> 0 <= H -> 0 <= IW -> 0 <= IH ->
  W + IW <= SSIZE_MAX -> H + IH <= SSIZE_MAX ->
  - IW <= img_x (ctx w) + dx <= W -> - IH <= img_y (ctx w) + dy <= H ->
  ctx (on_drag dx dy w) = set_pos (img_x (ctx w) + dx) (img_y (ctx w) + dy) (ctx w).
Proof.
  intros W H IW IH Hf HW HH HIW HIH SW SH Hx Hy.
  unfold on_drag, sadd.
  rewrite (ssize_wrap_id (img_x (ctx w) + dx)), (ssize_wrap_id (img_y (ctx w) + dy))
    by (unfold SSIZE_MIN, SSIZE_MAX in *; lia).
  set (w1 := set_ctx _ w).
  assert (F : ctx (fixup_position false w1)
              = set_pos (img_x (ctx w) + dx) (img_y (ctx w) + dy) (ctx w)).
  { rewrite (fixup_position_eq false w1).
    rewrite fixup_unforced_x, fixup_unforced_y.
    subst w1. cbn [ctx set_ctx fixed set_pos scale position img_x img_y ui_width ui_height].
    change (current_pm (set_ctx _ w)) with (current_pm w).
    rewrite Hf. cbn [andb]. fold IW IH.
    rewrite (ssize_wrap_id (ui_width w)), (ssize_wrap_id (ui_height w))
      by (unfold SSIZE_MIN, SSIZE_MAX in *; fold W H; lia).
    rewrite !bind_and_clamp_free by (fold W H; lia).
    destruct (ctx w); reflexivity. }
  destruct (negb _ || negb _) eqn:Hm.
  - exact F.
  - apply orb_false_elim in Hm. destruct Hm as [Hm1 Hm2].
    apply negb_false_iff, Z.eqb_eq in Hm1. apply negb_false_iff, Z.eqb_eq in Hm2.
    subst w1. cbn [ctx set_ctx]. reflexivity.
Qed.

(** [on_drag] touches nothing but the two coordinates and the redraw
    request. *)
Lemma on_drag_frame dx dy w :
  ui_width (on_drag dx dy w) = ui_width w /\
  ui_height (on_drag dx dy w) = ui_height w /\
  current (on_drag dx dy w) = current w /\
  scale (ctx (on_drag dx dy w)) = scale (ctx w) /\
  fixed (ctx (on_drag dx dy w)) = fixed (ctx w) /\
  frame (ctx (on_drag dx dy w)) = frame (ctx w) /\
  position (ctx (on_drag dx dy w)) = position (ctx w).
Proof. unfold on_drag. destruct (negb _ || negb _); repeat split. Qed.

(** X4: [on_drag], round trip: outside fixed mode, dragging by a vector
    and then by the opposite vector restores the viewer context, as long
    as the intermediate position keeps the image within reach of the
    window (where the clamps of [fixup_position] do not engage). *)
Theorem on_drag_round_trip (dx dy : Z) (w : world) :
  let W := ui_width w in
  let H := ui_height w in
  let IW := scaled_dim (scale (ctx w)) (width (current_pm w)) in
  let IH := scaled_dim (scale (ctx w)) (height (current_pm w)) in
  fixed (ctx w) = false ->
  0 <= W -> 0 <= H -> 0 <= IW -> 0 <= IH ->
  W + IW <= SSIZE_MAX -> H + IH <= SSIZE_MAX ->
  - IW <= img_x (ctx w) <= W -> - IH <= img_y (ctx w) <= H ->
  - IW <= img_x (ctx w) + dx <= W -> - IH <= img_y (ctx w) + dy <= H ->
  ctx (on_drag (- dx) (- dy) (on_drag dx dy w)) = ctx w.
Proof.
  intros W H IW IH Hf HW HH HIW HIH SW SH Hx0 Hy0 Hx Hy.
  pose proof (on_drag_frame dx dy w) as (Fw & Fh & Fc & Fs & Ff & Fr & Fp).
  pose proof (on_drag_free dx dy w Hf HW HH HIW HIH SW SH Hx Hy) as D1.
  assert (Epm : current_pm (on_drag dx dy w) = current_pm w)
    by (unfold current_pm; rewrite Fc, Fr; reflexivity).
  rewrite on_drag_free; rewrite ?Fw, ?Fh, ?Fs, ?Ff, ?Epm, ?D1;
    cbn [img_x img_y set_pos]; fold W H IW IH; try lia; try assumption.
  replace (img_x (ctx w) + dx + - dx) with (img_x (ctx w)) by lia.
  replace (img_y (ctx w) + dy + - dy) with (img_y (ctx w)) by lia.
  destruct (ctx w); reflexivity.
Qed.

Lemma on_drag_round_trip_witness :
  let w := world_of (viewer_at 10 20 false position_center d_1) 640 480
             (still_image 800 100) in
  ctx (on_drag (- 300) (- 40) (on_drag 300 40 w)) = ctx w.
Proof.
  apply (on_drag_round_trip 300 40
           (world_of (viewer_at 10 20 false position_center d_1) 640 480
              (still_image 800 100)));
    first [ reflexivity | vm_compute; try split; discriminate ].
Defined.

(** X5: [on_drag], fixed mode: an image that fits in the window and sits
    at its anchor cannot be dragged away; whatever the drag vector, both
    coordinates are what they were. *)
Theorem on_drag_fixed_fitting_stays (dx dy : Z) (w : world) :
  let W := ui_width w in
  let H := ui_height w in
  let IW := scaled_dim (scale (ctx w)) (width (current_pm w)) in
  let IH := scaled_dim (scale (ctx w)) (height (current_pm w)) in
  fixed (ctx w) = true ->
  0 <= IW <= W -> 0 <= IH <= H ->
  W + IW <= SSIZE_MAX -> H + IH <= SSIZE_MAX ->
  axis_placed (horizontal_rule (position (ctx w))) W IW (img_x (ctx w)) ->
  axis_placed (vertical_rule (position (ctx w))) H IH (img_y (ctx w)) ->
  img_x (ctx (on_drag dx dy w)) = img_x (ctx w) /\
  img_y (ctx (on_drag dx dy w)) = img_y (ctx w).
Proof.
  intros W H IW IH Hf HIW HIH SW SH Px Py.
  unfold on_drag.
  set (w1 := set_ctx _ w).
  destruct (negb _ || negb _) eqn:Hm.
  - change (ctx (app_redraw (fixup_position false w1)))
      with (ctx (fixup_position false w1)).
    rewrite fixup_unforced_x, fixup_unforced_y.
    subst w1. cbn [ctx set_ctx fixed set_pos scale position img_x img_y ui_width ui_height].
    change (current_pm (set_ctx _ w)) with (current_pm w).
    rewrite Hf. fold IW IH.
    rewrite (ssize_wrap_id (ui_width w)), (ssize_wrap_id (ui_height w))
      by (unfold SSIZE_MIN, SSIZE_MAX in *; fold W H; lia).
    fold W H.
    pose proof (unforced_axis true (horizontal_rule (position (ctx w))) W IW
                  (ssize_wrap (img_x (ctx w) + dx))) as Ux.
    pose proof (unforced_axis true (vertical_rule (position (ctx w))) H IH
                  (ssize_wrap (img_y (ctx w) + dy))) as Uy.
    cbv zeta in Ux, Uy.
    destruct Ux as [_ Ux]; try lia. destruct Uy as [_ Uy]; try lia.
    specialize (Ux eq_refl ltac:(lia)). specialize (Uy eq_refl ltac:(lia)).
    unfold sadd.
    split.
    + destruct (horizontal_rule (position (ctx w))); cbn [axis_placed] in *; lia.
    + destruct (vertical_rule (position (ctx w))); cbn [axis_placed] in *; lia.
  - apply orb_false_elim in Hm. destruct Hm as [Hm1 Hm2].
    apply negb_false_iff, Z.eqb_eq in Hm1. apply negb_false_iff, Z.eqb_eq in Hm2.
    subst w1. cbn [ctx set_ctx set_pos img_x img_y]. split; assumption.
Qed.

Lemma on_drag_fixed_fitting_stays_witness :
  let w := world_of (viewer_at 270 0 true position_top d_1) 640 480
             (still_image 100 100) in
  img_x (ctx (on_drag 30 (- 40) w)) = 270 /\
  img_y (ctx (on_drag 30 (- 40) w)) = 0.
Proof.
  apply (on_drag_fixed_fitting_stays 30 (- 40)
           (world_of (viewer_at 270 0 true position_top d_1) 640 480
              (still_image 100 100)));
    first [ reflexivity | vm_compute; try split; first [discriminate | reflexivity] ].
Defined.

(** [move_image] after its parameter is read: the step is [move_step],
    and the diagnostic changes nothing in what the rest reads or writes. *)
Lemma move_image_unfold str_to_num horizontal positive params w :
  exists w0,
    (ctx w0 = ctx w /\ ui_width w0 = ui_width w /\ ui_height w0 = ui_height w /\
     current w0 = current w /\ redraws w0 = redraws w) /\
    move_image str_to_num horizontal positive params w =
    let step := if positive then move_step str_to_num params
                else sneg (move_step str_to_num params) in
    let c := ctx w0 in
    let c :=
      if horizontal
      then set_pos (sadd (img_x c) (smul (size_wrap (ui_width w0) / 100) step)) (img_y c) c
      else set_pos (img_x c) (sadd (img_y c) (smul (size_wrap (ui_height w0) / 100) step)) c in
    let w1 := fixup_position false (set_ctx c w0) in
    if negb (img_x (ctx w1) =? img_x (ctx w)) || negb (img_y (ctx w1) =? img_y (ctx w))
    then app_redraw w1
    else w1.
Proof.
  unfold move_image, move_step, valid_move_step.
  destruct params as [p|]; [destruct (str_to_num p) as [val|] |].
  - replace (1 <=? val) with (0 <? val)
      by (destruct (Z.ltb_spec 0 val), (Z.leb_spec 1 val); trivial; lia).
    destruct ((0 <? val) && (val <=? 1000)); eexists; (split; [|reflexivity]); repeat split.
  - eexists; (split; [|reflexivity]); repeat split.
  - eexists; (split; [|reflexivity]); repeat split.
Qed.

Lemma move_step_range str_to_num params :
  1 <= move_step str_to_num params <= 1000.
Proof.
  unfold move_step, valid_move_step.
  destruct params as [p|]; [destruct (str_to_num p) as [val|] |]; try lia.
  destruct (Z.leb_spec 1 val), (Z.leb_spec val 1000); cbn [andb]; lia.
Qed.

(** [move_image] touches nothing of what the position depends on. *)
Lemma move_image_frame str_to_num horizontal positive params w :
  ui_width (move_image str_to_num horizontal positive params w) = ui_width w /\
  ui_height (move_image str_to_num horizontal positive params w) = ui_height w /\
  current (move_image str_to_num horizontal positive params w) = current w /\
  scale (ctx (move_image str_to_num horizontal positive params w)) = scale (ctx w) /\
  fixed (ctx (move_image str_to_num horizontal positive params w)) = fixed (ctx w) /\
  frame (ctx (move_image str_to_num horizontal positive params w)) = frame (ctx w).
Proof.
  destruct (move_image_unfold str_to_num horizontal positive params w)
    as (w0 & (Ec & Ew & Eh & Ecur & _) & ->).
  cbv zeta. rewrite <- Ec, <- Ew, <- Eh, <- Ecur.
  destruct (negb _ || negb _); destruct horizontal; repeat split.
Qed.

(** Outside fixed mode, with the image within reach of the window before
    and after, [move_image] shifts the chosen coordinate by [move_shift]
    and leaves the other one alone. *)
Lemma move_image_free str_to_num (horizontal positive : bool) params w :
  let W := ui_width w in
  let H := ui_height w in
  let IW := scaled_dim (scale (ctx w)) (width (current_pm w)) in
  let IH := scaled_dim (scale (ctx w)) (height (current_pm w)) in
  let n := move_step str_to_num params in
  let x' := if horizontal then img_x (ctx w) + move_shift W n positive else img_x (ctx w) in
  let y' := if horizontal then img_y (ctx w) else img_y (ctx w) + move_shift H n positive in
  fixed (ctx w) = false ->
  0 <= W -> 0 <= H -> 0 <= IW -> 0 <= IH ->
  W + IW <= SSIZE_MAX -> H + IH <= SSIZE_MAX ->
  - IW <= img_x (ctx w) <= W -> - IH <= img_y (ctx w) <= H ->
  - IW <= x' <= W -> - IH <= y' <= H ->
  ctx (move_image str_to_num horizontal positive params w) = set_pos x' y' (ctx w).
Proof.
  intros W H IW IH n x' y' Hf HW HH HIW HIH SW SH Hx0 Hy0 Hx Hy.
  destruct (move_image_unfold str_to_num horizontal positive params w)
    as (w0 & (Ec & Ew & Eh & Ecur & _) & ->).
  cbv zeta. fold n.
  pose proof (move_step_range str_to_num params) as Rn. fold n in Rn.
  set (c1 := if horizontal then _ else _).
  assert (E1 : c1 = set_pos x' y' (ctx w)).
  { subst c1 x' y'. rewrite Ec, Ew, Eh. fold W H. unfold move_shift in *.
    unfold size_wrap, SIZE_MOD.
    rewrite (Z.mod_small W), (Z.mod_small H) by (unfold SSIZE_MAX in *; lia).
    unfold smul, sadd, sneg.
    rewrite (ssize_wrap_id (- n)) by (unfold SSIZE_MIN, SSIZE_MAX; lia).
    destruct horizontal, positive; cbv beta iota in Hx, Hy |- *;
      rewrite (ssize_wrap_id (_ / 100 * _)) by (unfold SSIZE_MIN, SSIZE_MAX in *; lia);
      rewrite ssize_wrap_id by (unfold SSIZE_MIN, SSIZE_MAX in *; lia);
      destruct (ctx w); reflexivity. }
  clearbody c1. subst c1.
  set (w1 := fixup_position false _).
  assert (F : ctx w1 = set_pos x' y' (ctx w)).
  { subst w1. rewrite fixup_position_eq.
    rewrite fixup_unforced_x, fixup_unforced_y.
    cbn [ctx set_ctx fixed set_pos scale position img_x img_y ui_width ui_height].
    unfold current_pm.
    cbn [ctx set_ctx fixed set_pos scale position img_x img_y ui_width ui_height
         current frame].
    rewrite Ecur, Ew, Eh, Hf. cbn [andb].
    change (pm (frame_at (current w) (frame (ctx w)))) with (current_pm w).
    fold IW IH W H.
    rewrite (ssize_wrap_id W), (ssize_wrap_id H)
      by (unfold SSIZE_MIN, SSIZE_MAX in *; lia).
    rewrite !bind_and_clamp_free by lia.
    reflexivity. }
  destruct (negb _ || negb _); exact F.
Qed.

(** X6: [move_image], opposite steps cancel: outside fixed mode, a step in
    one direction followed by the same step in the opposite direction
    restores the viewer context, whatever the parameter text (a valid
    percentage, an invalid one or none), as long as the image stays
    within reach of the window. *)
Theorem move_image_opposite_steps_cancel (str_to_num : string -> option Z)
    (horizontal positive : bool) (params : option string) (w : world) :
  let W := ui_width w in
  let H := ui_height w in
  let IW := scaled_dim (scale (ctx w)) (width (current_pm w)) in
  let IH := scaled_dim (scale (ctx w)) (height (current_pm w)) in
  let n := move_step str_to_num params in
  let x' := if horizontal then img_x (ctx w) + move_shift W n positive else img_x (ctx w) in
  let y' := if horizontal then img_y (ctx w) else img_y (ctx w) + move_shift H n positive in
  fixed (ctx w) = false ->
  0 <= W -> 0 <= H -> 0 <= IW -> 0 <= IH ->
  W + IW <= SSIZE_MAX -> H + IH <= SSIZE_MAX ->
  - IW <= img_x (ctx w) <= W -> - IH <= img_y (ctx w) <= H ->
  - IW <= x' <= W -> - IH <= y' <= H ->
  ctx (move_image str_to_num horizontal (negb positive) params
         (move_image str_to_num horizontal positive params w)) = ctx w.
Proof.
  intros W H IW IH n x' y' Hf HW HH HIW HIH SW SH Hx0 Hy0 Hx Hy.
  pose proof (move_image_frame str_to_num horizontal positive params w)
    as (Fw & Fh & Fc & Fs & Ff & Fr).
  pose proof (move_image_free str_to_num horizontal positive params w
                Hf HW HH HIW HIH SW SH Hx0 Hy0 Hx Hy) as D1.
  assert (Epm : current_pm (move_image str_to_num horizontal positive params w)
                = current_pm w)
    by (unfold current_pm; rewrite Fc, Fr; reflexivity).
  assert (Back : move_shift W n positive + move_shift W n (negb positive) = 0 /\
                 move_shift H n positive + move_shift H n (negb positive) = 0)
    by (unfold move_shift; destruct positive; cbn [negb]; lia).
  rewrite move_image_free; rewrite ?Fw, ?Fh, ?Fs, ?Ff, ?Epm, ?D1;
    cbn [img_x img_y set_pos]; fold W H IW IH n; try assumption;
    try (subst x' y'; destruct horizontal; lia).
  subst x' y'. destruct horizontal.
  - replace (img_x (ctx w) + move_shift W n positive + move_shift W n (negb positive))
      with (img_x (ctx w)) by lia.
    destruct (ctx w); reflexivity.
  - replace (img_y (ctx w) + move_shift H n positive + move_shift H n (negb positive))
      with (img_y (ctx w)) by lia.
    destruct (ctx w); reflexivity.
Qed.

Lemma move_image_opposite_steps_cancel_witness :
  let w := world_of (viewer_at 10 20 false position_center d_1) 640 480
             (still_image 800 100) in
  ctx (move_image decimal_str_to_num true false (Some "25"%string)
         (move_image decimal_str_to_num true true (Some "25"%string) w)) = ctx w.
Proof.
  apply (move_image_opposite_steps_cancel decimal_str_to_num true true
           (Some "25"%string)
           (world_of (viewer_at 10 20 false position_center d_1) 640 480
              (still_image 800 100)));
    first [ reflexivity | vm_compute; try split; discriminate ].
Defined.

(** What [fixup_position] computes depends on the context, the window
    size and the current image only. *)
Lemma fixup_position_ext force w0 w :
  ctx w0 = ctx w -> ui_width w0 = ui_width w -> ui_height w0 = ui_height w ->
  current w0 = current w ->
  ctx (fixup_position force w0) = ctx (fixup_position force w).
Proof.
  intros Ec Ew Eh Ecur. unfold fixup_position, current_pm.
  cbn [ctx set_ctx]. rewrite Ec, Ew, Eh, Ecur. reflexivity.
Qed.

(** X7: [move_image], narrow window: the step is a number of whole
    hundredths of the window extent, so in a window less than 100 pixels
    wide a horizontal step moves nothing and requests no redraw,
    whatever the parameter (likewise vertically, by height).  The
    position is taken as settled: [fixup_position] keeps it. *)
Theorem move_image_narrow_window (str_to_num : string -> option Z)
    (horizontal positive : bool) (params : option string) (w : world) :
  0 <= (if horizontal then ui_width w else ui_height w) < 100 ->
  SSIZE_MIN <= img_x (ctx w) <= SSIZE_MAX ->
  SSIZE_MIN <= img_y (ctx w) <= SSIZE_MAX ->
  ctx (fixup_position false w) = ctx w ->
  ctx (move_image str_to_num horizontal positive params w) = ctx w /\
  redraws (move_image str_to_num horizontal positive params w) = redraws w.
Proof.
  intros HE Hx Hy Hs.
  destruct (move_image_unfold str_to_num horizontal positive params w)
    as (w0 & (Ec & Ew & Eh & Ecur & Er) & ->).
  cbv zeta.
  set (c1 := if horizontal then _ else _).
  assert (E1 : c1 = ctx w0).
  { subst c1. rewrite Ew, Eh. unfold size_wrap, SIZE_MOD.
    destruct horizontal;
      rewrite Z.mod_small by lia; rewrite (Z.div_small _ 100) by lia;
      unfold smul, sadd; rewrite Z.mul_0_l; rewrite (ssize_wrap_id 0) by (vm_compute; split; discriminate); rewrite Z.add_0_r, ssize_wrap_id by (rewrite Ec; assumption);
      destruct (ctx w0); reflexivity. }
  clearbody c1. subst c1. rewrite world_eta.
  pose proof (fixup_position_ext false w0 w Ec Ew Eh Ecur) as F.
  rewrite Hs in F. rewrite F, !Z.eqb_refl. cbn [negb orb].
  split; [exact F | exact Er].
Qed.

Lemma move_image_narrow_window_witness :
  let w := world_of (viewer_at 10 20 false position_center d_1) 99 480
             (still_image 80 100) in
  ctx (move_image decimal_str_to_num true true (Some "1000"%string) w) = ctx w /\
  redraws (move_image decimal_str_to_num true true (Some "1000"%string) w) = redraws w.
Proof.
  apply (move_image_narrow_window decimal_str_to_num true true (Some "1000"%string)
           (world_of (viewer_at 10 20 false position_center d_1) 99 480
              (still_image 80 100)));
    first [ reflexivity | vm_compute; try split; first [discriminate | reflexivity] ].
Defined.

(* ================================================================== *)
(** * Frames and the animation timer *)

(** The index [next_frame] computes. *)
Lemma next_frame_index forward w :
  0 <= frame (ctx w) < num_frames (current w) ->
  num_frames (current w) < SIZE_MOD ->
  frame (ctx (next_frame forward w))
  = frame_step forward (num_frames (current w)) (frame (ctx w)).
Proof.
  intros Hf Hn. unfold next_frame, frame_step.
  set (n := num_frames (current w)) in *. set (f := frame (ctx w)) in *.
  unfold size_wrap.
  assert (Ei : (if forward
                then if n <=? (f + 1) mod SIZE_MOD then 0 else (f + 1) mod SIZE_MOD
                else if f =? 0 then (n - 1) mod SIZE_MOD else (f - 1) mod SIZE_MOD)
               = (if forward then f + 1 else f - 1) mod n).
  { destruct forward.
    - rewrite (Z.mod_small (f + 1)) by lia.
      destruct (Z.leb_spec n (f + 1)).
      + replace (f + 1) with n by lia. now rewrite Z.mod_same by lia.
      + now rewrite Z.mod_small by lia.
    - destruct (Z.eqb_spec f 0) as [->|].
      + rewrite Z.mod_small by lia.
        apply Z.mod_unique with (q := -1); lia.
      + rewrite !Z.mod_small by lia. reflexivity. }
  rewrite Ei.
  destruct (negb _) eqn:Hm; [reflexivity|].
  apply negb_false_iff, Z.eqb_eq in Hm. subst f. now rewrite Hm.
Qed.

(** [next_frame] leaves the image and everything of the context but the
    frame index alone. *)
Lemma next_frame_frame forward w :
  current (next_frame forward w) = current w /\
  animation_timer (next_frame forward w) = animation_timer w /\
  set_frame (frame (ctx w)) (ctx (next_frame forward w)) = ctx w.
Proof.
  unfold next_frame. destruct (negb _); repeat split; destruct (ctx w); reflexivity.
Qed.

(** X8: [next_frame] steps modulo the number of frames: the index moves
    to [(frame + 1) mod n] forward and [(frame - 1) mod n] backward, so
    it stays a valid index into the frame array. *)
Theorem next_frame_steps_modulo (forward : bool) (w : world) :
  let n := num_frames (current w) in
  0 <= frame (ctx w) < n -> n < SIZE_MOD ->
  frame (ctx (next_frame forward w)) = frame_step forward n (frame (ctx w)) /\
  0 <= frame (ctx (next_frame forward w)) < num_frames (current (next_frame forward w)).
Proof.
  intros n Hf Hn. rewrite next_frame_index by assumption. split; [reflexivity|].
  destruct (next_frame_frame forward w) as (-> & _).
  apply Z.mod_pos_bound. fold n. lia.
Qed.

Lemma next_frame_steps_modulo_witness :
  let w := world_of (viewer_at 0 0 false position_center d_1) 640 480
             (animation_of [40; 1500; 0]) in
  frame (ctx (next_frame false w)) = frame_step false 3 0 /\
  0 <= frame (ctx (next_frame false w)) < num_frames (current (next_frame false w)).
Proof.
  apply (next_frame_steps_modulo false
           (world_of (viewer_at 0 0 false position_center d_1) 640 480
              (animation_of [40; 1500; 0])));
    vm_compute; try split; first [discriminate | reflexivity].
Defined.

Lemma frame_step_inverse forward n f :
  0 <= f < n ->
  frame_step (negb forward) n (frame_step forward n f) = f.
Proof.
  intros Hf. unfold frame_step.
  destruct forward; cbn [negb].
  - rewrite Zminus_mod_idemp_l.
    replace (f + 1 - 1) with f by lia. apply Z.mod_small; lia.
  - rewrite Zplus_mod_idemp_l.
    replace (f - 1 + 1) with f by lia. apply Z.mod_small; lia.
Qed.

(** X9: [next_frame], round trip: a step in one direction followed by a
    step in the other returns to the frame it started from and leaves
    the viewer context as it was. *)
Theorem next_frame_round_trip (forward : bool) (w : world) :
  let n := num_frames (current w) in
  0 <= frame (ctx w) < n -> n < SIZE_MOD ->
  ctx (next_frame (negb forward) (next_frame forward w)) = ctx w.
Proof.
  intros n Hf Hn.
  destruct (next_frame_frame forward w) as (Ec & _ & E1).
  destruct (next_frame_frame (negb forward) (next_frame forward w)) as (_ & _ & E2).
  assert (F : frame (ctx (next_frame (negb forward) (next_frame forward w)))
              = frame (ctx w)).
  { rewrite next_frame_index; rewrite ?Ec, ?next_frame_index; fold n; try assumption.
    - apply frame_step_inverse; assumption.
    - apply Z.mod_pos_bound; lia. }
  revert E1 E2 F.
  generalize (ctx (next_frame (negb forward) (next_frame forward w))) as a.
  generalize (ctx (next_frame forward w)) as b. generalize (ctx w) as c.
  intros [] [] []; unfold set_frame; cbn; intros E1 E2 F.
  inversion E1; inversion E2; subst; reflexivity.
Qed.

Lemma next_frame_round_trip_witness :
  let w := world_of (viewer_at 0 0 false position_center d_1) 640 480
             (animation_of [40; 1500; 0]) in
  ctx (next_frame true (next_frame false w)) = ctx w.
Proof.
  apply (next_frame_round_trip false
           (world_of (viewer_at 0 0 false position_center d_1) 640 480
              (animation_of [40; 1500; 0])));
    vm_compute; try split; first [discriminate | reflexivity].
Defined.

(** X10: [next_frame] with at least two frames always moves: it requests
    exactly one redraw and writes exactly two overlay lines, the new
    frame as "k of n" (counted from 1) and the size of the new frame's
    pixmap. *)
Theorem next_frame_multi_frame_redraws (forward : bool) (w : world) :
  let n := num_frames (current w) in
  let f' := frame_step forward n (frame (ctx w)) in
  2 <= n -> n < SIZE_MOD -> 0 <= frame (ctx w) < n ->
  redraws (next_frame forward w) = S (redraws w) /\
  info (next_frame forward w) =
    (info_image_size, fmt_size (width (pm (frame_at (current w) f')))
                               (height (pm (frame_at (current w) f'))))
    :: (info_frame, fmt_of (f' + 1) n) :: info w.
Proof.
  intros n f' H2 Hn Hf.
  pose proof (next_frame_index forward w Hf Hn) as Ei. fold n f' in Ei.
  assert (Hne : f' <> frame (ctx w)).
  { subst f'. unfold frame_step. intros E.
    destruct forward.
    - destruct (Z.eq_dec (frame (ctx w) + 1) n) as [En|En].
      + rewrite En, Z.mod_same in E by lia. lia.
      + rewrite Z.mod_small in E by lia. lia.
    - destruct (Z.eq_dec (frame (ctx w)) 0) as [E0|E0].
      + rewrite E0 in E. cbn [Z.sub Z.add Z.opp Z.pos_sub] in E.
        assert (n - 1 = (-1) mod n) by (apply Z.mod_unique with (q := -1); lia).
        change (0 - 1) with (-1) in E. lia.
      + rewrite Z.mod_small in E by lia. lia. }
  revert Ei. unfold next_frame. fold n.
  destruct (negb _) eqn:Hm.
  - cbn [ctx set_ctx info_update app_redraw frame set_frame redraws info current].
    intros Ei. unfold current_pm.
    cbn [ctx set_ctx info_update app_redraw frame set_frame redraws info current].
    rewrite Ei. unfold size_wrap.
    assert (Rf : 0 <= f' < n) by (apply Z.mod_pos_bound; lia).
    rewrite (Z.mod_small (f' + 1)) by lia.
    split; reflexivity.
  - intros Ei. congruence.
Qed.

Lemma next_frame_multi_frame_redraws_witness :
  let w := world_of (viewer_at 0 0 false position_center d_1) 640 480
             (animation_of [40; 1500; 0]) in
  redraws (next_frame false w) = 1%nat /\
  info (next_frame false w) = [(info_image_size, fmt_size 8 8); (info_frame, fmt_of 3 3)].
Proof.
  apply (next_frame_multi_frame_redraws false
           (world_of (viewer_at 0 0 false position_center d_1) 640 480
              (animation_of [40; 1500; 0])));
    vm_compute; try split; first [discriminate | reflexivity].
Defined.

(** X11: [animation_ctl]: the animation flag is set exactly when the timer
    is armed, whatever the request and the state. *)
Theorem animation_flag_iff_armed (enable : bool) (w : world) :
  animation_enable (ctx (animation_ctl enable w)) = true <->
  animation_timer (animation_ctl enable w) <> timer_disarmed.
Proof.
  unfold animation_ctl.
  set (d := duration (frame_at (current w) (frame (ctx w)))).
  cbn [ctx set_ctx set_animation_timer animation_timer animation_enable
       set_animation_enable].
  destruct (if enable then _ else false) eqn:E.
  - split; [intros _ | reflexivity].
    destruct enable; [|discriminate].
    apply andb_prop in E. destruct E as [_ E].
    apply negb_true_iff, Z.eqb_neq in E.
    unfold timer_disarmed. intros T. inversion T as [[T1 T2]].
    pose proof (Z.div_mod d 1000 ltac:(lia)). lia.
  - split; [discriminate | intros T; now elim T].
Qed.

(** X12: [animation_ctl(true)] arms the timer for exactly the duration of
    the current frame: the milliseconds are split into whole seconds and
    a nanosecond part below one second. *)
Theorem animation_timer_is_frame_duration (w : world) :
  let d := duration (frame_at (current w) (frame (ctx w))) in
  1 < num_frames (current w) -> 0 < d ->
  let ts := animation_timer (animation_ctl true w) in
  timer_ns ts = d * 1000000 /\ 0 <= tv_nsec ts < 1000000000 /\ 0 <= tv_sec ts /\
  animation_enable (ctx (animation_ctl true w)) = true.
Proof.
  intros d Hn Hd. unfold animation_ctl. fold d.
  destruct (Z.ltb_spec 1 (num_frames (current w))); [|lia].
  destruct (Z.eqb_spec d 0); [lia|].
  cbn [andb negb ctx set_ctx set_animation_timer animation_timer animation_enable
       set_animation_enable]. unfold timer_ns. cbn [tv_sec tv_nsec].
  pose proof (Z.div_mod d 1000 ltac:(lia)).
  pose proof (Z.mod_pos_bound d 1000 ltac:(lia)).
  assert (0 <= d / 1000) by (apply Z.div_pos; lia).
  repeat split; lia.
Qed.

Lemma animation_timer_is_frame_duration_witness :
  let w := world_of (viewer_at 0 0 false position_center d_1) 640 480
             (animation_of [1500; 40; 0]) in
  timer_ns (animation_timer (animation_ctl true w)) = 1500 * 1000000 /\
  0 <= tv_nsec (animation_timer (animation_ctl true w)) < 1000000000 /\
  0 <= tv_sec (animation_timer (animation_ctl true w)) /\
  animation_enable (ctx (animation_ctl true w)) = true.
Proof.
  apply (animation_timer_is_frame_duration
           (world_of (viewer_at 0 0 false position_center d_1) 640 480
              (animation_of [1500; 40; 0])));
    vm_compute; reflexivity.
Defined.

(** X13: [on_animation_timer]: with at least two frames the handler shows
    the next frame, around the end of the array, and re-arms the timer
    for that frame's duration; a frame of duration 0 stops the
    animation. *)
Theorem on_animation_timer_advances (w : world) :
  let n := num_frames (current w) in
  let f' := frame_step true n (frame (ctx w)) in
  let d' := duration (frame_at (current w) f') in
  2 <= n -> n < SIZE_MOD -> 0 <= frame (ctx w) < n ->
  frame (ctx (on_animation_timer w)) = f' /\
  animation_timer (on_animation_timer w) =
    (if d' =? 0 then timer_disarmed
     else {| tv_sec := d' / 1000; tv_nsec := (d' mod 1000) * 1000000 |}) /\
  animation_enable (ctx (on_animation_timer w)) = negb (d' =? 0).
Proof.
  intros n f' d' H2 Hn Hf. unfold on_animation_timer.
  pose proof (next_frame_index true w Hf Hn) as Ei. fold n f' in Ei.
  destruct (next_frame_frame true w) as (Ec & _ & _).
  unfold animation_ctl. rewrite Ec, Ei. fold n d'.
  destruct (Z.ltb_spec 1 n); [|lia].
  cbn [andb ctx set_ctx set_animation_timer animation_timer animation_enable
       set_animation_enable frame].
  destruct (d' =? 0); cbn [negb]; repeat split; assumption.
Qed.

Lemma on_animation_timer_advances_witness :
  let w := world_of (viewer_at 0 0 false position_center d_1) 640 480
             (animation_of [40; 1500; 0]) in
  frame (ctx (on_animation_timer w)) = 1 /\
  animation_timer (on_animation_timer w) = {| tv_sec := 1; tv_nsec := 500000000 |} /\
  animation_enable (ctx (on_animation_timer w)) = true.
Proof.
  apply (on_animation_timer_advances
           (world_of (viewer_at 0 0 false position_center d_1) 640 480
              (animation_of [40; 1500; 0])));
    vm_compute; try split; first [discriminate | reflexivity].
Defined.

(** X14: [apply_action], frame stepping: stepping through the frames by
    hand stops the animation first (flag off, timer disarmed) and then
    moves to the neighbouring frame, around the end of the array. *)
Theorem frame_action_stops_animation (forward : bool) (w : world) :
  let n := num_frames (current w) in
  let w' := apply_frame_action forward w in
  0 <= frame (ctx w) < n -> n < SIZE_MOD ->
  animation_enable (ctx w') = false /\
  animation_timer w' = timer_disarmed /\
  frame (ctx w') = frame_step forward n (frame (ctx w)).
Proof.
  intros n w' Hf Hn. subst w'. unfold apply_frame_action.
  destruct (next_frame_frame forward (animation_ctl false w)) as (_ & Et & Ec).
  split; [|split].
  - apply (f_equal animation_enable) in Ec.
    destruct (ctx (next_frame forward (animation_ctl false w))). exact Ec.
  - rewrite Et. reflexivity.
  - rewrite next_frame_index by assumption. reflexivity.
Qed.

Lemma frame_action_stops_animation_witness :
  let w := animation_ctl true
             (world_of (viewer_at 0 0 false position_center d_1) 640 480
                (animation_of [40; 1500; 0])) in
  animation_enable (ctx (apply_frame_action true w)) = false /\
  animation_timer (apply_frame_action true w) = timer_disarmed /\
  frame (ctx (apply_frame_action true w)) = frame_step true 3 0.
Proof.
  apply (frame_action_stops_animation true
           (animation_ctl true
              (world_of (viewer_at 0 0 false position_center d_1) 640 480
                 (animation_of [40; 1500; 0]))));
    vm_compute; try split; first [discriminate | reflexivity].
Defined.

(* ================================================================== *)
(** * Scale policies by name *)

Lemma scale_name_index sc :
  str_index scale_names (scale_name sc) = fixed_scale_index sc /\
  fixed_scale_of_index (fixed_scale_index sc) = sc /\
  has_text (Some (scale_name sc)) = Some (scale_name sc).
Proof. destruct sc; repeat split. Qed.

(** X15: [scale_image] by name: the name of a policy, as the table
    [scale_names] has it, selects that policy: it becomes the initial
    scale, its name goes to the status line, the scale is set by it and
    one redraw is requested.  No diagnostic is printed. *)
Theorem scale_image_by_name (sc : fixed_scale) (w : world) :
  scale_image (Some (scale_name sc)) w =
  app_redraw
    (set_scale sc
       (info_update info_status (fmt_scale_name sc)
          (set_ctx (set_scale_init sc (ctx w)) w))).
Proof.
  unfold scale_image.
  destruct (scale_name_index sc) as (Ei & Eo & Et).
  rewrite Et, Ei.
  assert (0 <= fixed_scale_index sc) by (destruct sc; cbn; lia).
  destruct (Z.leb_spec 0 (fixed_scale_index sc)); [|lia].
  rewrite Eo. reflexivity.
Qed.

(** X16: [zoom_image] by name: given the name of a policy, [zoom_image]
    sets the scale by that policy without reading the number parser and
    without touching the initial scale; it writes the scale line and
    requests one redraw. *)
Theorem zoom_image_by_name (str_to_num : string -> option Z) (sc : fixed_scale)
    (w : world) :
  let w' := zoom_image str_to_num (Some (scale_name sc)) w in
  w' = app_redraw
         (info_update info_scale
            (fmt_percent (dmul (scale (ctx (set_scale sc w))) (Z_to_double 100)))
            (set_scale sc w)) /\
  scale_init (ctx w') = scale_init (ctx w).
Proof.
  unfold zoom_image.
  destruct (scale_name_index sc) as (Ei & Eo & Et).
  rewrite Et, Ei.
  assert (0 <= fixed_scale_index sc) by (destruct sc; cbn; lia).
  destruct (Z.leb_spec 0 (fixed_scale_index sc)); [|lia].
  rewrite Eo. split; reflexivity.
Qed.

(** X17: [set_scale] forgets the previous scale and coordinates, so of two
    calls in a row the last one decides the context. *)
Theorem set_scale_last_wins (sc sc' : fixed_scale) (w : world) :
  ctx (set_scale sc (set_scale sc' w)) = ctx (set_scale sc w).
Proof. reflexivity. Qed.

(* ================================================================== *)
(** * Resetting the state for a new image *)

(** X18: [reset_state] forgets where the previous image was and how large
    it was: in both branches the position comes from a forced
    [fixup_position], so the shift by half the size difference that the
    keep-zoom branch adds to the coordinates never reaches the result. *)
Theorem reset_state_forgets_position (total_img x y iw ih : Z) (w : world) :
  reset_state total_img (set_ctx (set_pos x y (set_size iw ih (ctx w))) w)
  = reset_state total_img w.
Proof.
  unfold reset_state.
  cbn [ctx set_ctx set_pos set_size set_frame keep_zoom scale scale_init current].
  destruct (negb (keep_zoom (ctx w)) || feq (scale (ctx w)) d_0);
    destruct (negb (total_img =? 0)); reflexivity.
Qed.

(** X19: [reset_state] with zoom keeping on and a scale other than zero
    leaves the scale as it is; the new image is shown from frame 0 and
    its first frame's size is recorded. *)
Theorem reset_state_keeps_zoom (total_img : Z) (w : world) :
  keep_zoom (ctx w) = true -> feq (scale (ctx w)) d_0 = false ->
  scale (ctx (reset_state total_img w)) = scale (ctx w) /\
  frame (ctx (reset_state total_img w)) = 0 /\
  img_w (ctx (reset_state total_img w)) = width (pm (frame_at (current w) 0)) /\
  img_h (ctx (reset_state total_img w)) = height (pm (frame_at (current w) 0)).
Proof.
  intros Hk Hs. unfold reset_state.
  cbn [ctx set_ctx set_frame keep_zoom scale]. rewrite Hk, Hs. cbn [negb orb].
  destruct (negb (total_img =? 0)); repeat split.
Qed.

Lemma reset_state_keeps_zoom_witness :
  let w := world_of (set_keep_zoom true (viewer_at 3 4 false position_center d_2))
             640 480 (still_image 100 50) in
  scale (ctx (reset_state 7 w)) = d_2 /\
  frame (ctx (reset_state 7 w)) = 0 /\
  img_w (ctx (reset_state 7 w)) = 100 /\
  img_h (ctx (reset_state 7 w)) = 50.
Proof.
  apply (reset_state_keeps_zoom 7
           (world_of (set_keep_zoom true (viewer_at 3 4 false position_center d_2))
              640 480 (still_image 100 50)));
    reflexivity.
Defined.

(** X20: [reset_state] restarts both timers from the new image: the
    animation runs exactly when the image has more than one frame and
    its first frame has a duration, the timer is armed for that duration
    and the content type reported to the window follows; the slide-show
    timer is re-armed for the configured time when the slide show is on. *)
Theorem reset_state_timers (total_img : Z) (w : world) :
  let w' := reset_state total_img w in
  let d := duration (frame_at (current w) 0) in
  let animated := (1 <? num_frames (current w)) && negb (d =? 0) in
  animation_enable (ctx w') = animated /\
  content_animated w' = animated /\
  animation_timer w' =
    (if animated then {| tv_sec := d / 1000; tv_nsec := (d mod 1000) * 1000000 |}
     else timer_disarmed) /\
  slideshow_enable (ctx w') = slideshow_enable (ctx w) /\
  slideshow_timer w' =
    (if slideshow_enable (ctx w)
     then {| tv_sec := slideshow_time (ctx w); tv_nsec := 0 |}
     else timer_disarmed).
Proof.
  unfold reset_state.
  cbn [ctx set_ctx set_frame keep_zoom scale scale_init].
  destruct (negb (keep_zoom (ctx w)) || feq (scale (ctx w)) d_0);
    destruct (negb (total_img =? 0)); repeat split.
Qed.

(** X21: [on_resize]: the [fixup_position(false)] before [reset_state]
    has no effect, the handler does what [reset_state] alone does. *)
Theorem on_resize_is_reset_state (total_img : Z) (w : world) :
  on_resize total_img w = reset_state total_img w.
Proof.
  unfold on_resize. rewrite (fixup_position_eq false w).
  generalize (img_x (ctx (fixup_position false w))) as x.
  generalize (img_y (ctx (fixup_position false w))) as y. intros y x.
  replace (set_pos x y (ctx w))
    with (set_pos x y (set_size (img_w (ctx w)) (img_h (ctx w)) (ctx w)))
    by (destruct (ctx w); reflexivity).
  generalize (img_w (ctx w)) as iw. generalize (img_h (ctx w)) as ih. intros ih iw.
  unfold reset_state.
  cbn [ctx set_ctx set_pos set_size set_frame keep_zoom scale scale_init current].
  destruct (negb (keep_zoom (ctx w)) || feq (scale (ctx w)) d_0);
    destruct (negb (total_img =? 0)); reflexivity.
Qed.

(* ================================================================== *)
(** * Outcomes of navigation *)

Lemma set_current_eta w : set_current (current w) w = w.
Proof. destruct w; reflexivity. Qed.

Section NavigationOutcomes.

Variable E : Type.
Variable image_list_size : E -> Z.
Variable image_list_first : E -> Z.
Variable image_list_last : E -> Z.
Variable image_list_prev_dir : Z -> E -> Z.
Variable image_list_next_dir : Z -> E -> Z.
Variable image_list_prev_file : Z -> E -> Z.
Variable image_list_next_file : Z -> E -> Z.
Variable image_list_rand_file : Z -> E -> Z.
Variable image_list_skip : Z -> E -> Z * E.
Variable fetcher_open : Z -> E -> option image * E.

Local Abbreviation nloop :=
  (next_image_loop E image_list_first image_list_last
     image_list_prev_dir image_list_next_dir image_list_prev_file
     image_list_next_file image_list_rand_file fetcher_open).
Local Abbreviation nimage :=
  (next_image E image_list_size image_list_first image_list_last
     image_list_prev_dir image_list_next_dir image_list_prev_file
     image_list_next_file image_list_rand_file fetcher_open).
Local Abbreviation sloop := (skip_image_loop E image_list_skip fetcher_open).
Local Abbreviation simage := (skip_image E image_list_skip fetcher_open).
Local Abbreviation stimer :=
  (on_slideshow_timer E image_list_size image_list_first image_list_last
     image_list_prev_dir image_list_next_dir image_list_prev_file
     image_list_next_file image_list_rand_file fetcher_open).
Local Abbreviation saction :=
  (apply_slideshow_action E image_list_size image_list_first image_list_last
     image_list_prev_dir image_list_next_dir image_list_prev_file
     image_list_next_file image_list_rand_file fetcher_open).

(** Where the loop of [next_image] stops: on the sentinel with the
    current image untouched, or on an entry that [fetcher_open] opened. *)
Lemma next_image_loop_stops fuel direction index cur e i img e' :
  nloop fuel direction index cur e = Some (i, img, e') ->
  (i = IMGLIST_INVALID /\ img = cur) \/
  (i <> IMGLIST_INVALID /\ exists e0, fetcher_open i e0 = (Some img, e')).
Proof.
  revert direction index e.
  induction fuel as [|fuel IH]; intros direction index e; [discriminate|].
  cbn [next_image_loop].
  destruct (next_candidate _ _ _ _ _ _ _ _ direction index e) as [j d].
  destruct (Z.eqb_spec j IMGLIST_INVALID) as [Ej|Ej].
  - intros [= <- <- <-]. left. auto.
  - destruct (fetcher_open j e) as [[im|] e1] eqn:Eo.
    + intros [= <- <- <-]. right. split; [assumption|]. now exists e.
    + apply IH.
Qed.

Lemma skip_image_loop_stops fuel index cur e i img e' :
  sloop fuel index cur e = Some (i, img, e') ->
  (i = IMGLIST_INVALID /\ img = cur) \/
  (i <> IMGLIST_INVALID /\ exists e0, fetcher_open i e0 = (Some img, e')).
Proof.
  revert index e.
  induction fuel as [|fuel IH]; intros index e; [discriminate|].
  cbn [skip_image_loop].
  destruct (Z.eqb_spec index IMGLIST_INVALID) as [Ej|Ej].
  - intros [= <- <- <-]. left. auto.
  - destruct (fetcher_open index e) as [[im|] e1] eqn:Eo.
    + intros [= <- <- <-]. right. split; [assumption|]. now exists e.
    + destruct (image_list_skip index e1) as [j e2]. apply IH.
Qed.

(** [next_image] is its loop followed by [reset_state] on success. *)
Lemma next_image_unfold fuel direction w e ok w' e' :
  nimage fuel direction w e = Some (ok, w', e') ->
  exists i img,
    nloop fuel direction (index (current w)) (current w) e = Some (i, img, e') /\
    ok = negb (i =? IMGLIST_INVALID) /\
    w' = (if i =? IMGLIST_INVALID then set_current img w
          else reset_state (image_list_size e') (set_current img w)).
Proof.
  unfold next_image.
  destruct (nloop fuel direction (index (current w)) (current w) e)
    as [[[i img] e1]|]; [|discriminate].
  destruct (i =? IMGLIST_INVALID) eqn:Ei; intros [= <- <- <-];
    exists i, img; rewrite Ei; repeat split.
Qed.

Lemma reset_state_current total_img w :
  current (reset_state total_img w) = current w /\
  frame (ctx (reset_state total_img w)) = 0 /\
  slideshow_time (ctx (reset_state total_img w)) = slideshow_time (ctx w).
Proof.
  unfold reset_state.
  cbn [ctx set_ctx set_frame keep_zoom scale scale_init].
  destruct (negb _ || feq _ _); destruct (negb (_ =? 0)); repeat split.
Qed.

(** X22: [next_image], outcome: when it reports failure the viewer state
    is exactly what it was (no reset, no redraw, same current image);
    when it reports success the current image is one that
    [fetcher_open] opened at a list entry, and the state is
    [reset_state] for that image. *)
Theorem next_image_outcome (fuel : nat) (direction : action_type) (w w' : world)
    (e e' : E) (ok : bool) :
  nimage fuel direction w e = Some (ok, w', e') ->
  (ok = false /\ w' = w) \/
  (ok = true /\
   (exists i e0, i <> IMGLIST_INVALID /\ fetcher_open i e0 = (Some (current w'), e')) /\
   w' = reset_state (image_list_size e') (set_current (current w') w)).
Proof.
  intros N. apply next_image_unfold in N. destruct N as (i & img & L & -> & ->).
  apply next_image_loop_stops in L.
  destruct L as [[-> ->]|[Ei [e0 Ho]]].
  - left. rewrite Z.eqb_refl. split; [reflexivity | apply set_current_eta].
  - right. destruct (Z.eqb_spec i IMGLIST_INVALID); [contradiction|].
    destruct (reset_state_current (image_list_size e') (set_current img w)) as (Ec & _).
    rewrite Ec. split; [reflexivity|]. split; [|reflexivity].
    exists i, e0. auto.
Qed.

(** X23: [skip_image], outcome: it never touches the viewer context; on
    failure the whole state is what it was, on success the current
    image is one that [fetcher_open] opened at a list entry. *)
Theorem skip_image_outcome (fuel : nat) (w w' : world) (e e' : E) (ok : bool) :
  simage fuel w e = Some (ok, w', e') ->
  ctx w' = ctx w /\
  ((ok = false /\ w' = w) \/
   (ok = true /\ w' = set_current (current w') w /\
    exists i e0, i <> IMGLIST_INVALID /\ fetcher_open i e0 = (Some (current w'), e'))).
Proof.
  unfold skip_image.
  destruct (image_list_skip (index (current w)) e) as [j e1].
  destruct (sloop fuel j (current w) e1) as [[[i img] e2]|] eqn:L; [|discriminate].
  apply skip_image_loop_stops in L.
  intros [= <- <- <-]. split; [reflexivity|].
  destruct L as [[-> ->]|[Ei [e0 Ho]]].
  - left. rewrite Z.eqb_refl. split; [reflexivity | apply set_current_eta].
  - right. destruct (Z.eqb_spec i IMGLIST_INVALID); [contradiction|].
    split; [reflexivity|]. split; [reflexivity|]. exists i, e0. auto.
Qed.

(** X24: [on_slideshow_timer], outcome, by what the forward retry from
    the next file finds.  When it runs into the end of the list the
    slide show stops (flag off, timer disarmed) and nothing else
    changes; when it finds an entry that opens, that image becomes the
    current one, shown from frame 0, the flag is on and the timer is
    armed again for the configured time. *)
Theorem on_slideshow_timer_outcome (fuel : nat) (w : world) (e e' : E) (i : Z)
    (img : image) :
  retry_loop E fetcher_open (forward E image_list_next_file) (S fuel)
    (image_list_next_file (index (current w)) e) (current w) e = Some (i, img, e') ->
  exists w',
    stimer (S fuel) w e = Some (w', e') /\
    (i = IMGLIST_INVALID -> w' = slideshow_ctl false w) /\
    (i <> IMGLIST_INVALID ->
     current w' = img /\
     slideshow_enable (ctx w') = true /\
     slideshow_timer w' = {| tv_sec := slideshow_time (ctx w); tv_nsec := 0 |} /\
     frame (ctx w') = 0 /\
     exists e0, fetcher_open i e0 = (Some img, e')).
Proof.
  intros R.
  rewrite <- (next_file_retries_forward E image_list_first image_list_last
                image_list_prev_dir image_list_next_dir image_list_prev_file
                image_list_next_file image_list_rand_file fetcher_open) in R.
  unfold on_slideshow_timer, next_image. rewrite R.
  pose proof (next_image_loop_stops _ _ _ _ _ _ _ _ R) as L.
  destruct (Z.eqb_spec i IMGLIST_INVALID) as [Ei|Ei].
  - exists (slideshow_ctl false (set_current img w)). split; [reflexivity|].
    split; [|contradiction]. intros _.
    destruct L as [[_ ->]|[C _]]; [|contradiction].
    now rewrite set_current_eta.
  - exists (slideshow_ctl true (reset_state (image_list_size e') (set_current img w))).
    split; [reflexivity|]. split; [contradiction|]. intros _.
    destruct L as [[C _]|[_ Ho]]; [contradiction|].
    destruct (reset_state_current (image_list_size e') (set_current img w))
      as (Ec & Ef & Et).
    cbn [negb slideshow_ctl ctx set_ctx set_slideshow_enable slideshow_enable
         set_slideshow_timer slideshow_timer slideshow_time frame current].
    rewrite Ec, Ef, Et. repeat split. exact Ho.
Qed.

(** X25: [apply_action], slide-show case: a running slide show is stopped
    without consulting the image list; a stopped one is started only if
    a next image opens, and is then armed for the configured time. *)
Theorem slideshow_action_outcome (fuel : nat) (w w' : world) (e e' : E) :
  saction fuel w e = Some (w', e') ->
  (slideshow_enable (ctx w) = true -> w' = slideshow_ctl false w /\ e' = e) /\
  (slideshow_enable (ctx w') = true ->
   slideshow_enable (ctx w) = false /\
   slideshow_timer w' = {| tv_sec := slideshow_time (ctx w); tv_nsec := 0 |} /\
   exists i e0, i <> IMGLIST_INVALID /\ fetcher_open i e0 = (Some (current w'), e')).
Proof.
  unfold apply_slideshow_action.
  destruct (slideshow_enable (ctx w)) eqn:Hs; cbn [negb].
  - intros [= <- <-]. split; [auto | discriminate].
  - destruct (nimage fuel action_next_file w e) as [[[ok w1] e1]|] eqn:N; [|discriminate].
    intros [= <- <-]. split; [discriminate|].
    apply next_image_unfold in N. destruct N as (i & img & L & -> & ->).
    apply next_image_loop_stops in L.
    destruct L as [[-> ->]|[Ei [e0 Ho]]].
    + rewrite Z.eqb_refl. discriminate.
    + destruct (Z.eqb_spec i IMGLIST_INVALID); [contradiction|]. intros _.
      destruct (reset_state_current (image_list_size e1) (set_current img w))
        as (Ec & Ef & Et).
      cbn [negb slideshow_ctl ctx set_ctx set_slideshow_enable slideshow_enable
           set_slideshow_timer slideshow_timer slideshow_time frame current].
      rewrite Ec, Et. repeat split. exists i, e0. auto.
Qed.

End NavigationOutcomes.

Lemma next_image_outcome_witness :
  let w := world_of (viewer_at 0 0 false position_center d_1) 640 480 (toy_entry 0) in
  let w' := reset_state 3 (set_current (toy_entry 2) w) in
  (true = false /\ w' = w) \/
  (true = true /\
   (exists i e0, i <> IMGLIST_INVALID /\ toy_open i e0 = (Some (current w'), tt)) /\
   w' = reset_state (toy_size tt) (set_current (current w') w)).
Proof.
  apply (next_image_outcome unit toy_size toy_first toy_last toy_prev toy_next
           toy_prev toy_next toy_next toy_open 2 action_next_file
           (world_of (viewer_at 0 0 false position_center d_1) 640 480 (toy_entry 0))
           (reset_state 3
              (set_current (toy_entry 2)
                 (world_of (viewer_at 0 0 false position_center d_1) 640 480
                    (toy_entry 0))))
           tt tt true).
  vm_compute. reflexivity.
Defined.

Lemma skip_image_outcome_witness :
  let w := world_of (viewer_at 0 0 false position_center d_1) 640 480 (toy_entry 0) in
  let w' := set_current (toy_entry 2) w in
  ctx w' = ctx w /\
  ((true = false /\ w' = w) \/
   (true = true /\ w' = set_current (current w') w /\
    exists i e0, i <> IMGLIST_INVALID /\ toy_open i e0 = (Some (current w'), tt))).
Proof.
  apply (skip_image_outcome unit toy_skip toy_open 2
           (world_of (viewer_at 0 0 false position_center d_1) 640 480 (toy_entry 0))
           (set_current (toy_entry 2)
              (world_of (viewer_at 0 0 false position_center d_1) 640 480
                 (toy_entry 0)))
           tt tt true).
  vm_compute. reflexivity.
Defined.

Lemma on_slideshow_timer_outcome_witness :
  let w := world_of (viewer_at 0 0 false position_center d_1) 640 480 (toy_entry 0) in
  exists w',
    toy_on_slideshow_timer 2 w = Some (w', tt) /\
    (2 = IMGLIST_INVALID -> w' = slideshow_ctl false w) /\
    (2 <> IMGLIST_INVALID ->
     current w' = toy_entry 2 /\
     slideshow_enable (ctx w') = true /\
     slideshow_timer w' = {| tv_sec := slideshow_time (ctx w); tv_nsec := 0 |} /\
     frame (ctx w') = 0 /\
     exists e0, toy_open 2 e0 = (Some (toy_entry 2), tt)).
Proof.
  apply (on_slideshow_timer_outcome unit toy_size toy_first toy_last toy_prev toy_next
           toy_prev toy_next toy_next toy_open 1
           (world_of (viewer_at 0 0 false position_center d_1) 640 480 (toy_entry 0))
           tt tt 2 (toy_entry 2)).
  reflexivity.
Defined.

Lemma slideshow_action_outcome_witness :
  let w := world_of (viewer_at 0 0 false position_center d_1) 640 480 (toy_entry 0) in
  let w' := slideshow_ctl true (reset_state 3 (set_current (toy_entry 2) w)) in
  (slideshow_enable (ctx w) = true -> w' = slideshow_ctl false w /\ tt = tt) /\
  (slideshow_enable (ctx w') = true ->
   slideshow_enable (ctx w) = false /\
   slideshow_timer w' = {| tv_sec := slideshow_time (ctx w); tv_nsec := 0 |} /\
   exists i e0, i <> IMGLIST_INVALID /\ toy_open i e0 = (Some (current w'), tt)).
Proof.
  apply (slideshow_action_outcome unit toy_size toy_first toy_last toy_prev toy_next
           toy_prev toy_next toy_next toy_open 2
           (world_of (viewer_at 0 0 false position_center d_1) 640 480 (toy_entry 0))
           (slideshow_ctl true
              (reset_state 3
                 (set_current (toy_entry 2)
                    (world_of (viewer_at 0 0 false position_center d_1) 640 480
                       (toy_entry 0)))))
           tt tt).
  vm_compute. reflexivity.
Defined.

(* ================================================================== *)
(** * Zoom keeping *)

(** X26: [toggle_keep_zoom]: the status line names the state the toggle
    arrives at, and toggling twice restores the viewer context; each
    toggle requests one redraw and writes one status line. *)
Theorem toggle_keep_zoom_twice (w : world) :
  let w1 := toggle_keep_zoom w in
  let w2 := toggle_keep_zoom w1 in
  keep_zoom (ctx w1) = negb (keep_zoom (ctx w)) /\
  info w1 = (info_status,
             fmt_status (if keep_zoom (ctx w1) then "Keep zoom ON" else "Keep zoom OFF"))
            :: info w /\
  ctx w2 = ctx w /\
  redraws w2 = S (S (redraws w)) /\
  List.length (info w2) = S (S (List.length (info w))).
Proof.
  unfold toggle_keep_zoom.
  cbn [ctx set_ctx info_update app_redraw keep_zoom set_keep_zoom info redraws
       List.length].
  rewrite negb_involutive. repeat split. destruct (ctx w); reflexivity.
Qed.



(* ================================================================== *)
(** * Direction of a percentage zoom *)



Lemma zoom_scale_in_ge percent p s :
  0 < percent < 1000 -> scale_in_range s ->
  fle s (zoom_scale percent p s) = true.
Proof.
  intros Hp Hs. pose proof Hs as (_ & _ & HsM).
  apply scale_in_range_nrm in Hs. unfold zoom_scale.
  destruct (Z.ltb_spec 0 percent); [|lia].
  pose proof (zoom_step_nrm false percent 1 11 s (-65) 7 Hs ltac:(lia) ltac:(lia)
                (Z_to_double_percent percent Hp) ltac:(lia) ltac:(lia)) as T.
  destruct (fgt (dadd s (f2d (zoom_step percent s))) MAX_SCALE); [exact HsM|].
  apply compare_le_fle.
  apply (SFadd_positive_ge dprec demax dprec_pos _ _ _ _ _ _ Hs T); format_side.
Qed.

(** X27: zooming in never shrinks: after [zoom_image] with a positive
    percentage the scale is at least what it was (and at most
    [MAX_SCALE]), for every scale a session can be in. *)
Theorem zoom_in_never_shrinks (str_to_num : string -> option Z) (p : string)
    (percent : Z) (w : world) :
  scale_in_range (scale (ctx w)) ->
  denotes_percent str_to_num p percent ->
  0 < percent < 1000 ->
  fle (scale (ctx w)) (scale (ctx (zoom_image str_to_num (Some p) w))) = true /\
  fle (scale (ctx (zoom_image str_to_num (Some p) w))) MAX_SCALE = true.
Proof.
  intros Hs Hd Hp.
  destruct (zoom_image_scale str_to_num p percent w Hd
              (valid_zoom_percent_range percent ltac:(lia) ltac:(lia))) as [-> _].
  split.
  - now apply zoom_scale_in_ge.
  - apply zoom_in_in_range; trivial.
Qed.

Lemma zoom_in_never_shrinks_witness :
  let w := world_of (viewer_at 0 0 false position_center d_1) 640 480
             (still_image 800 600) in
  fle (scale (ctx w))
      (scale (ctx (zoom_image decimal_str_to_num (Some "33"%string) w))) = true /\
  fle (scale (ctx (zoom_image decimal_str_to_num (Some "33"%string) w))) MAX_SCALE = true.
Proof.
  apply (zoom_in_never_shrinks decimal_str_to_num "33" 33
           (world_of (viewer_at 0 0 false position_center d_1) 640 480
              (still_image 800 600)));
    repeat split.
Defined.

(** X28: zooming out stops at [scale_min], the larger of the two ratios
    of [MIN_SCALE] pixels to a side of the frame (the scale at which the
    smaller side measures [MIN_SCALE] pixels).  After [zoom_image] with
    a negative percentage the scale is at least [scale_min]; started at
    or above [scale_min] it does not grow; started below [scale_min] it
    is raised to [scale_min], so there a zoom out enlarges the image. *)
Theorem zoom_out_stops_at_scale_min (str_to_num : string -> option Z) (p : string)
    (percent : Z) (w : world) :
  let s := scale (ctx w) in
  let s' := scale (ctx (zoom_image str_to_num (Some p) w)) in
  let smin := f2d (scale_min (current_pm w)) in
  frame_size_ok (current_pm w) ->
  scale_reachable s ->
  denotes_percent str_to_num p percent ->
  -1000 < percent < 0 ->
  fle smin s' = true /\
  (fle smin s = true -> fle s' s = true) /\
  (flt s smin = true -> s' = smin /\ flt s s' = true).
Proof.
  intros s s' smin Hf Hs Hd Hp. subst s s' smin.
  destruct (zoom_image_scale str_to_num p percent w Hd
              (valid_zoom_percent_range percent ltac:(lia) ltac:(lia))) as [-> _].
  destruct (zoom_scale_out_wide percent (current_pm w) (scale (ctx w)) Hp Hf Hs)
    as (_ & _ & R3 & R4 & R5 & _).
  split; [exact R3|]. split; [exact R4|].
  intros L. rewrite (R5 L). split; [reflexivity | exact L].
Qed.

Lemma zoom_out_stops_at_scale_min_witness :
  let w := world_of (viewer_at 0 0 false position_center d_1) 640 480
             (still_image 30 7) in
  let s' := scale (ctx (zoom_image decimal_str_to_num (Some "-50"%string) w)) in
  s' = f2d (scale_min (current_pm w)) /\ flt (scale (ctx w)) s' = true.
Proof.
  destruct (zoom_out_stops_at_scale_min decimal_str_to_num "-50" (-50)
              (world_of (viewer_at 0 0 false position_center d_1) 640 480
                 (still_image 30 7))) as (_ & _ & H);
    [repeat split .. |].
  apply H. reflexivity.
Defined.
